(** * RustMedia: catalogue schema triggers and admin upload client

    A shallow embedding of the parts of the RustMedia plugin that carry
    its bookkeeping invariants:

    - [migrations/001_create_tables.sql]: the row-level triggers
      [update_folder_stats] and [update_tag_usage], the sweep
      [cleanup_expired_uploads] and the constraints of [media_items];
    - [assets/js/admin.js] and the upload / folder handlers: the chunk
      plan of [uploadChunked], the upload queue of [RustMedia.Upload] and
      the two-step folder deletion of [RustMedia.Folders].

    SQL tables are lists of rows (a heap, in insertion order) or finite
    maps keyed by their primary key; SQL integers are [Z] with the range
    check PostgreSQL performs ([INTEGER], [BIGINT] arithmetic raises
    "out of range" and aborts the statement).  A statement that raises
    leaves the database as it was. *)

From Stdlib Require Import ZArith List Lia Bool Ascii String.
From stdpp Require Import gmap strings list fin_maps sorting pretty.

Local Open Scope Z_scope.

(** Identifiers ([UUID] columns) only need decidable equality. *)
Abbreviation uuid := positive.

(** ** SQL integer types *)

Definition int4_ok (z : Z) : bool := (- 2 ^ 31 <=? z) && (z <? 2 ^ 31).
Definition int8_ok (z : Z) : bool := (- 2 ^ 63 <=? z) && (z <? 2 ^ 63).

(** [TG_OP] of a row-level trigger. *)
Inductive tg_op := INSERT | DELETE | UPDATE.

(** * Folder statistics: [update_folder_stats] *)

Module FolderStats.

(** [media_items]: the columns the triggers and constraints read. *)
Record media_item := MediaItem {
  id : uuid;
  size : Z;
  folder_id : option uuid;
  content_hash : string;
  deleted_at : option Z
}.

#[global] Instance media_item_eq_dec : EqDecision media_item.
Proof. solve_decision. Defined.

(** [media_folders], keyed by [id]; of its columns the triggers write
    [item_count], [total_size] and [updated_at], the last not kept here. *)
Record media_folder := MediaFolder {
  parent_id : option uuid;
  item_count : Z;
  total_size : Z
}.

Record db := Db {
  media_items : list media_item;
  media_folders : gmap positive media_folder
}.

(** The [SET] clause of the trigger's updates. *)
Definition bump (dc ds : Z) (r : media_folder) : media_folder :=
  MediaFolder (parent_id r) (item_count r + dc) (total_size r + ds).

(** [UPDATE media_folders SET item_count = item_count + dc,
    total_size = total_size + ds WHERE id = fid].  A [NULL] or dangling
    [fid] matches no row. *)
Definition adjust_folder (fid : option uuid) (dc ds : Z)
    (fs : gmap positive media_folder) : option (gmap positive media_folder) :=
  match fid with
  | None => Some fs
  | Some f =>
      match fs !! f with
      | None => Some fs
      | Some r =>
          if int4_ok (item_count r + dc) && int8_ok (total_size r + ds)
          then Some (<[f := bump dc ds r]> fs)
          else None
      end
  end.

(** The trigger body, [FOR EACH ROW], on [TG_OP], [OLD] and [NEW]. *)
Definition update_folder_stats (op : tg_op) (OLD NEW : option media_item)
    (fs : gmap positive media_folder) : option (gmap positive media_folder) :=
  match op, OLD, NEW with
  | INSERT, _, Some new => adjust_folder (folder_id new) 1 (size new) fs
  | DELETE, Some old, _ => adjust_folder (folder_id old) (-1) (- size old) fs
  | UPDATE, Some old, Some new =>
      if decide (folder_id old = folder_id new) then Some fs
      else
        fs1 ← (match folder_id old with
               | Some _ => adjust_folder (folder_id old) (-1) (- size old) fs
               | None => Some fs
               end);
        match folder_id new with
        | Some _ => adjust_folder (folder_id new) 1 (size new) fs1
        | None => Some fs1
        end
  | _, _, _ => Some fs
  end.

(** [DELETE FROM media_items WHERE id = i]: every matching row is removed
    and the trigger runs for it. *)
Fixpoint delete_rows (i : uuid) (rows : list media_item)
    (fs : gmap positive media_folder)
    : option (list media_item * gmap positive media_folder) :=
  match rows with
  | [] => Some ([], fs)
  | r :: rest =>
      if decide (id r = i) then
        fs1 ← update_folder_stats DELETE (Some r) None fs;
        delete_rows i rest fs1
      else
        p ← delete_rows i rest fs;
        Some (r :: p.1, p.2)
  end.

(** [UPDATE media_items SET ... WHERE id = i], the assignment given as the
    function [set] on the row. *)
Fixpoint update_rows (i : uuid) (set : media_item → media_item)
    (rows : list media_item) (fs : gmap positive media_folder)
    : option (list media_item * gmap positive media_folder) :=
  match rows with
  | [] => Some ([], fs)
  | r :: rest =>
      if decide (id r = i) then
        fs1 ← update_folder_stats UPDATE (Some r) (Some (set r)) fs;
        p ← update_rows i set rest fs1;
        Some (set r :: p.1, p.2)
      else
        p ← update_rows i set rest fs;
        Some (r :: p.1, p.2)
  end.

Definition set_folder_id (f : option uuid) (r : media_item) : media_item :=
  MediaItem (id r) (size r) f (content_hash r) (deleted_at r).

Definition set_deleted_at (d : option Z) (r : media_item) : media_item :=
  MediaItem (id r) (size r) (folder_id r) (content_hash r) d.

(** Constraint checks of [media_items]: [PRIMARY KEY (id)],
    [UNIQUE (content_hash)] and the foreign key on [folder_id]. *)
Definition pk_free (i : uuid) (rows : list media_item) : bool :=
  forallb (λ r, negb (bool_decide (id r = i))) rows.

Definition hash_free (h : string) (rows : list media_item) : bool :=
  forallb (λ r, negb (bool_decide (content_hash r = h))) rows.

Definition fk_folder (f : option uuid) (fs : gmap positive media_folder) : bool :=
  match f with
  | None => true
  | Some g => bool_decide (is_Some (fs !! g))
  end.

Inductive stmt :=
| CreateFolder (f : uuid) (parent : option uuid)
| InsertItem (r : media_item)
| DeleteItem (i : uuid)
| MoveItem (i : uuid) (f : option uuid)
| SetDeletedAt (i : uuid) (d : option Z).

(** One statement; [None] when it raises.  The foreign key is checked
    for the rows an [UPDATE] writes, so moving no row never raises. *)
Definition exec (s : stmt) (d : db) : option db :=
  match s with
  | CreateFolder f parent =>
      if bool_decide (media_folders d !! f = None) && fk_folder parent (media_folders d)
      then Some (Db (media_items d) (<[f := MediaFolder parent 0 0]> (media_folders d)))
      else None
  | InsertItem r =>
      if pk_free (id r) (media_items d) && hash_free (content_hash r) (media_items d)
         && fk_folder (folder_id r) (media_folders d) && int8_ok (size r)
      then
        fs ← update_folder_stats INSERT None (Some r) (media_folders d);
        Some (Db (media_items d ++ [r]) fs)
      else None
  | DeleteItem i =>
      p ← delete_rows i (media_items d) (media_folders d);
      Some (Db p.1 p.2)
  | MoveItem i f =>
      if fk_folder f (media_folders d) || pk_free i (media_items d) then
        p ← update_rows i (set_folder_id f) (media_items d) (media_folders d);
        Some (Db p.1 p.2)
      else None
  | SetDeletedAt i dl =>
      p ← update_rows i (set_deleted_at dl) (media_items d) (media_folders d);
      Some (Db p.1 p.2)
  end.

(** A statement that raises is rolled back. *)
Definition step (d : db) (s : stmt) : db := default d (exec s d).

Definition run (ss : list stmt) (d : db) : db := foldl step d ss.

Definition empty_db : db := Db [] ∅.

(** The aggregates the counters are compared with:
    [SELECT COUNT( * ), SUM(size) FROM media_items WHERE p]. *)
Fixpoint count_where (p : media_item → bool) (rows : list media_item) : Z :=
  match rows with
  | [] => 0
  | r :: rest => (if p r then 1 else 0) + count_where p rest
  end.

Fixpoint size_where (p : media_item → bool) (rows : list media_item) : Z :=
  match rows with
  | [] => 0
  | r :: rest => (if p r then size r else 0) + size_where p rest
  end.

(** Rows directly in folder [F], soft-deleted or not. *)
Definition in_folder (F : uuid) (r : media_item) : bool :=
  bool_decide (folder_id r = Some F).

(** Rows directly in folder [F] with [deleted_at IS NULL]. *)
Definition live_in_folder (F : uuid) (r : media_item) : bool :=
  in_folder F r && bool_decide (deleted_at r = None).

(** Contribution of one row to the aggregates of folder [F]. *)
Definition cnt1 (F : uuid) (r : media_item) : Z := if in_folder F r then 1 else 0.
Definition sz1 (F : uuid) (r : media_item) : Z := if in_folder F r then size r else 0.

(** The bookkeeping invariant, over all rows of the folder. *)
Definition stats_match (d : db) : Prop :=
  ∀ F r, media_folders d !! F = Some r →
    item_count r = count_where (in_folder F) (media_items d) ∧
    total_size r = size_where (in_folder F) (media_items d).

(** Referential integrity of [media_items.folder_id]. *)
Definition fk_ok (d : db) : Prop :=
  ∀ r, r ∈ media_items d → fk_folder (folder_id r) (media_folders d) = true.

(** A folder, one item uploaded into it, then the item soft-deleted. *)
Definition soft_delete_scenario : list stmt :=
  [ CreateFolder 1 None;
    InsertItem (MediaItem 1 10 (Some 1%positive) "h1" None);
    SetDeletedAt 1 (Some 5) ].

(** Two folders with one item each; used to exercise a move. *)
Definition two_folder_db : db :=
  run [ CreateFolder 1 None; CreateFolder 2 (Some 1%positive);
        CreateFolder 3 (Some 2%positive);
        InsertItem (MediaItem 7 2000000 (Some 2%positive) "h7" None);
        InsertItem (MediaItem 8 500 (Some 3%positive) "h8" None) ] empty_db.

End FolderStats.

(** * Tag usage: [update_tag_usage] *)

Module TagUsage.

(** [media_tags], keyed by [id]. *)
Record media_tag := MediaTag {
  name : string;
  slug : string;
  usage_count : Z
}.

(** [media_item_tags] rows are pairs [(media_id, tag_id)]. *)
Record db := Db {
  media_item_tags : list (positive * positive);
  media_tags : gmap positive media_tag
}.

Definition bump (dc : Z) (r : media_tag) : media_tag :=
  MediaTag (name r) (slug r) (usage_count r + dc).

(** [UPDATE media_tags SET usage_count = usage_count + dc WHERE id = t]. *)
Definition adjust_tag (t : uuid) (dc : Z) (ts : gmap positive media_tag)
    : option (gmap positive media_tag) :=
  match ts !! t with
  | None => Some ts
  | Some r =>
      if int4_ok (usage_count r + dc)
      then Some (<[t := bump dc r]> ts)
      else None
  end.

(** The trigger body; it is attached [AFTER INSERT OR DELETE]. *)
Definition update_tag_usage (op : tg_op) (OLD NEW : option (positive * positive))
    (ts : gmap positive media_tag) : option (gmap positive media_tag) :=
  match op, OLD, NEW with
  | INSERT, _, Some new => adjust_tag new.2 1 ts
  | DELETE, Some old, _ => adjust_tag old.2 (-1) ts
  | _, _, _ => Some ts
  end.

(** [DELETE FROM media_item_tags WHERE p], the trigger run for each row
    removed.  Cascades from [media_items] and [media_tags] are deletions
    of this form. *)
Fixpoint delete_assoc (p : positive * positive → bool)
    (rows : list (positive * positive)) (ts : gmap positive media_tag)
    : option (list (positive * positive) * gmap positive media_tag) :=
  match rows with
  | [] => Some ([], ts)
  | r :: rest =>
      if p r then
        ts1 ← update_tag_usage DELETE (Some r) None ts;
        delete_assoc p rest ts1
      else
        q ← delete_assoc p rest ts;
        Some (r :: q.1, q.2)
  end.

Inductive stmt :=
| CreateTag (t : uuid) (n s : string)
| InsertAssoc (media_id tag_id : uuid)
| DeleteAssoc (p : positive * positive → bool).

Definition exec (s : stmt) (d : db) : option db :=
  match s with
  | CreateTag t n sl =>
      if bool_decide (media_tags d !! t = None)
         && bool_decide (map_Forall (λ _ r, name r ≠ n ∧ slug r ≠ sl) (media_tags d))
      then Some (Db (media_item_tags d) (<[t := MediaTag n sl 0]> (media_tags d)))
      else None
  | InsertAssoc m t =>
      if bool_decide ((m, t) ∉ media_item_tags d)
         && bool_decide (is_Some (media_tags d !! t))
      then
        ts ← update_tag_usage INSERT None (Some (m, t)) (media_tags d);
        Some (Db (media_item_tags d ++ [(m, t)]) ts)
      else None
  | DeleteAssoc p =>
      q ← delete_assoc p (media_item_tags d) (media_tags d);
      Some (Db q.1 q.2)
  end.

Definition step (d : db) (s : stmt) : db := default d (exec s d).

Definition run (ss : list stmt) (d : db) : db := foldl step d ss.

Definition empty_db : db := Db [] ∅.

(** [SELECT COUNT( * ) FROM media_item_tags WHERE tag_id = t]. *)
Fixpoint count_tag (t : uuid) (rows : list (positive * positive)) : Z :=
  match rows with
  | [] => 0
  | r :: rest => (if bool_decide (r.2 = t) then 1 else 0) + count_tag t rest
  end.

Definition usage_match (d : db) : Prop :=
  ∀ t r, media_tags d !! t = Some r → usage_count r = count_tag t (media_item_tags d).

Definition fk_ok (d : db) : Prop :=
  ∀ r, r ∈ media_item_tags d → is_Some (media_tags d !! r.2).

(** Two tags; item 10 tagged with both, item 11 with the first; then item
    10 is deleted from [media_items] and its associations cascade. *)
Definition tagging_scenario : list stmt :=
  [ CreateTag 1 "cats" "cats"; CreateTag 2 "dogs" "dogs";
    InsertAssoc 10 1; InsertAssoc 10 2; InsertAssoc 11 1;
    DeleteAssoc (λ r, bool_decide (r.1 = 10%positive)) ].

End TagUsage.

(** * Expired chunked uploads: [cleanup_expired_uploads] *)

Module UploadGC.

(** [media_chunked_uploads]; timestamps are microseconds since the epoch. *)
Record chunked_upload := ChunkedUpload {
  id : uuid;
  filename : string;
  total_size : Z;
  chunk_size : Z;
  total_chunks : Z;
  received_chunks : Z;
  temp_path : string;
  started_at : Z;
  expires_at : Z;
  completed_at : option Z
}.

(** [media_upload_chunks], [upload_id] referencing the upload
    [ON DELETE CASCADE]. *)
Record upload_chunk := UploadChunk {
  upload_id : uuid;
  chunk_index : Z;
  size : Z;
  received : bool
}.

#[global] Instance chunked_upload_eq_dec : EqDecision chunked_upload.
Proof. solve_decision. Defined.

#[global] Instance upload_chunk_eq_dec : EqDecision upload_chunk.
Proof. solve_decision. Defined.

(** The two tables, and next to them the temporary artifacts that exist
    in storage, by path.  Storage is outside the database. *)
Record world := World {
  media_chunked_uploads : list chunked_upload;
  media_upload_chunks : list upload_chunk;
  temp_files : gset string
}.

(** [WHERE expires_at < NOW() AND completed_at IS NULL]. *)
Definition expired (now : Z) (u : chunked_upload) : bool :=
  (expires_at u <? now) && bool_decide (completed_at u = None).

(** The cascade: a chunk row goes when its upload row went. *)
Definition orphaned (now : Z) (us : list chunked_upload) (c : upload_chunk) : bool :=
  existsb (λ u, expired now u && bool_decide (id u = upload_id c)) us.

(** [cleanup_expired_uploads()], with [now] the value of [NOW()]; the
    result is [ROW_COUNT] stored in an [INTEGER]. *)
Definition cleanup_expired_uploads (now : Z) (w : world) : option (Z * world) :=
  let us := media_chunked_uploads w in
  let deleted_count := Z.of_nat (length (filter (λ u, expired now u = true) us)) in
  if int4_ok deleted_count then
    Some (deleted_count,
          World (filter (λ u, expired now u = false) us)
                (filter (λ c, orphaned now us c = false) (media_upload_chunks w))
                (temp_files w))
  else None.

(** One upload abandoned with an hour's expiry that has passed, one
    completed just before its expiry, one still running; the first two
    have chunk rows and all three have a temporary artifact. *)
Definition abandoned_upload : chunked_upload :=
  ChunkedUpload 1 "a.bin" 10 5 2 1 "tmp/1" 0 3600 None.

Definition sweep_world : world :=
  World [ abandoned_upload;
          ChunkedUpload 2 "b.bin" 10 5 2 2 "tmp/2" 0 3600 (Some 3599);
          ChunkedUpload 3 "c.bin" 10 5 2 0 "tmp/3" 4000 7600 None ]
        [ UploadChunk 1 0 5 true; UploadChunk 2 0 5 true; UploadChunk 2 1 5 true ]
        {[ "tmp/1"; "tmp/2"; "tmp/3" ]}.

End UploadGC.

(** * Deduplicating ingestion over [media_items] *)

Module Dedup.
Import FolderStats.

Section Ingest.

(** The Hash & Identity Service: a deterministic digest of the content. *)
Variable digest : list Byte.byte → string.

(** [SELECT * FROM media_items WHERE content_hash = h AND deleted_at IS NULL]. *)
Definition find_live_by_hash (h : string) (rows : list media_item) : option media_item :=
  find (λ r, bool_decide (content_hash r = h) && bool_decide (deleted_at r = None)) rows.

(** Modelled from the spec: the server-side ingestion step that follows
    hashing (the upload handlers themselves are not among the sources;
    only the schema they write to is).  "If the hash matches an existing
    non-deleted MediaItem, the existing item is returned without creating
    a new MediaItem.  Otherwise a MediaItem is created and folder stats
    are incremented."  Creating the item is an [INSERT] into
    [media_items], so the constraints and the trigger of the schema apply;
    [None] is the error the [INSERT] raises. *)
Definition ingest (new_id : uuid) (folder : option uuid) (content : list Byte.byte)
    (d : db) : option (uuid * db) :=
  let h := digest content in
  match find_live_by_hash h (media_items d) with
  | Some r => Some (id r, d)
  | None =>
      d' ← exec (InsertItem (MediaItem new_id (Z.of_nat (length content)) folder h None)) d;
      Some (new_id, d')
  end.

End Ingest.

(** [UNIQUE (content_hash)] as a property of the table. *)
Definition hash_unique (d : db) : Prop := NoDup (map content_hash (media_items d)).

(** A stand-in digest for running examples: the content itself. *)
Definition toy_digest (content : list Byte.byte) : string :=
  String.string_of_list_byte content.

Definition sample_content : list Byte.byte := [Byte.x68; Byte.x69].

(** The catalogue after [sample_content] was ingested once as item 5. *)
Definition catalog_after_first : db :=
  Db [MediaItem 5 2 None "hi" None] ∅.

End Dedup.

(** * The upload client: [RustMedia.Upload.uploadChunked]

    JavaScript numbers that hold sizes, indices and counts are integers
    below 2^53, on which [*], [+], [Math.min] and the correctly rounded
    quotient followed by [Math.ceil] are exact; they are [Z] here. *)

Module Chunked.

(** A [File]: its name and its bytes; [file.size] is the byte count. *)
Record File := MkFile {
  name : string;
  content : list Byte.byte
}.

Definition file_size (f : File) : Z := Z.of_nat (length (content f)).

(** [Blob.prototype.slice(start, end)]: negative offsets count from the
    end, all offsets are clamped to the blob. *)
Definition Blob_slice (start end_ : Z) (bytes : list Byte.byte) : list Byte.byte :=
  let size := Z.of_nat (length bytes) in
  let relative_start := if start <? 0 then Z.max (size + start) 0 else Z.min start size in
  let relative_end := if end_ <? 0 then Z.max (size + end_) 0 else Z.min end_ size in
  let span := Z.max (relative_end - relative_start) 0 in
  take (Z.to_nat span) (drop (Z.to_nat relative_start) bytes).

(** [Math.ceil(a / b)] for a non-zero [b]. *)
Definition Math_ceil_div (a b : Z) : Z := - ((- a) / b).

(** [this.config.chunkSize || 5 * 1024 * 1024]: an absent or zero
    [chunkSize] is falsy. *)
Definition effective_chunk_size (chunkSize : option Z) : Z :=
  match chunkSize with
  | Some c => if c =? 0 then 5 * 1024 * 1024 else c
  | None => 5 * 1024 * 1024
  end.

(** The calls [uploadChunked] makes on [RustMedia.API]. *)
Inductive request :=
| InitChunkedUpload (filename : string) (total_size chunk_size total_chunks : Z)
                    (folder_id : option string)
| UploadChunk (upload_id : string) (chunk_index : Z) (data : list Byte.byte)
| CompleteChunkedUpload (upload_id : string).

(** What the server and the network answer: [None] and [false] are a
    rejected promise. *)
Record server := Server {
  init_response : option string;
  chunk_response : Z → bool;
  complete_response : option string
}.

(** The byte range of chunk [i]: [start = i * chunkSize],
    [end = Math.min(start + chunkSize, file.size)]. *)
Definition chunk_start (chunkSize i : Z) : Z := i * chunkSize.

Definition chunk_end (chunkSize size i : Z) : Z :=
  Z.min (chunk_start chunkSize i + chunkSize) size.

Definition chunk_of (chunkSize : Z) (f : File) (i : Z) : list Byte.byte :=
  Blob_slice (chunk_start chunkSize i) (chunk_end chunkSize (file_size f) i) (content f).

(** The [for] loop over the chunk indices still to send; an upload that
    rejects ends the loop.  The result tells whether all were sent. *)
Fixpoint upload_chunks (indices : list Z) (chunkSize : Z) (f : File)
    (upload_id : string) (srv : server) : list request * bool :=
  match indices with
  | [] => ([], true)
  | i :: rest =>
      let req := UploadChunk upload_id i (chunk_of chunkSize f i) in
      if chunk_response srv i then
        let r := upload_chunks rest chunkSize f upload_id srv in
        (req :: r.1, r.2)
      else ([req], false)
  end.

(** [uploadChunked(item, folderId)]: the requests issued, in order, and
    the result of the upload ([None] when a request rejected).  The
    progress and status display updates are left out. *)
Definition uploadChunked (chunkSize_cfg : option Z) (f : File)
    (folderId : option string) (srv : server) : list request * option string :=
  let chunkSize := effective_chunk_size chunkSize_cfg in
  let totalChunks := Math_ceil_div (file_size f) chunkSize in
  let init := InitChunkedUpload (name f) (file_size f) chunkSize totalChunks folderId in
  match init_response srv with
  | None => ([init], None)
  | Some uploadId =>
      let r := upload_chunks (seqZ 0 totalChunks) chunkSize f uploadId srv in
      if r.2
      then (init :: r.1 ++ [CompleteChunkedUpload uploadId], complete_response srv)
      else (init :: r.1, None)
  end.

(** A five-byte file sent in chunks of two bytes. *)
Definition five_bytes : File :=
  MkFile "clip.bin" [Byte.x01; Byte.x02; Byte.x03; Byte.x04; Byte.x05].

Definition accepting_server : server :=
  Server (Some "u1") (λ _, true) (Some "m1").

End Chunked.

(** * Folder deletion in the admin client: [RustMedia.Folders.deleteFolder] *)

Module FolderDelete.

(** [String.prototype.includes]. *)
Fixpoint includes (needle hay : string) : bool :=
  if String.prefix needle hay then true
  else match hay with
       | EmptyString => false
       | String _ rest => includes needle rest
       end.

(** How an awaited API call settles; a rejection carries [error.message]. *)
Inductive outcome := Resolved | Rejected (message : string).

(** What the handler does to the outside, in order. *)
Inductive effect :=
| Confirm (prompt : string)
| ApiDeleteFolder (id : string) (force : bool)
| ToastSuccess (message : string)
| ToastError (message : string)
| Reload.

#[global] Instance effect_eq_dec : EqDecision effect.
Proof. solve_decision. Defined.

(** [RustMedia.API.deleteFolder(id, force = false)]: the flag sent, and
    the endpoint it is sent to with method [DELETE]. *)
Definition API_deleteFolder (id : string) (force : option bool) : effect :=
  ApiDeleteFolder id (default false force).

Definition deleteFolder_endpoint (id : string) (force : bool) : string :=
  "/folders/" +:+ id +:+ "?force=" +:+ (if force then "true" else "false").

(** The user's answers to the two prompts and the way the two requests
    settle. *)
Record env := Env {
  confirm1 : bool;
  response1 : outcome;
  confirm2 : bool;
  response2 : outcome
}.

Definition prompt1 : string := "Are you sure you want to delete this folder?".
Definition prompt2 : string :=
  "This folder is not empty. Delete anyway (will also delete contents)?".

(** [RustMedia.Folders.deleteFolder(folderId)]. *)
Definition deleteFolder (folderId : string) (e : env) : list effect :=
  Confirm prompt1 ::
  if confirm1 e then
    API_deleteFolder folderId None ::
    match response1 e with
    | Resolved => [ToastSuccess "Folder deleted"; Reload]
    | Rejected message =>
        if includes "not empty" message then
          Confirm prompt2 ::
          if confirm2 e then
            API_deleteFolder folderId (Some true) ::
            match response2 e with
            | Resolved => [ToastSuccess "Folder and contents deleted"; Reload]
            | Rejected message2 => [ToastError message2]
            end
          else []
        else [ToastError message]
    end
  else [].

Definition is_delete_request (x : effect) : bool :=
  match x with ApiDeleteFolder _ _ => true | _ => false end.

(** The delete requests of a run, in order. *)
Definition delete_requests (tr : list effect) : list effect :=
  List.filter is_delete_request tr.

(** The server refuses with "Folder is not empty"; the user confirms both
    prompts; the forced request succeeds. *)
Definition forced_run : env :=
  Env true (Rejected "Folder is not empty") true Resolved.

End FolderDelete.

(** * The upload queue: [RustMedia.Upload]

    Queue items are objects shared between the [queue] array and the
    suspended [processQueue] activation that uploads one of them, so they
    live in a heap, addressed in allocation order; [queue] holds
    addresses.  [cancel] takes an item out of [queue] while the running
    upload still holds it.  Rendering (DOM updates, toasts) is left out. *)

Module UploadQueue.
Import Chunked.

Inductive status := Pending | Uploading | Processing | Complete | Error.

#[global] Instance status_eq_dec : EqDecision status.
Proof. solve_decision. Defined.

(** [window.RUSTMEDIA_CONFIG || {}]: every field may be absent. *)
Record config := Config {
  maxFileSize : option Z;
  allowedExtensions : option (list string);
  chunkSize : option Z
}.

Record item := Item {
  id : string;
  file : File;
  item_status : status;
  progress : Z;
  error : option string
}.

(** [String.prototype.split] on a one-character separator; the result is
    never empty. *)
Fixpoint split_on (sep : ascii) (s : string) : list string :=
  match s with
  | EmptyString => [EmptyString]
  | String c rest =>
      if bool_decide (c = sep) then EmptyString :: split_on sep rest
      else match split_on sep rest with
           | seg :: segs => String c seg :: segs
           | [] => [String c EmptyString]
           end
  end.

(** [Array.prototype.pop]'s result on a non-empty array. *)
Definition pop (l : list string) : string := List.last l EmptyString.

(** [String.prototype.toLowerCase] belongs to the JavaScript engine, not
    to this repository, and follows the Unicode case mappings.  The
    client is modelled over any engine: nothing is fixed about the
    function. *)
Class Engine := { toLowerCase : string → string }.

(** [file.name.split('.').pop().toLowerCase()]. *)
Definition extension `{Engine} (f : File) : string :=
  toLowerCase (pop (split_on "."%char (name f))).

(** [validateFile(file)].  [file.size > undefined] is false, so an absent
    [maxFileSize] rejects nothing. *)
Definition validateFile `{Engine} (cfg : config) (f : File) : bool :=
  if match maxFileSize cfg with
     | Some m => file_size f >? m
     | None => false
     end
  then false
  else
    if match allowedExtensions cfg with
       | Some exts => negb (bool_decide (extension f ∈ exts))
       | None => false
       end
    then false
    else true.

(** Whether the character occurs in the string. *)
Fixpoint has_char (c : ascii) (s : string) : bool :=
  match s with
  | EmptyString => false
  | String x rest => bool_decide (x = c) || has_char c rest
  end.

Record state := State {
  heap : list item;
  queue : list nat;
  uploading : bool;
  running : option nat;
  started : list nat
}.

Definition set_status (s : status) (it : item) : item :=
  Item (id it) (file it) s (progress it) (error it).

Definition set_progress (p : Z) (it : item) : item :=
  Item (id it) (file it) (item_status it) p (error it).

Definition set_error (e : string) (it : item) : item :=
  Item (id it) (file it) (item_status it) (progress it) (Some e).

Definition status_at (h : list item) (a : nat) : option status :=
  item_status <$> h !! a.

Definition is_pending (h : list item) (a : nat) : bool :=
  bool_decide (status_at h a = Some Pending).

(** [processQueue()] up to its first [await]: nothing while an upload is
    in flight; otherwise the first pending item of the queue becomes
    'uploading' and its upload starts.  [started] records the uploads
    begun, in order. *)
Definition processQueue (st : state) : state :=
  if uploading st then st
  else
    match find (is_pending (heap st)) (queue st) with
    | None => st
    | Some a =>
        State (alter (set_status Uploading) a (heap st)) (queue st) true (Some a)
              (started st ++ [a])
    end.

Section Machine.

Context `{Engine}.

Variable cfg : config.

(** [generateId()]: the id given to the [n]-th item ever created. *)
Variable generateId : nat → string.

(** The loop of [addFiles(files)]. *)
Fixpoint push_files (files : list File) (h : list item) (q : list nat)
    : list item * list nat :=
  match files with
  | [] => (h, q)
  | f :: rest =>
      if validateFile cfg f
      then push_files rest (h ++ [Item (generateId (length h)) f Pending 0 None])
                      (q ++ [length h])
      else push_files rest h q
  end.

Definition addFiles (files : list File) (st : state) : state :=
  let r := push_files files (heap st) (queue st) in
  processQueue (State r.1 r.2 (uploading st) (running st) (started st)).

(** [queue.findIndex(i => i.id === itemId)] and [queue.splice(index, 1)]. *)
Fixpoint remove_first (p : nat → bool) (q : list nat) : list nat :=
  match q with
  | [] => []
  | a :: rest => if p a then rest else a :: remove_first p rest
  end.

(** [cancel(itemId)].  No code ever sets [item.xhr] or [item.uploadId], so
    neither the abort nor the server-side cancel runs. *)
Definition cancel (itemId : string) (st : state) : state :=
  State (heap st)
        (remove_first (λ a, bool_decide (id <$> heap st !! a = Some itemId)) (queue st))
        (uploading st) (running st) (started st).

(** Whether [processQueue] sends the item through [uploadChunked]:
    [item.file.size > this.config.chunkSize]. *)
Definition is_chunked (it : item) : bool :=
  match chunkSize cfg with
  | Some c => file_size (file it) >? c
  | None => false
  end.

(** The rest of [processQueue], once the awaited upload settles. *)
Definition settle (result : option string) (st : state) : state :=
  match running st with
  | None => st
  | Some a =>
      let h :=
        match result with
        | None => alter (set_progress 100) a (alter (set_status Complete) a (heap st))
        | Some message => alter (set_error message) a (alter (set_status Error) a (heap st))
        end in
      processQueue (State h (queue st) false None (started st))
  end.

(** What can happen to the page: files are dropped or picked, an item is
    cancelled, the upload in flight reports progress, a chunked upload
    has sent its last chunk ([item.status = 'processing']), the upload in
    flight resolves ([None]) or rejects with a message. *)
Inductive event :=
| AddFiles (files : list File)
| Cancel (itemId : string)
| Progress (p : Z)
| ChunksSent
| Settle (result : option string).

Definition step (st : state) (e : event) : state :=
  match e with
  | AddFiles files => addFiles files st
  | Cancel itemId => cancel itemId st
  | Progress p =>
      match running st with
      | Some a => State (alter (set_progress p) a (heap st)) (queue st)
                        (uploading st) (running st) (started st)
      | None => st
      end
  | ChunksSent =>
      match running st with
      | Some a =>
          if bool_decide (is_chunked <$> heap st !! a = Some true)
          then State (alter (set_status Processing) a (heap st)) (queue st)
                     (uploading st) (running st) (started st)
          else st
      | None => st
      end
  | Settle result => settle result st
  end.

Definition run (evs : list event) (st : state) : state := foldl step st evs.

End Machine.

(** [queue: [], uploading: false]. *)
Definition init : state := State [] [] false None [].

(** What holds of every state the page can reach: the [uploading] flag
    mirrors the suspended activation; only the item that activation holds
    can be 'uploading'; [queue] and [started] are in allocation order;
    whatever is still pending in the queue was created after everything
    started so far; every item ever created passed [validateFile]. *)
Record invariant `{Engine} (cfg : config) (st : state) : Prop := Invariant {
  inv_flag : uploading st = bool_decide (is_Some (running st));
  inv_uploading : ∀ a, status_at (heap st) a = Some Uploading → running st = Some a;
  inv_queue_sorted : StronglySorted lt (queue st);
  inv_queue_bound : ∀ a, a ∈ queue st → (a < length (heap st))%nat;
  inv_started_sorted : StronglySorted lt (started st);
  inv_started_bound : ∀ s, s ∈ started st → (s < length (heap st))%nat;
  inv_started_before_pending :
    ∀ s a, s ∈ started st → a ∈ queue st →
           status_at (heap st) a = Some Pending → (s < a)%nat;
  inv_valid : ∀ it, it ∈ heap st → validateFile cfg (file it) = true
}.

(** A page configured with a 3-byte limit and two extensions, and files
    to offer it: exactly at the limit; a refused type; over the limit;
    small. *)
Definition small_config : config := Config (Some 3) (Some ["jpg"; "png"]) (Some 2).

Definition at_limit : File := MkFile "a.JPG" [Byte.x01; Byte.x02; Byte.x03].
Definition bad_type : File := MkFile "b.exe" [Byte.x01].
Definition too_large : File := MkFile "c.png" [Byte.x01; Byte.x02; Byte.x03; Byte.x04].
Definition small_file : File := MkFile "d.png" [Byte.x01].

Definition numbered_id (n : nat) : string :=
  match n with
  | O => "upload_0"
  | S O => "upload_1"
  | _ => "upload_n"
  end.

(** Four files are dropped; the first upload is cancelled while in
    flight, then resolves; the next one rejects. *)
Definition busy_session : list event :=
  [ AddFiles [at_limit; bad_type; too_large; small_file];
    ChunksSent; Cancel "upload_0"; AddFiles [small_file];
    Settle None; Settle (Some "boom") ].

(** The queue items whose status is 'uploading'. *)
Definition uploading_items (st : state) : list nat :=
  filter (λ a, status_at (heap st) a = Some Uploading) (queue st).

(** An engine for running the examples.  Its [toLowerCase] lowers the
    letters A to Z and leaves every other character alone, which is what
    [String.prototype.toLowerCase] does on a string of ASCII characters;
    the examples only use such names. *)
Definition lower_ascii (c : ascii) : ascii :=
  let n := Ascii.N_of_ascii c in
  if ((65 <=? n) && (n <=? 90))%N then Ascii.ascii_of_N (n + 32) else c.

Fixpoint ascii_toLowerCase (s : string) : string :=
  match s with
  | EmptyString => EmptyString
  | String c rest => String (lower_ascii c) (ascii_toLowerCase rest)
  end.

Definition ascii_engine : Engine := {| toLowerCase := ascii_toLowerCase |}.

(** [window.RUSTMEDIA_CONFIG || {}] when the page gives no configuration. *)
Definition unconfigured : config := Config None None None.

(** A file whose name has no dot, and a page that allows its name. *)
Definition readme : File := MkFile "README" [Byte.x01].

Definition readme_config : config := Config (Some 3) (Some ["readme"]) None.

End UploadQueue.

(** * More on the [media_items] triggers and constraints *)

Module FolderStatsMore.
Import FolderStats.

(** [UPDATE media_items SET size = s WHERE id = i], the write an image
    optimisation pass makes after re-encoding a file. *)
Definition set_size (s : Z) (r : media_item) : media_item :=
  MediaItem (id r) s (folder_id r) (content_hash r) (deleted_at r).

(** The counters of every folder fit their column types. *)
Definition ranges_ok (d : db) : Prop :=
  ∀ F x, media_folders d !! F = Some x →
    int4_ok (item_count x) = true ∧ int8_ok (total_size x) = true.

(** [PRIMARY KEY (id)] and [UNIQUE (content_hash)] as properties of the
    table. *)
Definition keys_unique (d : db) : Prop :=
  NoDup (map id (media_items d)) ∧ NoDup (map content_hash (media_items d)).

(** One folder holding one 10-byte item. *)
Definition one_item_db : db :=
  run [ CreateFolder 1 None;
        InsertItem (MediaItem 1 10 (Some 1%positive) "h1" None) ] empty_db.

End FolderStatsMore.

(** * Default settings: [INSERT INTO media_settings ... ON CONFLICT DO NOTHING] *)

Module Settings.

(** The [JSONB] values the migration writes. *)
Inductive jsonb :=
| JString (s : string)
| JNumber (n : Z)
| JBool (b : bool).

#[global] Instance jsonb_eq_dec : EqDecision jsonb.
Proof. solve_decision. Defined.

(** The [VALUES] list of the migration, in order. *)
Definition default_settings : list (string * jsonb) :=
  [ ("storage_backend", JString "local");
    ("storage_path", JString "uploads/media");
    ("base_url", JString "/media");
    ("max_file_size", JNumber 104857600);
    ("jpeg_quality", JNumber 85);
    ("png_compression", JNumber 6);
    ("webp_quality", JNumber 80);
    ("auto_optimize", JBool true);
    ("generate_thumbnails", JBool true);
    ("organize_by_date", JBool true);
    ("deduplicate", JBool true) ].

(** [INSERT INTO media_settings (key, value) VALUES ... ON CONFLICT (key)
    DO NOTHING] on the table keyed by its primary key [key]. *)
Definition insert_do_nothing (rows : list (string * jsonb))
    (t : gmap string jsonb) : gmap string jsonb :=
  foldl (λ t kv, match t !! kv.1 with
                 | Some _ => t
                 | None => <[kv.1 := kv.2]> t
                 end) t rows.

Definition seed_defaults (t : gmap string jsonb) : gmap string jsonb :=
  insert_do_nothing default_settings t.

(** A table in which an administrator has raised the upload limit. *)
Definition customised : gmap string jsonb :=
  {[ "max_file_size" := JNumber 524288000 ]}.

End Settings.

(** * Deleting a folder: the cascade of the schema's foreign keys

    [media_folders.parent_id ... ON DELETE CASCADE] removes the whole
    subtree; [media_items.folder_id ... ON DELETE SET NULL] then rewrites
    the items of every removed folder, and that [UPDATE] runs
    [update_folder_stats] for each of them. *)

Module FolderCascade.
Import FolderStats.

Definition parent_in (S : gset positive) (r : media_folder) : bool :=
  match parent_id r with
  | Some p => bool_decide (p ∈ S)
  | None => false
  end.

(** The folders whose parent is in [S]. *)
Definition children_of (S : gset positive) (fs : gmap positive media_folder)
    : gset positive :=
  dom (filter (λ kv, parent_in S kv.2 = true) fs).

(** [n] rounds of the cascade from the set [S]. *)
Fixpoint cascade (n : nat) (S : gset positive) (fs : gmap positive media_folder)
    : gset positive :=
  match n with
  | O => S
  | S m => cascade m (S ∪ children_of S fs) fs
  end.

(** The folders a [DELETE] of [f] removes; one round per folder row is
    enough for the cascade to come to rest. *)
Definition doomed (f : uuid) (fs : gmap positive media_folder) : gset positive :=
  cascade (base.size fs) {[ f ]} fs.

Definition in_doomed (D : gset positive) (r : media_item) : bool :=
  match folder_id r with
  | Some g => bool_decide (g ∈ D)
  | None => false
  end.

(** [UPDATE media_items SET ... WHERE p], with the trigger run per row. *)
Fixpoint update_rows_where (p : media_item → bool) (set : media_item → media_item)
    (rows : list media_item) (fs : gmap positive media_folder)
    : option (list media_item * gmap positive media_folder) :=
  match rows with
  | [] => Some ([], fs)
  | r :: rest =>
      if p r then
        fs1 ← update_folder_stats UPDATE (Some r) (Some (set r)) fs;
        q ← update_rows_where p set rest fs1;
        Some (set r :: q.1, q.2)
      else
        q ← update_rows_where p set rest fs;
        Some (r :: q.1, q.2)
  end.

(** [DELETE FROM media_folders WHERE id = f].  The referential actions
    run after the folder rows are gone. *)
Definition delete_folder (f : uuid) (d : db) : option db :=
  match media_folders d !! f with
  | None => Some d
  | Some _ =>
      let D := doomed f (media_folders d) in
      let fs := filter (λ kv, kv.1 ∉ D) (media_folders d) in
      q ← update_rows_where (in_doomed D) (set_folder_id None) (media_items d) fs;
      Some (Db q.1 q.2)
  end.

(** A set of folders that contains the children of its members. *)
Definition closed (S : gset positive) (fs : gmap positive media_folder) : Prop :=
  ∀ g r p, fs !! g = Some r → parent_id r = Some p → p ∈ S → g ∈ S.

(** Referential integrity of [media_folders.parent_id]. *)
Definition parents_ok (fs : gmap positive media_folder) : Prop :=
  ∀ g r p, fs !! g = Some r → parent_id r = Some p → is_Some (fs !! p).

End FolderCascade.

(** * More on the upload queue *)

Module QueueLifecycle.
Import Chunked UploadQueue.

(** What holds of the item objects in every state the page can reach:
    the item in flight is 'uploading' or 'processing'; a 'complete' item
    shows 100%; an item carries an error message exactly when it is in
    'error'; an item keeps the id it was created with. *)
Record item_facts (generateId : nat → string) (st : state) : Prop := ItemFacts {
  if_running : ∀ a, running st = Some a →
    status_at (heap st) a = Some Uploading ∨ status_at (heap st) a = Some Processing;
  if_complete : ∀ a it, heap st !! a = Some it → item_status it = Complete →
    progress it = 100;
  if_error : ∀ a it, heap st !! a = Some it →
    (item_status it = Error ↔ is_Some (error it));
  if_ids : ∀ a it, heap st !! a = Some it → id it = generateId a
}.

(** Nothing is left waiting while no upload is in flight. *)
Definition idle_means_drained (st : state) : Prop :=
  uploading st = false → ∀ a, a ∈ queue st → status_at (heap st) a ≠ Some Pending.

Definition is_settle (e : event) : bool :=
  match e with Settle _ => true | _ => false end.

(** An id generator that never repeats: [u], [ui], [uii], ... *)
Fixpoint unary_id (n : nat) : string :=
  match n with
  | O => "u"
  | S m => String "i"%char (unary_id m)
  end.

(** Two small files are dropped, then the second one is cancelled while
    the first is in flight. *)
Definition cancel_session : list event :=
  [ AddFiles [small_file; at_limit] ].

End QueueLifecycle.

(** * More on [validateFile] *)

Module ExtensionCheck.
Import Chunked UploadQueue.

(** A configuration whose extensions are written with a dot or in upper
    case. *)
Definition dotted_config : config := Config None (Some [".jpg"; "PNG"]) None.

End ExtensionCheck.

(** * More on [uploadChunked] *)

Module ChunkedFailures.
Import Chunked.

(** A server that accepts the upload but refuses the chunk of index 1. *)
Definition refusing_server : server :=
  Server (Some "u1") (λ i, negb (i =? 1)) (Some "m1").

End ChunkedFailures.

(** * The API client: [RustMedia.API.request], [uploadChunk] and the
      XHR of [uploadSimple]

    The server and the network are given by what the client observes of
    them. *)

Module Http.
Import Chunked FolderDelete.

(** A JavaScript value as [x || d], [new Error(x)] and a template literal
    look at it: its [ToBoolean] and its [ToString]. *)
Record jsvalue := JsValue {
  truthy : bool;
  to_string : string
}.

Definition js_string (s : string) : jsvalue :=
  JsValue (negb (bool_decide (s = EmptyString))) s.

(** The outcome of [response.json()] or [JSON.parse]: a [SyntaxError]
    with the engine's message; [null], on which reading a property
    throws a [TypeError] with the engine's message; or another value,
    with its properties [message] and [upload_id] where it has them. *)
Inductive parsed :=
| NotJson (syntax_error : string)
| JsonNull (type_error : string)
| JsonValue (message upload_id : option jsvalue).

Record response := Response {
  ok : bool;
  statusText : string;
  body : parsed
}.

(** How [fetch] settles. *)
Inductive fetched :=
| NetworkError (message : string)
| Answered (r : response).

(** How a promise of the API client settles. *)
Inductive result :=
| Fulfilled (value : parsed)
| Failed (message : string).

(** [error.message || fallback], then [new Error(...)]'s message. *)
Definition message_or (m : option jsvalue) (fallback : string) : string :=
  match m with
  | Some v => if truthy v then to_string v else fallback
  | None => fallback
  end.

(** [RustMedia.API.request(endpoint, options)], from the outcome of its
    [fetch]. *)
Definition request (r : fetched) : result :=
  match r with
  | NetworkError m => Failed m
  | Answered resp =>
      if ok resp then
        match body resp with
        | NotJson e => Failed e
        | v => Fulfilled v
        end
      else
        match body resp with
        | NotJson _ => Failed (message_or (Some (js_string (statusText resp))) "Request failed")
        | JsonNull e => Failed e
        | JsonValue m _ => Failed (message_or m "Request failed")
        end
  end.

(** [RustMedia.API.uploadChunk]: [fetch(...).then(r => r.json())]. *)
Definition uploadChunk (r : fetched) : result :=
  match r with
  | NetworkError m => Failed m
  | Answered resp =>
      match body resp with
      | NotJson e => Failed e
      | v => Fulfilled v
      end
  end.

Definition is_fulfilled (r : result) : bool :=
  match r with Fulfilled _ => true | Failed _ => false end.

(** [`${uploadId}`] for [const uploadId = initResponse.upload_id]. *)
Definition template (v : option jsvalue) : string :=
  match v with
  | Some x => to_string x
  | None => "undefined"
  end.

(** The server [uploadChunked] talks to, from the HTTP exchanges behind
    its three kinds of call.  Reading [upload_id] off a [null] answer
    throws, which ends [uploadChunked] like a rejected initialisation. *)
Definition server_of (init : fetched) (chunks : Z → fetched) (complete : fetched)
    : server :=
  Server (match request init with
          | Fulfilled (JsonValue _ u) => Some (template u)
          | _ => None
          end)
         (λ i, is_fulfilled (uploadChunk (chunks i)))
         (match request complete with
          | Fulfilled _ => Some "result"
          | Failed _ => None
          end).

(** [RustMedia.Folders.deleteFolder] over HTTP: the two requests settle
    as [request] settles them. *)
Definition outcome_of (r : result) : outcome :=
  match r with
  | Fulfilled _ => Resolved
  | Failed m => Rejected m
  end.

Definition deleteFolder_http (folderId : string) (c1 c2 : bool) (r1 r2 : fetched)
    : list effect :=
  deleteFolder folderId (Env c1 (outcome_of (request r1)) c2 (outcome_of (request r2))).

(** The events of the [XMLHttpRequest] of [uploadSimple]: [load] with the
    status and the parse of [responseText]; [error]; or an event with no
    listener ([abort], [timeout]). *)
Inductive xhr_event :=
| XhrLoad (status : Z) (responseText : parsed)
| XhrError
| XhrUnheard.

(** A promise settles or stays pending for ever. *)
Inductive promise :=
| Settled (r : result)
| NeverSettles.

(** [uploadSimple]'s promise.  An exception thrown inside the [load]
    listener ([JSON.parse] on a body that is not JSON, [error.message] on
    [null]) leaves the promise pending. *)
Definition uploadSimple (ev : xhr_event) : promise :=
  match ev with
  | XhrLoad status text =>
      if (200 <=? status) && (status <? 300) then
        match text with
        | NotJson _ => NeverSettles
        | v => Settled (Fulfilled v)
        end
      else
        match text with
        | NotJson _ => NeverSettles
        | JsonNull _ => NeverSettles
        | JsonValue m _ => Settled (Failed (message_or m "Upload failed"))
        end
  | XhrError => Settled (Failed "Network error")
  | XhrUnheard => NeverSettles
  end.

(** A server that answers every chunk with status 500 and a JSON error
    document. *)
Definition failing_chunks (i : Z) : fetched :=
  Answered (Response false "Internal Server Error"
                     (JsonValue (Some (js_string "disk full")) None)).

Definition init_ok : fetched :=
  Answered (Response true "OK" (JsonValue None (Some (js_string "u1")))).

Definition complete_ok : fetched :=
  Answered (Response true "OK" (JsonValue None None)).

Definition conflict_answer : fetched :=
  Answered (Response false "Conflict"
                     (JsonValue (Some (js_string "Folder is not empty")) None)).

End Http.

(** * Selection and bulk actions: [RustMedia.Selection], [RustMedia.Actions] *)

Module AdminActions.
Import Http.

(** [selected: new Set()]: an insertion-ordered collection without
    repetition. *)
Definition selection := list string.

Definition set_add (x : string) (sel : selection) : selection :=
  if bool_decide (x ∈ sel) then sel else sel ++ [x].

Definition set_delete (x : string) (sel : selection) : selection :=
  filter (λ y, y ≠ x) sel.

(** [toggle(id)]. *)
Definition toggle (x : string) (sel : selection) : selection :=
  if bool_decide (x ∈ sel) then set_delete x sel else set_add x sel.

(** [selectAll()], over the ids of the media items on the page. *)
Definition selectAll (page : list string) (sel : selection) : selection :=
  foldl (λ s x, set_add x s) sel page.

Definition deselectAll (sel : selection) : selection := [].

(** [getSelected()]: [Array.from(this.selected)]. *)
Definition getSelected (sel : selection) : list string := sel.

Inductive effect :=
| Confirm (prompt : string)
| ApiDeleteMedia (id : string) (permanent : bool)
| ApiMoveMedia (id : string) (folderId : string)
| ToastSuccess (message : string)
| ToastWarning (message : string)
| ToastError (message : string)
| Reload.

#[global] Instance effect_eq_dec : EqDecision effect.
Proof. solve_decision. Defined.

Definition count_text (n : nat) : string := pretty n +:+ " item(s)".

(** The [for (const id of ids) await RustMedia.API.deleteMedia(id,
    permanent)] loop; [answers k] is how the [fetch] of the [k]-th request
    of the run settles.  The result is the message of the rejection that
    ended the loop, if one did. *)
Fixpoint delete_each (ids : list string) (permanent : bool) (k : nat)
    (answers : nat → fetched) : list effect * option string :=
  match ids with
  | [] => ([], None)
  | id :: rest =>
      match request (answers k) with
      | Fulfilled _ =>
          let r := delete_each rest permanent (S k) answers in
          (ApiDeleteMedia id permanent :: r.1, r.2)
      | Failed message => ([ApiDeleteMedia id permanent], Some message)
      end
  end.

(** [RustMedia.Actions.delete(ids, permanent = false)]. *)
Definition delete (ids : list string) (permanent : option bool) (confirmed : bool)
    (answers : nat → fetched) : list effect :=
  Confirm ("Delete " +:+ count_text (length ids) +:+ "?") ::
  if confirmed then
    let r := delete_each ids (default false permanent) 0 answers in
    r.1 ++ match r.2 with
           | None => [ToastSuccess ("Deleted " +:+ count_text (length ids)); Reload]
           | Some message => [ToastError message]
           end
  else [].

(** [RustMedia.Actions.bulkDelete()]. *)
Definition bulkDelete (sel : selection) (confirmed : bool) (answers : nat → fetched)
    : list effect :=
  let ids := getSelected sel in
  if bool_decide (length ids = 0%nat) then [ToastWarning "No items selected"]
  else delete ids None confirmed answers.

(** The same loop of [RustMedia.Actions.move(ids, folderId)], which asks
    for no confirmation. *)
Fixpoint move_each (ids : list string) (folderId : string) (k : nat)
    (answers : nat → fetched) : list effect * option string :=
  match ids with
  | [] => ([], None)
  | id :: rest =>
      match request (answers k) with
      | Fulfilled _ =>
          let r := move_each rest folderId (S k) answers in
          (ApiMoveMedia id folderId :: r.1, r.2)
      | Failed message => ([ApiMoveMedia id folderId], Some message)
      end
  end.

Definition move (ids : list string) (folderId : string) (answers : nat → fetched)
    : list effect :=
  let r := move_each ids folderId 0 answers in
  r.1 ++ match r.2 with
         | None => [ToastSuccess ("Moved " +:+ count_text (length ids)); Reload]
         | Some message => [ToastError message]
         end.

(** Answers: the first request succeeds, the second is refused. *)
Definition second_refused (k : nat) : fetched :=
  match k with
  | 1%nat => Answered (Response false "Not Found" (JsonValue (Some (js_string "Media not found")) None))
  | _ => Answered (Response true "OK" (JsonValue None None))
  end.

End AdminActions.

(** * The view [media_with_thumbnails] *)

Module Views.
Import FolderStats.

(** [media_thumbnails]: the columns the view reads. *)
Record media_thumbnail := MediaThumbnail {
  thumb_id : uuid;
  media_id : uuid;
  size_name : string;
  url : string;
  width : Z;
  height : Z
}.

(** [json_build_object('size_name', ..., 'url', ..., 'width', ...,
    'height', ...)]. *)
Record thumb_json := ThumbJson {
  j_size_name : string;
  j_url : string;
  j_width : Z;
  j_height : Z
}.

Definition json_build_object (t : media_thumbnail) : thumb_json :=
  ThumbJson (size_name t) (url t) (width t) (height t).

(** The rows of [media_thumbnails] that join with the item [m]. *)
Definition thumbs_of (m : media_item) (thumbs : list media_thumbnail)
    : list media_thumbnail :=
  filter (λ t, media_id t = id m) thumbs.

(** The joined rows of one item: one per matching thumbnail, and for an
    item without thumbnail one row with [t] all [NULL]. *)
Definition block (m : media_item) (thumbs : list media_thumbnail)
    : list (media_item * option media_thumbnail) :=
  match thumbs_of m thumbs with
  | [] => [(m, None)]
  | ts => map (λ t, (m, Some t)) ts
  end.

(** [media_items m LEFT JOIN media_thumbnails t ON m.id = t.media_id]. *)
Definition left_join (items : list media_item) (thumbs : list media_thumbnail)
    : list (media_item * option media_thumbnail) :=
  flat_map (λ m, block m thumbs) items.

(** [json_agg(...) FILTER (WHERE t.id IS NOT NULL)]: [NULL] when no row
    passes the filter. *)
Definition json_agg_filter (g : list (media_item * option media_thumbnail))
    : option (list thumb_json) :=
  match omap (λ p, json_build_object <$> p.2) g with
  | [] => None
  | js => Some js
  end.

(** [COALESCE(x, '[]')]. *)
Definition coalesce_array (x : option (list thumb_json)) : list thumb_json :=
  default [] x.

(** [GROUP BY m.id]: one output row per distinct [m.id], aggregating the
    rows that carry it; [m.*] is read off the group. *)
Definition group_by_id (rows : list (media_item * option media_thumbnail))
    : list (media_item * list thumb_json) :=
  omap (λ k, match filter (λ p, id p.1 = k) rows with
             | [] => None
             | (m, t) :: rest =>
                 Some (m, coalesce_array (json_agg_filter ((m, t) :: rest)))
             end)
       (remove_dups (map (λ p, id p.1) rows)).

(** The view: join, [WHERE m.deleted_at IS NULL], group and aggregate. *)
Definition media_with_thumbnails (items : list media_item)
    (thumbs : list media_thumbnail) : list (media_item * list thumb_json) :=
  group_by_id (filter (λ p, deleted_at p.1 = None) (left_join items thumbs)).

(** Three items, the second soft-deleted, the third without thumbnail. *)
Definition sample_items : list media_item :=
  [ MediaItem 1 10 None "h1" None;
    MediaItem 2 20 None "h2" (Some 5);
    MediaItem 3 30 None "h3" None ].

Definition sample_thumbs : list media_thumbnail :=
  [ MediaThumbnail 11 1 "small" "/t/1s" 150 150;
    MediaThumbnail 12 2 "small" "/t/2s" 150 150;
    MediaThumbnail 13 1 "large" "/t/1l" 1024 768 ].

End Views.

(** * The view [folder_hierarchy] *)

Module FolderHierarchy.
Import FolderStats.

(** A row of [folder_tree]: of the columns copied from [media_folders]
    the key and [parent_id] are kept, then [level] and [ancestors]. *)
Record tree_row := TreeRow {
  t_id : uuid;
  t_parent_id : option uuid;
  t_level : Z;
  t_ancestors : list uuid
}.

#[global] Instance tree_row_eq_dec : EqDecision tree_row.
Proof. solve_decision. Defined.

(** The non-recursive term: [... 1 as level, ARRAY[id] as ancestors
    FROM media_folders WHERE parent_id IS NULL]. *)
Definition anchor (fs : gmap positive media_folder) : list tree_row :=
  omap (λ kv : positive * media_folder,
          match parent_id kv.2 with
          | None => Some (TreeRow kv.1 None 1 [kv.1])
          | Some _ => None
          end)
       (map_to_list fs).

(** The recursive term, [folder_tree] standing for the working table:
    [... ft.level + 1, ft.ancestors || f.id FROM media_folders f
    JOIN folder_tree ft ON f.parent_id = ft.id]. *)
Definition recursive_term (fs : gmap positive media_folder)
    (ft : list tree_row) : list tree_row :=
  flat_map (λ kv : positive * media_folder,
              omap (λ r, if decide (parent_id kv.2 = Some (t_id r))
                         then Some (TreeRow kv.1 (parent_id kv.2) (t_level r + 1)
                                            (t_ancestors r ++ [kv.1]))
                         else None) ft)
           (map_to_list fs).

(** Evaluation of [WITH RECURSIVE ... UNION ALL]: the working table is
    added to the result and replaced by the recursive term evaluated on
    it, until it is empty.  [None]: the fuel ran out first. *)
Fixpoint folder_tree (fuel : nat) (fs : gmap positive media_folder)
    (working : list tree_row) : option (list tree_row) :=
  match working with
  | [] => Some []
  | _ =>
      match fuel with
      | O => None
      | S n => (λ rest, working ++ rest) <$> folder_tree n fs (recursive_term fs working)
      end
  end.

(** [SELECT * FROM folder_tree], with one round per folder row. *)
Definition folder_hierarchy (fs : gmap positive media_folder)
    : option (list tree_row) :=
  folder_tree (base.size fs) fs (anchor fs).

(** [l] is a path of folders, each the child of the one before it and
    the first the child of [prev]. *)
Fixpoint chain_from (fs : gmap positive media_folder) (prev : option uuid)
    (l : list uuid) : Prop :=
  match l with
  | [] => True
  | x :: rest =>
      (∃ f, fs !! x = Some f ∧ parent_id f = prev) ∧ chain_from fs (Some x) rest
  end.

(** The row of the folder [t_id r] reached from a root along
    [t_ancestors r]. *)
Definition root_chain (fs : gmap positive media_folder) (r : tree_row) : Prop :=
  chain_from fs None (t_ancestors r) ∧
  last (t_ancestors r) = Some (t_id r) ∧
  t_level r = Z.of_nat (length (t_ancestors r)) ∧
  ∃ f, fs !! t_id r = Some f ∧ t_parent_id r = parent_id f.

(** The rows whose path has [k + 1] folders. *)
Definition at_level (fs : gmap positive media_folder) (k : nat)
    (r : tree_row) : Prop :=
  root_chain fs r ∧ length (t_ancestors r) = S k.

(** A root with one child, and two folders that are each other's
    parent. *)
Definition looped_folders : gmap positive media_folder :=
  <[1%positive := MediaFolder None 0 0]>
  (<[2%positive := MediaFolder (Some 1%positive) 0 0]>
  (<[3%positive := MediaFolder (Some 4%positive) 0 0]>
  (<[4%positive := MediaFolder (Some 3%positive) 0 0]> ∅))).

End FolderHierarchy.

(** * Proofs *)

Module FolderStatsFacts.
Import FolderStats.

Lemma bump_0 r : bump 0 0 r = r.
Proof. destruct r; unfold bump; simpl; f_equal; lia. Qed.

Lemma bump_eq a b c d r : a = c → b = d → bump a b r = bump c d r.
Proof. by intros -> ->. Qed.

Lemma fmap_bump_0 (o : option media_folder) : bump 0 0 <$> o = o.
Proof. destruct o; simpl; [by rewrite bump_0 | done]. Qed.

Lemma fmap_bump_bump a b c d (o : option media_folder) :
  bump a b <$> (bump c d <$> o) = bump (c + a) (d + b) <$> o.
Proof.
  destruct o as [r|]; simpl; [|done].
  f_equal. destruct r; unfold bump; simpl; f_equal; lia.
Qed.

(** Effect of one trigger [UPDATE media_folders ...] on every folder row. *)
Lemma adjust_folder_lookup fid dc ds fs fs' F :
  adjust_folder fid dc ds fs = Some fs' →
  fs' !! F = bump (if bool_decide (fid = Some F) then dc else 0)
                  (if bool_decide (fid = Some F) then ds else 0) <$> fs !! F.
Proof.
  unfold adjust_folder. destruct fid as [f|].
  - destruct (fs !! f) as [r|] eqn:Hf.
    + destruct (int4_ok _ && int8_ok _); [|done]. intros [= <-].
      case_bool_decide as HF.
      * injection HF as ->. by rewrite lookup_insert_eq, Hf.
      * rewrite lookup_insert_ne by congruence. by rewrite fmap_bump_0.
    + intros [= <-]. case_bool_decide as HF.
      * injection HF as ->. by rewrite Hf.
      * by rewrite fmap_bump_0.
  - intros [= <-]. rewrite bool_decide_eq_false_2 by done. by rewrite fmap_bump_0.
Qed.

Lemma trigger_insert_lookup new fs fs' F :
  update_folder_stats INSERT None (Some new) fs = Some fs' →
  fs' !! F = bump (cnt1 F new) (sz1 F new) <$> fs !! F.
Proof. simpl. intros H. by rewrite (adjust_folder_lookup _ _ _ _ _ F H). Qed.

Lemma trigger_delete_lookup old fs fs' F :
  update_folder_stats DELETE (Some old) None fs = Some fs' →
  fs' !! F = bump (- cnt1 F old) (- sz1 F old) <$> fs !! F.
Proof.
  simpl. intros H. rewrite (adjust_folder_lookup _ _ _ _ _ F H).
  unfold cnt1, sz1, in_folder. by case_bool_decide.
Qed.

Lemma trigger_update_lookup old new fs fs' F :
  size new = size old →
  update_folder_stats UPDATE (Some old) (Some new) fs = Some fs' →
  fs' !! F = bump (cnt1 F new - cnt1 F old) (sz1 F new - sz1 F old) <$> fs !! F.
Proof.
  intros Hsz. simpl. unfold cnt1, sz1, in_folder. rewrite Hsz.
  case_decide as Hsame.
  - intros [= <-]. rewrite Hsame, !Z.sub_diag. by rewrite fmap_bump_0.
  - intros H. apply bind_Some in H as (fs1 & H1 & H2).
    assert (fs1 !! F = bump (- (if bool_decide (folder_id old = Some F) then 1 else 0))
                            (- (if bool_decide (folder_id old = Some F) then size old else 0))
                       <$> fs !! F) as E1.
    { destruct (folder_id old) as [a|] eqn:Ho.
      - rewrite (adjust_folder_lookup _ _ _ _ _ F H1). by case_bool_decide.
      - injection H1 as <-. rewrite bool_decide_eq_false_2 by done.
        by rewrite fmap_bump_0. }
    assert (fs' !! F = bump (if bool_decide (folder_id new = Some F) then 1 else 0)
                            (if bool_decide (folder_id new = Some F) then size old else 0)
                       <$> fs1 !! F) as E2.
    { destruct (folder_id new) as [b|] eqn:Hn.
      - by rewrite (adjust_folder_lookup _ _ _ _ _ F H2).
      - injection H2 as <-. rewrite bool_decide_eq_false_2 by done.
        by rewrite fmap_bump_0. }
    rewrite E2, E1, fmap_bump_bump.
    destruct (fs !! F); simpl; [|done]. f_equal. apply bump_eq; lia.
Qed.

(** Shape of the table after [DELETE] and [UPDATE]. *)
Lemma delete_rows_rows i rows fs p :
  delete_rows i rows fs = Some p →
  p.1 = filter (λ r, id r ≠ i) rows.
Proof.
  revert fs p. induction rows as [|r rest IH]; intros fs p; simpl.
  - by intros [= <-].
  - case_decide as Hi.
    + intros H. apply bind_Some in H as (fs1 & _ & H).
      rewrite filter_cons_False by (intros ?; done). eauto.
    + intros H. apply bind_Some in H as (q & Hq & [= <-]). simpl.
      rewrite filter_cons_True by done. f_equal. eauto.
Qed.

Lemma update_rows_rows i set rows fs p :
  update_rows i set rows fs = Some p →
  p.1 = map (λ r, if decide (id r = i) then set r else r) rows.
Proof.
  revert fs p. induction rows as [|r rest IH]; intros fs p; simpl.
  - by intros [= <-].
  - case_decide as Hi.
    + intros H. apply bind_Some in H as (fs1 & _ & H).
      apply bind_Some in H as (q & Hq & [= <-]). simpl. f_equal. eauto.
    + intros H. apply bind_Some in H as (q & Hq & [= <-]). simpl. f_equal. eauto.
Qed.

(** The counters move by exactly the change of the aggregates. *)
Lemma delete_rows_lookup i rows fs p F :
  delete_rows i rows fs = Some p →
  p.2 !! F = bump (count_where (in_folder F) p.1 - count_where (in_folder F) rows)
                  (size_where (in_folder F) p.1 - size_where (in_folder F) rows)
             <$> fs !! F.
Proof.
  revert fs p. induction rows as [|r rest IH]; intros fs p; simpl.
  - intros [= <-]. simpl. by rewrite fmap_bump_0.
  - case_decide as Hi.
    + intros H. apply bind_Some in H as (fs1 & H1 & H).
      rewrite (IH _ _ H), (trigger_delete_lookup _ _ _ F H1), fmap_bump_bump.
      unfold cnt1, sz1. destruct (fs !! F); simpl; [|done].
      f_equal. apply bump_eq; lia.
    + intros H. apply bind_Some in H as (q & Hq & [= <-]). simpl.
      rewrite (IH _ _ Hq). destruct (fs !! F); simpl; [|done].
      f_equal. apply bump_eq; lia.
Qed.

Lemma update_rows_lookup i set rows fs p F :
  (∀ r, size (set r) = size r) →
  update_rows i set rows fs = Some p →
  p.2 !! F = bump (count_where (in_folder F) p.1 - count_where (in_folder F) rows)
                  (size_where (in_folder F) p.1 - size_where (in_folder F) rows)
             <$> fs !! F.
Proof.
  intros Hset. revert fs p. induction rows as [|r rest IH]; intros fs p; simpl.
  - intros [= <-]. simpl. by rewrite fmap_bump_0.
  - case_decide as Hi.
    + intros H. apply bind_Some in H as (fs1 & H1 & H).
      apply bind_Some in H as (q & Hq & [= <-]). simpl.
      rewrite (IH _ _ Hq), (trigger_update_lookup _ _ _ _ F (Hset r) H1), fmap_bump_bump.
      unfold cnt1, sz1. destruct (fs !! F); simpl; [|done].
      f_equal. apply bump_eq; lia.
    + intros H. apply bind_Some in H as (q & Hq & [= <-]). simpl.
      rewrite (IH _ _ Hq). destruct (fs !! F); simpl; [|done].
      f_equal. apply bump_eq; lia.
Qed.

Lemma count_where_app p l1 l2 :
  count_where p (l1 ++ l2) = count_where p l1 + count_where p l2.
Proof. induction l1 as [|r l1 IH]; simpl; [done | lia]. Qed.

Lemma size_where_app p l1 l2 :
  size_where p (l1 ++ l2) = size_where p l1 + size_where p l2.
Proof. induction l1 as [|r l1 IH]; simpl; [done | lia]. Qed.

Lemma where_none p rows :
  (∀ r, r ∈ rows → p r = false) →
  count_where p rows = 0 ∧ size_where p rows = 0.
Proof.
  induction rows as [|r rest IH]; simpl; [done|]. intros H.
  rewrite (H r) by apply list_elem_of_here.
  destruct IH as [-> ->]; [|done]. intros x Hx. apply H. by apply list_elem_of_further.
Qed.

Lemma fk_folder_mono f (fs fs' : gmap positive media_folder) :
  (∀ F, is_Some (fs !! F) → is_Some (fs' !! F)) →
  fk_folder f fs = true → fk_folder f fs' = true.
Proof.
  destruct f as [g|]; simpl; [|done]. intros H Hg.
  apply bool_decide_eq_true in Hg. apply bool_decide_eq_true. auto.
Qed.

Lemma bumped_is_Some a b (fs fs' : gmap positive media_folder) F :
  fs' !! F = bump a b <$> fs !! F → is_Some (fs !! F) → is_Some (fs' !! F).
Proof. intros -> H. by apply fmap_is_Some. Qed.

Lemma bumped_match a b (fs fs' : gmap positive media_folder) F r' c s :
  fs' !! F = bump a b <$> fs !! F →
  (∀ r, fs !! F = Some r → item_count r = c ∧ total_size r = s) →
  fs' !! F = Some r' →
  item_count r' = c + a ∧ total_size r' = s + b.
Proof.
  intros E H Hr'. rewrite E in Hr'.
  destruct (fs !! F) as [r|]; simpl in Hr'; [|done].
  injection Hr' as <-. destruct (H r eq_refl) as [<- <-]. done.
Qed.

(** Every statement keeps the counters equal to the aggregates. *)
Lemma exec_preserves s d d' :
  stats_match d → fk_ok d → exec s d = Some d' → stats_match d' ∧ fk_ok d'.
Proof.
  intros Hm Hfk. destruct d as [rows fs]. destruct s as [f parent|r|i|i f|i dl]; simpl.
  - destruct (bool_decide _ && fk_folder _ _) eqn:Hc; [|done]. intros [= <-].
    apply andb_prop in Hc as [Hfree _]. apply bool_decide_eq_true in Hfree.
    split.
    + intros F r. simpl. destruct (decide (f = F)) as [->|Hne].
      * rewrite lookup_insert_eq. intros [= <-]. simpl.
        destruct (where_none (in_folder F) rows) as [-> ->]; [|done].
        intros x Hx. specialize (Hfk x Hx). simpl in Hfk.
        unfold in_folder. apply bool_decide_eq_false. intros Hx'.
        rewrite Hx' in Hfk. simpl in Hfk. apply bool_decide_eq_true in Hfk.
        rewrite Hfree in Hfk. by destruct Hfk.
      * rewrite lookup_insert_ne by done. apply Hm.
    + intros x Hx. simpl in *. eapply fk_folder_mono; [|by apply Hfk].
      intros F HF. destruct (decide (f = F)) as [->|Hne].
      * by rewrite lookup_insert_eq.
      * by rewrite lookup_insert_ne.
  - destruct (_ && int8_ok _) eqn:Hc; [|done].
    intros H. apply bind_Some in H as (fs' & Ht & [= <-]).
    apply andb_prop in Hc as [Hc _]. apply andb_prop in Hc as [_ Hr].
    split.
    + intros F r' Hr'. simpl in *.
      rewrite count_where_app, size_where_app. simpl. rewrite !Z.add_0_r.
      eapply bumped_match; [exact (trigger_insert_lookup _ _ _ F Ht)| |exact Hr'].
      intros r0 Hr0. apply (Hm F r0 Hr0).
    + intros x Hx. simpl in *.
      assert (fk_folder (folder_id x) fs = true) as Hx'.
      { apply elem_of_app in Hx as [Hx|Hx]; [by apply Hfk|].
        apply list_elem_of_singleton in Hx as ->. done. }
      eapply fk_folder_mono; [|exact Hx']. intros F.
      apply (bumped_is_Some _ _ _ _ _ (trigger_insert_lookup _ _ _ F Ht)).
  - intros H. apply bind_Some in H as (p & Hp & [= <-]). split.
    + intros F r' Hr'. simpl in *.
      destruct (bumped_match _ _ _ _ _ _ _ _ (delete_rows_lookup _ _ _ _ F Hp) (Hm F) Hr').
      simpl in *. lia.
    + intros x Hx. simpl in *. rewrite (delete_rows_rows _ _ _ _ Hp) in Hx.
      apply list_elem_of_filter in Hx as [_ Hx].
      eapply fk_folder_mono; [|by apply Hfk]. intros F.
      apply (bumped_is_Some _ _ _ _ _ (delete_rows_lookup _ _ _ _ F Hp)).
  - destruct (fk_folder f fs || pk_free i rows) eqn:Hf; [|done].
    intros H. apply bind_Some in H as (p & Hp & [= <-]). split.
    + intros F r' Hr'. simpl in *.
      destruct (bumped_match _ _ _ _ _ _ _ _
                  (update_rows_lookup i (set_folder_id f) _ _ _ F (λ _, eq_refl) Hp) (Hm F) Hr').
      simpl in *. lia.
    + intros x Hx. simpl in *. rewrite (update_rows_rows _ _ _ _ _ Hp) in Hx.
      apply list_elem_of_fmap in Hx as (y & -> & Hy).
      assert (fk_folder (folder_id (if decide (id y = i) then set_folder_id f y else y)) fs
              = true) as Hy'.
      { case_decide as Hi; [|by apply Hfk].
        apply orb_prop in Hf as [Hf|Hf]; [done|]. exfalso.
        unfold pk_free in Hf. rewrite forallb_forall in Hf.
        apply list_elem_of_In, Hf, negb_true_iff, bool_decide_eq_false in Hy. done. }
      eapply fk_folder_mono; [|exact Hy']. intros F.
      apply (bumped_is_Some _ _ _ _ _ (update_rows_lookup i (set_folder_id f) _ _ _ F (λ _, eq_refl) Hp)).
  - intros H. apply bind_Some in H as (p & Hp & [= <-]). split.
    + intros F r' Hr'. simpl in *.
      destruct (bumped_match _ _ _ _ _ _ _ _
                  (update_rows_lookup i (set_deleted_at dl) _ _ _ F (λ _, eq_refl) Hp) (Hm F) Hr').
      simpl in *. lia.
    + intros x Hx. simpl in *. rewrite (update_rows_rows _ _ _ _ _ Hp) in Hx.
      apply list_elem_of_fmap in Hx as (y & -> & Hy).
      assert (fk_folder (folder_id (if decide (id y = i) then set_deleted_at dl y else y)) fs
              = true) as Hy'.
      { case_decide; simpl; by apply Hfk. }
      eapply fk_folder_mono; [|exact Hy']. intros F.
      apply (bumped_is_Some _ _ _ _ _ (update_rows_lookup i (set_deleted_at dl) _ _ _ F (λ _, eq_refl) Hp)).
Qed.

Lemma step_preserves s d :
  stats_match d ∧ fk_ok d → stats_match (step d s) ∧ fk_ok (step d s).
Proof.
  intros [Hm Hfk]. unfold step. destruct (exec s d) as [d'|] eqn:He; simpl; [|done].
  by eapply exec_preserves.
Qed.

Lemma run_preserves ss d :
  stats_match d ∧ fk_ok d → stats_match (run ss d) ∧ fk_ok (run ss d).
Proof.
  revert d. induction ss as [|s ss IH]; intros d H; simpl; [done|].
  apply IH. by apply step_preserves.
Qed.

Lemma empty_db_ok : stats_match empty_db ∧ fk_ok empty_db.
Proof. split; intros ? ?; simpl; [by rewrite lookup_empty | set_solver]. Qed.

(** With [id] a key, an [UPDATE ... WHERE id = i] touches one row and
    fires the trigger once. *)
Lemma update_rows_no_match i set rows fs :
  (∀ x, x ∈ rows → id x ≠ i) →
  update_rows i set rows fs
  = Some (map (λ x, if decide (id x = i) then set x else x) rows, fs).
Proof.
  induction rows as [|x rest IH]; simpl; [done|]. intros H.
  destruct (decide (id x = i)) as [Hx|Hx].
  { by destruct (H x (list_elem_of_here _ _)). }
  rewrite IH by (intros y Hy; apply H; by apply list_elem_of_further). done.
Qed.

Lemma update_rows_unique i set rows fs r :
  NoDup (map id rows) → r ∈ rows → id r = i →
  update_rows i set rows fs
  = fs' ← update_folder_stats UPDATE (Some r) (Some (set r)) fs;
    Some (map (λ x, if decide (id x = i) then set x else x) rows, fs').
Proof.
  intros Hnd Hr Hi. revert fs. induction rows as [|x rest IH]; intros fs.
  - by apply elem_of_nil in Hr.
  - simpl in Hnd. apply NoDup_cons in Hnd as [Hx Hnd].
    cbn [update_rows map]. destruct (decide (id x = i)) as [Hxi|Hxi].
    + assert (x = r) as ->.
      { apply elem_of_cons in Hr as [->|Hr]; [done|]. exfalso. apply Hx.
        rewrite Hxi, <- Hi. apply list_elem_of_fmap. by exists r. }
      destruct (update_folder_stats UPDATE _ _ fs) as [fs1|]; simpl; [|done].
      rewrite update_rows_no_match; [done|].
      intros y Hy Hyi. apply Hx. rewrite Hxi, <- Hyi.
      apply list_elem_of_fmap. by exists y.
    + apply elem_of_cons in Hr as [->|Hr]; [done|].
      rewrite (IH Hnd Hr).
      destruct (update_folder_stats UPDATE _ _ fs) as [fs1|]; done.
Qed.

(** C4: moving the item [r] of size [size r] from folder [A] to a different
    folder [B] (an [UPDATE] of its [folder_id]) succeeds whenever the new
    counters fit their column types, and in that one statement the row
    gets its new [folder_id], [A] loses one item and [size r] bytes, [B]
    gains one item and [size r] bytes, and the row of every other folder,
    ancestors of [A] and [B] included, is left as it was. *)
Theorem move_item_adjusts_source_and_target d i A B r ra rb :
  NoDup (map id (media_items d)) →
  r ∈ media_items d → id r = i → folder_id r = Some A → A ≠ B →
  media_folders d !! A = Some ra → media_folders d !! B = Some rb →
  int4_ok (item_count ra - 1) = true → int8_ok (total_size ra - size r) = true →
  int4_ok (item_count rb + 1) = true → int8_ok (total_size rb + size r) = true →
  ∃ d', exec (MoveItem i (Some B)) d = Some d' ∧
    media_items d'
      = map (λ x, if decide (id x = i) then set_folder_id (Some B) x else x) (media_items d) ∧
    media_folders d' !! A
      = Some (MediaFolder (parent_id ra) (item_count ra - 1) (total_size ra - size r)) ∧
    media_folders d' !! B
      = Some (MediaFolder (parent_id rb) (item_count rb + 1) (total_size rb + size r)) ∧
    ∀ F, F ≠ A → F ≠ B → media_folders d' !! F = media_folders d !! F.
Proof.
  intros Hnd Hr Hi HA Hne Hra Hrb Ha4 Ha8 Hb4 Hb8.
  destruct d as [rows fs]. simpl in *.
  rewrite bool_decide_eq_true_2 by (by rewrite Hrb). cbn [orb].
  rewrite (update_rows_unique i _ rows fs r Hnd Hr Hi).
  cbn [update_folder_stats set_folder_id folder_id size]. rewrite HA.
  rewrite decide_False by congruence.
  assert (adjust_folder (Some A) (-1) (- size r) fs
          = Some (<[A := bump (-1) (- size r) ra]> fs)) as ->.
  { unfold adjust_folder. rewrite Hra.
    replace (item_count ra + -1) with (item_count ra - 1) by lia.
    replace (total_size ra + - size r) with (total_size ra - size r) by lia.
    by rewrite Ha4, Ha8. }
  cbn [mbind option_bind].
  assert (adjust_folder (Some B) 1 (size r) (<[A := bump (-1) (- size r) ra]> fs)
          = Some (<[B := bump 1 (size r) rb]> (<[A := bump (-1) (- size r) ra]> fs))) as ->.
  { unfold adjust_folder. rewrite lookup_insert_ne by done.
    by rewrite Hrb, Hb4, Hb8. }
  cbn [andb mbind option_bind]. eexists. split; [reflexivity|]. simpl.
  split; [done|]. split; [|split].
  - rewrite lookup_insert_ne by done. rewrite lookup_insert_eq.
    unfold bump. do 2 f_equal; lia.
  - by rewrite lookup_insert_eq.
  - intros F HFA HFB. by rewrite !lookup_insert_ne.
Qed.

Lemma move_item_adjusts_source_and_target_witness :
  ∃ d', exec (MoveItem 7 (Some 3%positive)) two_folder_db = Some d' ∧
    media_items d'
      = map (λ x, if decide (id x = 7%positive) then set_folder_id (Some 3%positive) x else x)
            (media_items two_folder_db) ∧
    media_folders d' !! 2%positive = Some (MediaFolder (Some 1%positive) 0 0) ∧
    media_folders d' !! 3%positive = Some (MediaFolder (Some 2%positive) 2 2000500) ∧
    ∀ F, F ≠ 2%positive → F ≠ 3%positive →
         media_folders d' !! F = media_folders two_folder_db !! F.
Proof.
  apply (move_item_adjusts_source_and_target two_folder_db 7 2 3
           (MediaItem 7 2000000 (Some 2%positive) "h7" None)
           (MediaFolder (Some 1%positive) 1 2000000)
           (MediaFolder (Some 2%positive) 1 500)).
  - compute_done.
  - compute_done.
  - reflexivity.
  - reflexivity.
  - lia.
  - vm_compute; reflexivity.
  - vm_compute; reflexivity.
  - reflexivity.
  - reflexivity.
  - reflexivity.
  - reflexivity.
Defined.

(** C1, as amended: after any sequence of folder creations and media-item
    insertions, row deletions, folder moves and soft deletions or
    restorations, applied to the empty database, every folder's
    [item_count] is the number of [media_items] rows whose [folder_id] is
    that folder, soft-deleted rows included, and its [total_size] is the
    sum of their sizes. *)
Theorem folder_stats_match_all_rows ss F r :
  media_folders (run ss empty_db) !! F = Some r →
  item_count r = count_where (in_folder F) (media_items (run ss empty_db)) ∧
  total_size r = size_where (in_folder F) (media_items (run ss empty_db)).
Proof. apply (run_preserves ss empty_db empty_db_ok). Qed.

Lemma folder_stats_match_all_rows_witness :
  media_folders (run soft_delete_scenario empty_db) !! 1%positive
    = Some (MediaFolder None 1 10) ∧
  item_count (MediaFolder None 1 10)
    = count_where (in_folder 1) (media_items (run soft_delete_scenario empty_db)) ∧
  total_size (MediaFolder None 1 10)
    = size_where (in_folder 1) (media_items (run soft_delete_scenario empty_db)).
Proof.
  assert (media_folders (run soft_delete_scenario empty_db) !! 1%positive
          = Some (MediaFolder None 1 10)) as H by (vm_compute; reflexivity).
  split; [exact H|].
  exact (folder_stats_match_all_rows soft_delete_scenario 1%positive _ H).
Defined.

(** C1, as stated, fails: once the only item of folder 1 is soft-deleted
    ([deleted_at] set by an [UPDATE] that leaves [folder_id] alone, so the
    trigger does nothing), the folder still counts it, while no
    non-deleted item is left in the folder. *)
Lemma live_count_differs_after_soft_delete :
  ∃ r, media_folders (run soft_delete_scenario empty_db) !! 1%positive = Some r ∧
       item_count r = 1 ∧ total_size r = 10 ∧
       count_where (live_in_folder 1) (media_items (run soft_delete_scenario empty_db)) = 0 ∧
       size_where (live_in_folder 1) (media_items (run soft_delete_scenario empty_db)) = 0 ∧
       item_count r ≠
         count_where (live_in_folder 1) (media_items (run soft_delete_scenario empty_db)) ∧
       total_size r ≠
         size_where (live_in_folder 1) (media_items (run soft_delete_scenario empty_db)).
Proof. exists (MediaFolder None 1 10). vm_compute. repeat split; congruence. Qed.

End FolderStatsFacts.

Module TagUsageFacts.
Import TagUsage.

Lemma tag_bump_0 r : bump 0 r = r.
Proof. destruct r; unfold bump; simpl; f_equal; lia. Qed.

Lemma fmap_tag_bump_0 (o : option media_tag) : bump 0 <$> o = o.
Proof. destruct o; simpl; [by rewrite tag_bump_0 | done]. Qed.

Lemma fmap_tag_bump_bump a b (o : option media_tag) :
  bump a <$> (bump b <$> o) = bump (b + a) <$> o.
Proof.
  destruct o as [r|]; simpl; [|done].
  f_equal. destruct r; unfold bump; simpl; f_equal; lia.
Qed.

Lemma adjust_tag_lookup t dc ts ts' T :
  adjust_tag t dc ts = Some ts' →
  ts' !! T = bump (if bool_decide (t = T) then dc else 0) <$> ts !! T.
Proof.
  unfold adjust_tag. destruct (ts !! t) as [r|] eqn:Ht.
  - destruct (int4_ok _); [|done]. intros [= <-]. case_bool_decide as HT.
    + subst T. by rewrite lookup_insert_eq, Ht.
    + rewrite lookup_insert_ne by done. by rewrite fmap_tag_bump_0.
  - intros [= <-]. case_bool_decide as HT.
    + subst T. by rewrite Ht.
    + by rewrite fmap_tag_bump_0.
Qed.

Lemma delete_assoc_rows p rows ts q :
  delete_assoc p rows ts = Some q → q.1 = filter (λ r, p r = false) rows.
Proof.
  revert ts q. induction rows as [|r rest IH]; intros ts q; simpl.
  - by intros [= <-].
  - destruct (p r) eqn:Hp.
    + intros H. apply bind_Some in H as (ts1 & _ & H).
      rewrite filter_cons_False by (rewrite Hp; done). eauto.
    + intros H. apply bind_Some in H as (q' & Hq & [= <-]). simpl.
      rewrite filter_cons_True by done. f_equal. eauto.
Qed.

Lemma delete_assoc_lookup p rows ts q T :
  delete_assoc p rows ts = Some q →
  q.2 !! T = bump (count_tag T q.1 - count_tag T rows) <$> ts !! T.
Proof.
  revert ts q. induction rows as [|r rest IH]; intros ts q; simpl.
  - intros [= <-]. simpl. by rewrite fmap_tag_bump_0.
  - destruct (p r) eqn:Hp.
    + intros H. apply bind_Some in H as (ts1 & H1 & H). simpl in H1.
      rewrite (IH _ _ H), (adjust_tag_lookup _ _ _ _ T H1), fmap_tag_bump_bump.
      destruct (ts !! T); simpl; [|done]. f_equal.
      case_bool_decide; f_equal; lia.
    + intros H. apply bind_Some in H as (q' & Hq & [= <-]). simpl.
      rewrite (IH _ _ Hq). destruct (ts !! T); simpl; [|done].
      do 2 f_equal. lia.
Qed.

Lemma count_tag_app t l1 l2 : count_tag t (l1 ++ l2) = count_tag t l1 + count_tag t l2.
Proof. induction l1 as [|r l1 IH]; simpl; [done | lia]. Qed.

Lemma count_tag_none t rows : (∀ r, r ∈ rows → r.2 ≠ t) → count_tag t rows = 0.
Proof.
  induction rows as [|r rest IH]; simpl; [done|]. intros H.
  rewrite bool_decide_eq_false_2 by apply H, list_elem_of_here.
  rewrite IH; [done|]. intros x Hx. apply H. by apply list_elem_of_further.
Qed.

Lemma tag_exec_preserves s d d' :
  usage_match d → fk_ok d → exec s d = Some d' → usage_match d' ∧ fk_ok d'.
Proof.
  intros Hm Hfk. destruct d as [rows ts]. destruct s as [t n sl|m t|p]; simpl.
  - destruct (bool_decide _ && bool_decide _) eqn:Hc; [|done]. intros [= <-].
    apply andb_prop in Hc as [Hfree _]. apply bool_decide_eq_true in Hfree.
    split.
    + intros T r. simpl. destruct (decide (t = T)) as [->|Hne].
      * rewrite lookup_insert_eq. intros [= <-]. simpl.
        rewrite count_tag_none; [done|]. intros x Hx HxT.
        specialize (Hfk x Hx). simpl in Hfk. rewrite HxT, Hfree in Hfk. by destruct Hfk.
      * rewrite lookup_insert_ne by done. apply Hm.
    + intros x Hx. simpl in *. destruct (decide (t = x.2)) as [->|Hne].
      * by rewrite lookup_insert_eq.
      * rewrite lookup_insert_ne by done. by apply Hfk.
  - destruct (bool_decide _ && bool_decide _) eqn:Hc; [|done].
    intros H. apply bind_Some in H as (ts' & Ht & [= <-]). simpl in Ht.
    apply andb_prop in Hc as [_ Hex]. apply bool_decide_eq_true in Hex.
    split.
    + intros T r' Hr'. simpl in *.
      rewrite (adjust_tag_lookup _ _ _ _ T Ht) in Hr'.
      rewrite count_tag_app. simpl.
      destruct (ts !! T) as [r0|] eqn:H0; simpl in Hr'; [|done].
      injection Hr' as <-. simpl. rewrite (Hm T r0 H0). simpl. lia.
    + intros x Hx. simpl in *. rewrite (adjust_tag_lookup _ _ _ _ x.2 Ht).
      apply fmap_is_Some.
      apply elem_of_app in Hx as [Hx|Hx]; [by apply Hfk|].
      apply list_elem_of_singleton in Hx as ->. done.
  - intros H. apply bind_Some in H as (q & Hq & [= <-]). split.
    + intros T r' Hr'. simpl in *.
      rewrite (delete_assoc_lookup _ _ _ _ T Hq) in Hr'.
      destruct (ts !! T) as [r0|] eqn:H0; simpl in Hr'; [|done].
      injection Hr' as <-. simpl. rewrite (Hm T r0 H0). simpl. lia.
    + intros x Hx. simpl in *. rewrite (delete_assoc_lookup _ _ _ _ x.2 Hq).
      apply fmap_is_Some. rewrite (delete_assoc_rows _ _ _ _ Hq) in Hx.
      apply list_elem_of_filter in Hx as [_ Hx]. by apply Hfk.
Qed.

Lemma tag_run_preserves ss d :
  usage_match d ∧ fk_ok d → usage_match (run ss d) ∧ fk_ok (run ss d).
Proof.
  revert d. induction ss as [|s ss IH]; intros d H; simpl; [done|].
  apply IH. unfold step. destruct (exec s d) as [d'|] eqn:He; simpl; [|done].
  destruct H. by eapply tag_exec_preserves.
Qed.

(** C6: after any sequence of tag creations (with [usage_count] 0) and
    insertions and deletions of [media_item_tags] rows, applied to the
    empty tables, every tag's [usage_count] is the number of association
    rows that reference it. *)
Theorem tag_usage_counts_associations ss t r :
  media_tags (run ss empty_db) !! t = Some r →
  usage_count r = count_tag t (media_item_tags (run ss empty_db)).
Proof.
  apply (tag_run_preserves ss empty_db).
  split; intros ? ?; simpl; [by rewrite lookup_empty | set_solver].
Qed.

Lemma tag_usage_counts_associations_witness :
  media_tags (run tagging_scenario empty_db) !! 1%positive = Some (MediaTag "cats" "cats" 1) ∧
  usage_count (MediaTag "cats" "cats" 1)
    = count_tag 1 (media_item_tags (run tagging_scenario empty_db)).
Proof.
  assert (media_tags (run tagging_scenario empty_db) !! 1%positive
          = Some (MediaTag "cats" "cats" 1)) as H by (vm_compute; reflexivity).
  split; [exact H|].
  exact (tag_usage_counts_associations tagging_scenario 1%positive _ H).
Defined.

End TagUsageFacts.

Module UploadGCFacts.
Import UploadGC.

Lemma length_filter_le {A} (P : A → Prop) `{∀ x, Decision (P x)} (l : list A) :
  (length (filter P l) ≤ length l)%nat.
Proof.
  induction l as [|x l IH]; simpl; [done|].
  rewrite filter_cons. case_decide; simpl; lia.
Qed.

Lemma length_filter_split {A} (p : A → bool) (l : list A) :
  (length (filter (λ x, p x = true) l) + length (filter (λ x, p x = false) l)
   = length l)%nat.
Proof.
  induction l as [|x l IH]; simpl; [done|].
  rewrite !filter_cons. destruct (p x) eqn:Hp.
  - rewrite decide_True, decide_False by done. simpl. lia.
  - rewrite decide_False, decide_True by done. simpl. lia.
Qed.

(** C3, as amended: with fewer than 2^31 upload rows the sweep succeeds;
    it removes exactly the upload rows whose [expires_at] is before now and
    whose [completed_at] is unset, removes with them (by cascade) exactly
    their chunk rows, returns the number of upload rows removed, keeps
    every upload with [completed_at] set, and leaves the temporary
    artifacts in storage untouched. *)
Theorem cleanup_removes_expired_records now w :
  Z.of_nat (length (media_chunked_uploads w)) < 2 ^ 31 →
  ∃ n w', cleanup_expired_uploads now w = Some (n, w') ∧
    (∀ u, u ∈ media_chunked_uploads w' ↔
          u ∈ media_chunked_uploads w ∧ ¬ (expires_at u < now ∧ completed_at u = None)) ∧
    (∀ c, c ∈ media_upload_chunks w' ↔
          c ∈ media_upload_chunks w ∧
          ¬ ∃ u, u ∈ media_chunked_uploads w ∧ id u = upload_id c ∧
                 expires_at u < now ∧ completed_at u = None) ∧
    n = Z.of_nat (length (media_chunked_uploads w)) -
        Z.of_nat (length (media_chunked_uploads w')) ∧
    (∀ u, u ∈ media_chunked_uploads w → is_Some (completed_at u) →
          u ∈ media_chunked_uploads w') ∧
    temp_files w' = temp_files w.
Proof.
  intros Hlen. unfold cleanup_expired_uploads.
  set (us := media_chunked_uploads w) in *.
  assert (∀ u, expired now u = true ↔ expires_at u < now ∧ completed_at u = None) as Hexp.
  { intros u. unfold expired. rewrite andb_true_iff, Z.ltb_lt, bool_decide_eq_true. done. }
  assert (int4_ok (Z.of_nat (length (filter (λ u, expired now u = true) us))) = true) as ->.
  { pose proof (length_filter_le (λ u, expired now u = true) us).
    unfold int4_ok. apply andb_true_iff. split; [apply Z.leb_le | apply Z.ltb_lt]; lia. }
  eexists _, _. split; [reflexivity|]. simpl.
  split; [|split; [|split; [|split; [|done]]]].
  - intros u. rewrite list_elem_of_filter. split.
    + intros [He Hu]. split; [done|]. intros Hx. apply Hexp in Hx. congruence.
    + intros [Hu Hne]. split; [|done].
      destruct (expired now u) eqn:He; [|done]. by apply Hexp in He.
  - intros c. rewrite list_elem_of_filter. split.
    + intros [Ho Hc]. split; [done|]. intros (u & Hu & Hid & He).
      apply Hexp in He. assert (orphaned now us c = true); [|congruence].
      apply existsb_exists. exists u. split; [by apply list_elem_of_In|].
      rewrite He. simpl. by apply bool_decide_eq_true.
    + intros [Hc Hne]. split; [|done].
      destruct (orphaned now us c) eqn:Ho; [|done]. exfalso. apply Hne.
      apply existsb_exists in Ho as (u & Hu & Hue).
      apply andb_true_iff in Hue as [He Hid]. apply bool_decide_eq_true in Hid.
      exists u. apply Hexp in He. split; [by apply list_elem_of_In|]. tauto.
  - pose proof (length_filter_split (expired now) us). lia.
  - intros u Hu [t Ht]. apply list_elem_of_filter. split; [|done].
    unfold expired. rewrite Ht. apply andb_false_iff. right.
    by apply bool_decide_eq_false.
Qed.

Lemma cleanup_removes_expired_records_witness :
  ∃ n w', cleanup_expired_uploads 3601 sweep_world = Some (n, w') ∧
    (∀ u, u ∈ media_chunked_uploads w' ↔
          u ∈ media_chunked_uploads sweep_world ∧
          ¬ (expires_at u < 3601 ∧ completed_at u = None)) ∧
    (∀ c, c ∈ media_upload_chunks w' ↔
          c ∈ media_upload_chunks sweep_world ∧
          ¬ ∃ u, u ∈ media_chunked_uploads sweep_world ∧ id u = upload_id c ∧
                 expires_at u < 3601 ∧ completed_at u = None) ∧
    n = Z.of_nat (length (media_chunked_uploads sweep_world)) -
        Z.of_nat (length (media_chunked_uploads w')) ∧
    (∀ u, u ∈ media_chunked_uploads sweep_world → is_Some (completed_at u) →
          u ∈ media_chunked_uploads w') ∧
    temp_files w' = temp_files sweep_world.
Proof. apply (cleanup_removes_expired_records 3601 sweep_world). simpl. lia. Defined.

(** C3, as stated, fails on the temporary artifacts: the sweep removes the
    abandoned upload 1 and reports one row, but the artifact at its
    [temp_path] is still in storage afterwards. *)
Lemma cleanup_leaves_temp_artifacts :
  ∃ w', cleanup_expired_uploads 3601 sweep_world = Some (1, w') ∧
        abandoned_upload ∈ media_chunked_uploads sweep_world ∧
        (abandoned_upload ∉ media_chunked_uploads w') ∧
        temp_path abandoned_upload ∈ temp_files w'.
Proof.
  eexists. split; [vm_compute; reflexivity|]. simpl.
  split; [|split]; [compute_done..|set_solver].
Qed.

End UploadGCFacts.

Module DedupFacts.
Import FolderStats Dedup.

Lemma hash_free_spec h rows :
  hash_free h rows = true ↔ h ∉ map content_hash rows.
Proof.
  unfold hash_free. rewrite forallb_forall. split.
  - intros H Hin. apply list_elem_of_fmap in Hin as (r & -> & Hr).
    apply list_elem_of_In, H in Hr. apply negb_true_iff, bool_decide_eq_false in Hr. done.
  - intros H r Hr. apply negb_true_iff, bool_decide_eq_false. intros Heq.
    apply H. apply list_elem_of_fmap. exists r. split; [done|]. by apply list_elem_of_In.
Qed.

Lemma exec_insert_rows r d d' :
  exec (InsertItem r) d = Some d' →
  media_items d' = media_items d ++ [r] ∧
  hash_free (content_hash r) (media_items d) = true.
Proof.
  simpl. destruct (_ && int8_ok _) eqn:Hc; [|done].
  intros H. apply bind_Some in H as (fs & _ & [= <-]). simpl. split; [done|].
  apply andb_prop in Hc as [Hc _]. apply andb_prop in Hc as [Hc _].
  by apply andb_prop in Hc as [_ Hc].
Qed.

Lemma find_app_None {A} (p : A → bool) l x :
  find p l = None → p x = true → find p (l ++ [x]) = Some x.
Proof.
  induction l as [|y l IH]; simpl; intros H Hx.
  - by rewrite Hx.
  - destruct (p y); [done | auto].
Qed.

Lemma hash_unique_live d :
  hash_unique d →
  NoDup (map content_hash (filter (λ r, deleted_at r = None) (media_items d))).
Proof.
  unfold hash_unique. generalize (media_items d).
  induction l as [|y l IH]; simpl; [constructor|].
  rewrite !NoDup_cons. intros [Hy Hl]. rewrite filter_cons.
  case_decide; simpl; [|auto]. apply NoDup_cons. split; [|auto].
  intros Hin. apply Hy. apply list_elem_of_fmap in Hin as (z & Hz & Hin).
  apply list_elem_of_filter in Hin as [_ Hin].
  apply list_elem_of_fmap. by exists z.
Qed.

Lemma hash_unique_row (rows : list media_item) r1 r2 :
  NoDup (map content_hash rows) →
  r1 ∈ rows → r2 ∈ rows → content_hash r1 = content_hash r2 → r1 = r2.
Proof.
  induction rows as [|y rows IH]; intros Hnd H1 H2 Heq; [by apply elem_of_nil in H1|].
  simpl in Hnd. apply NoDup_cons in Hnd as [Hy Hnd].
  apply elem_of_cons in H1 as [->|H1]; apply elem_of_cons in H2 as [->|H2].
  - done.
  - destruct Hy. rewrite Heq. apply list_elem_of_fmap. by exists r2.
  - destruct Hy. rewrite <- Heq. apply list_elem_of_fmap. by exists r1.
  - by apply IH.
Qed.

(** What the lookup finds is a non-deleted row of the table with the
    hash asked for. *)
Lemma find_live_by_hash_Some h rows r :
  find_live_by_hash h rows = Some r →
  r ∈ rows ∧ content_hash r = h ∧ deleted_at r = None.
Proof.
  unfold find_live_by_hash. intros Hf. apply find_some in Hf as [Hin Hp].
  apply andb_prop in Hp as [Hh Hd].
  apply bool_decide_eq_true in Hh, Hd. by apply list_elem_of_In in Hin.
Qed.

(** C2: with a table that satisfies [UNIQUE (content_hash)], if ingesting
    some content succeeds with item id [x], then [x] is the id of a
    non-deleted row whose [content_hash] is the digest of that content,
    and that row is the only row of the table with this hash, deleted or
    not; the table is the earlier one, or the earlier one with that row
    added.  Ingesting the same content again, or any content with the
    same digest (whatever fresh id and target folder the second request
    carries), also succeeds, returns the same id [x] and leaves the table
    unchanged: no duplicate row and no error.  Content hashes stay unique
    over all rows, hence over the non-deleted ones. *)
Theorem ingest_same_content_twice digest d i1 f1 i2 f2 content content2 x d1 :
  hash_unique d →
  ingest digest i1 f1 content d = Some (x, d1) →
  digest content2 = digest content →
  (∃ r, r ∈ media_items d1 ∧ id r = x ∧
        content_hash r = digest content ∧ deleted_at r = None ∧
        (∀ r', r' ∈ media_items d1 → content_hash r' = digest content → r' = r) ∧
        (media_items d1 = media_items d ∨ media_items d1 = media_items d ++ [r])) ∧
  ingest digest i2 f2 content2 d1 = Some (x, d1) ∧
  hash_unique d1 ∧
  NoDup (map content_hash
           (filter (λ r, deleted_at r = None) (media_items d1))).
Proof.
  intros Hu Hfirst Hsame.
  assert (hash_unique d1 ∧
          ∃ r, find_live_by_hash (digest content) (media_items d1) = Some r ∧ id r = x ∧
               (media_items d1 = media_items d ∨ media_items d1 = media_items d ++ [r]))
    as (Hu1 & r & Hfind & Hid & Hrows).
  { unfold ingest in Hfirst.
    destruct (find_live_by_hash (digest content) (media_items d)) as [r|] eqn:Hf.
    - injection Hfirst as <- <-. split; [done|]. exists r. auto.
    - apply bind_Some in Hfirst as (d' & He & [= <- <-]).
      apply exec_insert_rows in He as [Hrows Hfree]. simpl in Hfree.
      split.
      + unfold hash_unique. rewrite Hrows, map_app. simpl.
        apply NoDup_app. split; [done|]. split; [|apply NoDup_singleton].
        intros h Hh Hh'. apply list_elem_of_singleton in Hh' as ->.
        by apply hash_free_spec in Hfree.
      + eexists. split; [|split; [|right; exact Hrows]]; [|done].
        unfold find_live_by_hash in *. rewrite Hrows.
        rewrite (find_app_None _ _ _ Hf); [done|].
        simpl. by rewrite !bool_decide_eq_true_2. }
  destruct (find_live_by_hash_Some _ _ _ Hfind) as (Hin & Hhash & Hlive).
  split; [|split; [|split; [done|by apply hash_unique_live]]].
  - exists r. repeat split; try done.
    intros r' Hr' Hh'. apply (hash_unique_row (media_items d1)); [done..|congruence].
  - unfold ingest. by rewrite Hsame, Hfind, Hid.
Qed.

(** The schema's [UNIQUE (content_hash)] spans soft-deleted rows, while
    the lookup only sees non-deleted ones: once the only item with some
    content is soft-deleted, ingesting that content again raises. *)
Lemma ingest_after_soft_delete_raises :
  ingest toy_digest 6 None sample_content
         (step catalog_after_first (SetDeletedAt 5 (Some 9))) = None.
Proof. vm_compute. reflexivity. Qed.

Lemma ingest_same_content_twice_witness :
  (∃ r, r ∈ media_items catalog_after_first ∧ id r = 5%positive ∧
        content_hash r = toy_digest sample_content ∧ deleted_at r = None ∧
        (∀ r', r' ∈ media_items catalog_after_first →
               content_hash r' = toy_digest sample_content → r' = r) ∧
        (media_items catalog_after_first = media_items empty_db ∨
         media_items catalog_after_first = media_items empty_db ++ [r])) ∧
  ingest toy_digest 6 None sample_content catalog_after_first
    = Some (5%positive, catalog_after_first) ∧
  hash_unique catalog_after_first ∧
  NoDup (map content_hash
           (filter (λ r, deleted_at r = None) (media_items catalog_after_first))).
Proof.
  apply (ingest_same_content_twice toy_digest empty_db 5 None 6 None
           sample_content sample_content).
  - constructor.
  - vm_compute. reflexivity.
  - reflexivity.
Defined.

End DedupFacts.

Module ChunkedFacts.
Import Chunked.

Lemma ceil_div_bounds S C :
  0 < C → (Math_ceil_div S C - 1) * C < S ∧ S ≤ Math_ceil_div S C * C.
Proof.
  intros HC. unfold Math_ceil_div.
  pose proof (Z.div_mod (- S) C ltac:(lia)) as Hdm.
  pose proof (Z.mod_pos_bound (- S) C HC) as Hb.
  nia.
Qed.

Lemma Blob_slice_range a b (bytes : list Byte.byte) :
  0 ≤ a ≤ b → b ≤ Z.of_nat (length bytes) →
  Blob_slice a b bytes = take (Z.to_nat (b - a)) (drop (Z.to_nat a) bytes).
Proof.
  intros Hab Hb. unfold Blob_slice.
  rewrite (proj2 (Z.ltb_ge a 0)) by lia. rewrite (proj2 (Z.ltb_ge b 0)) by lia.
  rewrite !Z.min_l by lia. by rewrite Z.max_l by lia.
Qed.

(** With every chunk accepted the loop sends one request per index. *)
Lemma upload_chunks_all_ok indices C f uid srv :
  (∀ i, chunk_response srv i = true) →
  upload_chunks indices C f uid srv
  = (map (λ i, UploadChunk uid i (chunk_of C f i)) indices, true).
Proof.
  intros Hok. induction indices as [|i rest IH]; simpl; [done|].
  by rewrite Hok, IH.
Qed.

(** The first [k] chunks make up the first [k * C] bytes. *)
Lemma chunks_prefix C f (k : nat) :
  0 < C → Z.of_nat k * C ≤ file_size f + C - 1 →
  concat (map (chunk_of C f) (seqZ 0 (Z.of_nat k)))
  = take (Z.to_nat (Z.min (Z.of_nat k * C) (file_size f))) (content f).
Proof.
  intros HC. induction k as [|k IH]; intros Hk.
  - simpl. by rewrite Z.min_l by (unfold file_size; lia).
  - rewrite Nat2Z.inj_succ, <- Z.add_1_r in *.
    assert (0 ≤ Z.of_nat k * C) as Hk0 by nia.
    assert (Z.of_nat k * C + 1 ≤ file_size f) as HkS by lia.
    rewrite seqZ_app by lia. rewrite map_app, concat_app, IH by lia.
    assert (seqZ (0 + Z.of_nat k) 1 = [Z.of_nat k]) as ->
      by (unfold seqZ; simpl; f_equal; lia).
    simpl. rewrite app_nil_r. unfold chunk_of, chunk_end, chunk_start.
    rewrite Blob_slice_range by (unfold file_size in *; lia).
    rewrite (Z.min_l (Z.of_nat k * C)) by lia.
    rewrite take_take_drop. f_equal. lia.
Qed.

Lemma chunk_of_range C f i :
  0 < C → 0 ≤ i → i * C ≤ file_size f →
  chunk_of C f i
  = take (Z.to_nat (Z.min ((i + 1) * C) (file_size f) - i * C))
         (drop (Z.to_nat (i * C)) (content f)).
Proof.
  intros HC Hi HiS. unfold chunk_of, chunk_end, chunk_start.
  rewrite Blob_slice_range by (unfold file_size in *; nia).
  do 3 f_equal. lia.
Qed.

Lemma chunk_of_length C f i :
  0 < C → 0 ≤ i → i * C ≤ file_size f →
  Z.of_nat (length (chunk_of C f i)) = Z.min ((i + 1) * C) (file_size f) - i * C.
Proof.
  intros HC Hi HiS. rewrite chunk_of_range by done.
  rewrite length_take, length_drop. unfold file_size in *. nia.
Qed.

(** C5: for a file of size [S > 0] and a configured chunk size [C > 0],
    when the server accepts every request, [uploadChunked] announces
    [N = ceil(S / C)] chunks with [(N - 1) * C < S <= N * C], then uploads
    chunk [0], [1], ..., [N - 1] in that order and completes; chunk [i] is
    the byte range from [i * C] to [min((i + 1) * C, S)]; the chunks
    concatenated are the file; every chunk but the last has [C] bytes, the
    last has [S - (N - 1) * C <= C] bytes; the ranges are pairwise
    disjoint. *)
Theorem uploadChunked_chunks_partition_file C f folderId srv uploadId :
  0 < C → 0 < file_size f →
  init_response srv = Some uploadId →
  (∀ i, chunk_response srv i = true) →
  let S := file_size f in
  let N := Math_ceil_div S C in
  uploadChunked (Some C) f folderId srv
    = (InitChunkedUpload (name f) S C N folderId
         :: map (λ i, UploadChunk uploadId i (chunk_of C f i)) (seqZ 0 N)
         ++ [CompleteChunkedUpload uploadId],
       complete_response srv) ∧
  ((N - 1) * C < S ∧ S ≤ N * C) ∧
  concat (map (chunk_of C f) (seqZ 0 N)) = content f ∧
  (∀ i, 0 ≤ i < N →
        chunk_of C f i
        = take (Z.to_nat (Z.min ((i + 1) * C) S - i * C))
               (drop (Z.to_nat (i * C)) (content f))) ∧
  (∀ i, 0 ≤ i < N - 1 → Z.of_nat (length (chunk_of C f i)) = C) ∧
  (Z.of_nat (length (chunk_of C f (N - 1))) = S - (N - 1) * C ∧
   0 < S - (N - 1) * C ≤ C) ∧
  (∀ i j, 0 ≤ i < j → j < N → Z.min ((i + 1) * C) S ≤ j * C).
Proof.
  intros HC HS Hinit Hok S N.
  destruct (ceil_div_bounds S C HC) as [Hlo Hhi]. fold N in Hlo, Hhi.
  assert (1 ≤ N) as HN by nia.
  assert (∀ i, 0 ≤ i < N → i * C ≤ S) as Hin by (intros; nia).
  split; [|split; [done|split; [|split; [|split; [|split]]]]].
  - unfold uploadChunked, effective_chunk_size.
    rewrite (proj2 (Z.eqb_neq C 0)) by lia. rewrite Hinit.
    by rewrite upload_chunks_all_ok.
  - rewrite <- (Z2Nat.id N) by lia. rewrite chunks_prefix by (fold S; lia).
    rewrite Z2Nat.id by lia. rewrite Z.min_r by (fold S; lia).
    apply take_ge. unfold S, file_size. lia.
  - intros i Hi. apply chunk_of_range; [done|lia|]. by apply Hin.
  - intros i Hi. rewrite chunk_of_length by (try apply Hin; lia). fold S. nia.
  - rewrite chunk_of_length by (try apply Hin; lia). fold S.
    replace (N - 1 + 1) with N by lia. lia.
  - intros i j Hij HjN. nia.
Qed.

Lemma uploadChunked_chunks_partition_file_witness :
  uploadChunked (Some 2) five_bytes None accepting_server
  = ([ InitChunkedUpload "clip.bin" 5 2 3 None;
       UploadChunk "u1" 0 [Byte.x01; Byte.x02];
       UploadChunk "u1" 1 [Byte.x03; Byte.x04];
       UploadChunk "u1" 2 [Byte.x05];
       CompleteChunkedUpload "u1" ],
     Some "m1").
Proof.
  exact (proj1 (uploadChunked_chunks_partition_file 2 five_bytes None accepting_server "u1"
                 ltac:(lia) ltac:(reflexivity) eq_refl (λ _, eq_refl))).
Defined.

End ChunkedFacts.

Module FolderDeleteFacts.
Import FolderDelete.

(** Case analysis on membership in a list written out element by element. *)
Ltac elem_cases H :=
  repeat (apply elem_of_cons in H as [H|H]; [try discriminate H|]);
  try (by apply elem_of_nil in H).

(** C8: whatever the user answers and however the requests settle, the
    first delete request of [deleteFolder], if there is one, is sent with
    force=false; and if a request with force=true is sent at all, then the
    user confirmed the first prompt, the first request (force=false) was
    rejected with a message containing "not empty", the user confirmed the
    second prompt, and the forced request comes after all of these. *)
Theorem deleteFolder_forces_only_after_refusal folderId e :
  (head (delete_requests (deleteFolder folderId e)) = None ∨
   head (delete_requests (deleteFolder folderId e)) = Some (ApiDeleteFolder folderId false)) ∧
  (∀ id, ApiDeleteFolder id true ∈ deleteFolder folderId e →
     id = folderId ∧ confirm1 e = true ∧ confirm2 e = true ∧
     ∃ message tail,
       response1 e = Rejected message ∧ includes "not empty" message = true ∧
       deleteFolder folderId e
       = Confirm prompt1 :: ApiDeleteFolder folderId false ::
         Confirm prompt2 :: ApiDeleteFolder folderId true :: tail ∧
       ∀ x, x ∈ tail → is_delete_request x = false).
Proof.
  destruct e as [c1 r1 c2 r2]. unfold deleteFolder. simpl. split.
  - destruct c1; [right|left]; done.
  - intros id Hin. destruct c1; simpl in Hin; [|elem_cases Hin].
    destruct r1 as [|message]; simpl in Hin; [elem_cases Hin|].
    destruct (includes "not empty" message) eqn:Hinc; simpl in Hin; [|elem_cases Hin].
    destruct c2; simpl in Hin; [|elem_cases Hin].
    assert (id = folderId) as ->.
    { destruct r2; elem_cases Hin; by injection Hin. }
    do 3 (split; [done|]). exists message. eexists.
    split; [done|]. split; [done|]. split; [reflexivity|].
    intros x Hx. destruct r2; elem_cases Hx; by subst x.
Qed.

Lemma deleteFolder_forces_only_after_refusal_witness :
  deleteFolder "f7" forced_run
  = [ Confirm prompt1; ApiDeleteFolder "f7" false;
      Confirm prompt2; ApiDeleteFolder "f7" true;
      ToastSuccess "Folder and contents deleted"; Reload ] ∧
  "f7" = "f7" ∧ confirm1 forced_run = true ∧ confirm2 forced_run = true ∧
  ∃ message tail,
    response1 forced_run = Rejected message ∧ includes "not empty" message = true ∧
    deleteFolder "f7" forced_run
    = Confirm prompt1 :: ApiDeleteFolder "f7" false ::
      Confirm prompt2 :: ApiDeleteFolder "f7" true :: tail ∧
    ∀ x, x ∈ tail → is_delete_request x = false.
Proof.
  split; [reflexivity|].
  apply (proj2 (deleteFolder_forces_only_after_refusal "f7" forced_run) "f7").
  compute_done.
Defined.

End FolderDeleteFacts.

Module UploadQueueFacts.
Import Chunked UploadQueue.

Section engine.
Context {js : Engine}.

Lemma status_at_alter_eq f h a :
  status_at (alter f a h) a = (λ it, item_status (f it)) <$> h !! a.
Proof. unfold status_at. rewrite list_lookup_alter_eq. by destruct (h !! a). Qed.

Lemma status_at_alter_ne f h a b :
  a ≠ b → status_at (alter f a h) b = status_at h b.
Proof. intros. unfold status_at. by rewrite list_lookup_alter_ne. Qed.

Lemma alter_keeps_files (P : File → Prop) f (h : list item) a :
  (∀ it, file (f it) = file it) →
  (∀ it, it ∈ h → P (file it)) →
  ∀ it, it ∈ alter f a h → P (file it).
Proof.
  intros Hf HP it Hit. apply list_elem_of_lookup in Hit as [b Hb].
  destruct (decide (a = b)) as [->|Hne].
  - rewrite list_lookup_alter_eq in Hb.
    destruct (h !! b) as [it0|] eqn:H0; simpl in Hb; [|done].
    injection Hb as <-. rewrite Hf. apply HP. by eapply list_elem_of_lookup_2.
  - rewrite list_lookup_alter_ne in Hb by done.
    apply HP. by eapply list_elem_of_lookup_2.
Qed.

(** [find] returns the first match. *)
Lemma find_first {A} (p : A → bool) l a :
  find p l = Some a →
  p a = true ∧ ∃ pre post, l = pre ++ a :: post ∧ ∀ b, b ∈ pre → p b = false.
Proof.
  induction l as [|x l IH]; simpl; [done|].
  destruct (p x) eqn:Hx.
  - intros [= <-]. split; [done|]. exists [], l. split; [done|].
    intros b Hb. by apply elem_of_nil in Hb.
  - intros H. destruct (IH H) as (Ha & pre & post & -> & Hpre).
    split; [done|]. exists (x :: pre), post. split; [done|].
    intros b Hb. apply elem_of_cons in Hb as [->|Hb]; auto.
Qed.

Lemma processQueue_invariant cfg st :
  invariant cfg st → invariant cfg (processQueue st).
Proof.
  intros Hinv. unfold processQueue.
  destruct (uploading st) eqn:Hu; [done|].
  destruct (find _ _) as [a|] eqn:Hfind; [|done].
  destruct Hinv as [Hflag Hup Hqs Hqb Hss Hsb Hsp Hv]. rewrite Hu in Hflag.
  apply find_first in Hfind as (Hpa & pre & post & Hq & Hpre).
  apply bool_decide_eq_true in Hpa.
  assert (running st = None) as Hrun.
  { destruct (running st); [|done]. by rewrite bool_decide_eq_true_2 in Hflag. }
  assert (a ∈ queue st) as Haq by (rewrite Hq; set_solver).
  pose proof (Hqb a Haq) as Hab.
  assert (status_at (alter (set_status Uploading) a (heap st)) a = Some Uploading) as Hnew.
  { rewrite status_at_alter_eq. unfold status_at in Hpa.
    by destruct (heap st !! a). }
  constructor; simpl.
  - done.
  - intros b Hb. destruct (decide (a = b)) as [->|Hne]; [done|].
    rewrite status_at_alter_ne in Hb by done. apply Hup in Hb. congruence.
  - done.
  - intros b Hb. rewrite length_alter. by apply Hqb.
  - apply StronglySorted_app. split; [|split; [done|]].
    + intros s x Hs Hx. apply list_elem_of_singleton in Hx as ->. by apply Hsp.
    + repeat constructor.
  - intros s Hs. rewrite length_alter.
    apply elem_of_app in Hs as [Hs|Hs]; [by apply Hsb|].
    by apply list_elem_of_singleton in Hs as ->.
  - intros s b Hs Hb Hbp.
    assert (a ≠ b) as Hne by (intros ->; congruence).
    rewrite status_at_alter_ne in Hbp by done.
    apply elem_of_app in Hs as [Hs|Hs]; [by apply Hsp|].
    apply list_elem_of_singleton in Hs as ->.
    rewrite Hq in Hb, Hqs.
    apply elem_of_app in Hb as [Hb|Hb].
    + apply Hpre in Hb. apply bool_decide_eq_false in Hb. done.
    + apply elem_of_cons in Hb as [->|Hb]; [done|].
      apply StronglySorted_app in Hqs as (_ & _ & Hqs).
      apply StronglySorted_cons in Hqs as [Hqs _].
      rewrite Forall_forall in Hqs. by apply Hqs.
  - by apply (alter_keeps_files (λ f, validateFile cfg f = true)).
Qed.

Lemma status_at_snoc_lt h x b :
  (b < length h)%nat → status_at (h ++ [x]) b = status_at h b.
Proof. intros. unfold status_at. by rewrite lookup_app_l. Qed.

Lemma status_at_snoc h x b s :
  status_at (h ++ [x]) b = Some s →
  ((b < length h)%nat ∧ status_at h b = Some s) ∨ (b = length h ∧ item_status x = s).
Proof.
  destruct (decide (b < length h)%nat) as [Hlt|Hge].
  - rewrite status_at_snoc_lt by done. auto.
  - unfold status_at. rewrite lookup_app_r by lia.
    destruct (b - length h)%nat as [|n] eqn:Hd; simpl; [|done].
    intros [= <-]. right. split; [lia|done].
Qed.

Lemma push_files_invariant cfg generateId files h q u r s :
  invariant cfg (State h q u r s) →
  invariant cfg (State (push_files cfg generateId files h q).1
                       (push_files cfg generateId files h q).2 u r s).
Proof.
  revert h q. induction files as [|f rest IH]; intros h q Hinv; simpl; [done|].
  destruct (validateFile cfg f) eqn:Hvf; [|by apply IH].
  apply IH. destruct Hinv as [Hflag Hup Hqs Hqb Hss Hsb Hsp Hv]. simpl in *.
  constructor; simpl.
  - done.
  - intros b Hb. apply status_at_snoc in Hb as [[_ Hb]|[_ Hb]]; [auto|done].
  - apply StronglySorted_app. split; [|split; [done|repeat constructor]].
    intros a x Ha Hx. apply list_elem_of_singleton in Hx as ->. by apply Hqb.
  - intros a Ha. rewrite length_app. simpl.
    apply elem_of_app in Ha as [Ha|Ha]; [apply Hqb in Ha; lia|].
    apply list_elem_of_singleton in Ha as ->. lia.
  - done.
  - intros x Hx. rewrite length_app. simpl. apply Hsb in Hx. lia.
  - intros x a Hx Ha Hp. apply elem_of_app in Ha as [Ha|Ha].
    + rewrite status_at_snoc_lt in Hp by (by apply Hqb). by apply Hsp.
    + apply list_elem_of_singleton in Ha as ->. by apply Hsb.
  - intros it Hit. apply elem_of_app in Hit as [Hit|Hit]; [by apply Hv|].
    by apply list_elem_of_singleton in Hit as ->.
Qed.

(** The items [addFiles] creates are the files that pass [validateFile],
    in the order given, appended to the queue. *)
Lemma push_files_shape cfg generateId files h q :
  file <$> (push_files cfg generateId files h q).1
    = (file <$> h) ++ filter (λ f, validateFile cfg f = true) files ∧
  (push_files cfg generateId files h q).2
    = q ++ seq (length h) (length (filter (λ f, validateFile cfg f = true) files)).
Proof.
  revert h q. induction files as [|f rest IH]; intros h q; simpl.
  - by rewrite !app_nil_r.
  - rewrite filter_cons. destruct (validateFile cfg f) eqn:Hvf.
    + rewrite decide_True by done. destruct (IH (h ++ [Item (generateId (length h)) f Pending 0 None])
                                          (q ++ [length h])) as [-> ->].
      rewrite fmap_app, length_app. simpl. rewrite <- !app_assoc. simpl.
      by rewrite Nat.add_1_r.
    + rewrite decide_False by done. apply IH.
Qed.

Lemma remove_first_elem_of p q a : a ∈ remove_first p q → a ∈ q.
Proof.
  induction q as [|x q IH]; simpl; [done|].
  destruct (p x); [by apply list_elem_of_further|].
  intros Ha. apply elem_of_cons in Ha as [->|Ha].
  - apply list_elem_of_here.
  - by apply list_elem_of_further, IH.
Qed.

Lemma remove_first_sorted p q :
  StronglySorted lt q → StronglySorted lt (remove_first p q).
Proof.
  induction q as [|x q IH]; simpl; [done|].
  rewrite StronglySorted_cons. intros [Hx Hq].
  destruct (p x); [done|]. apply StronglySorted_cons. split; [|auto].
  rewrite Forall_forall in *. intros a Ha. by apply Hx, (remove_first_elem_of p).
Qed.

Lemma cancel_invariant cfg itemId st :
  invariant cfg st → invariant cfg (cancel itemId st).
Proof.
  intros [Hflag Hup Hqs Hqb Hss Hsb Hsp Hv]. unfold cancel.
  constructor; simpl; try done.
  - by apply remove_first_sorted.
  - intros a Ha. apply remove_first_elem_of in Ha. by apply Hqb.
  - intros s a Hs Ha. apply remove_first_elem_of in Ha. by apply Hsp.
Qed.

(** Updating the item in flight, when the update can make no item
    'pending' or 'uploading' that was not. *)
Lemma alter_invariant cfg f a st :
  (∀ it, file (f it) = file it) →
  (∀ it, item_status (f it) = Pending → item_status it = Pending) →
  (∀ it, item_status (f it) = Uploading → item_status it = Uploading) →
  invariant cfg st →
  invariant cfg (State (alter f a (heap st)) (queue st) (uploading st) (running st)
                       (started st)).
Proof.
  intros Hfile Hpend Hupl [Hflag Hup Hqs Hqb Hss Hsb Hsp Hv].
  assert (∀ b s, (s = Pending ∨ s = Uploading) →
                 status_at (alter f a (heap st)) b = Some s →
                 status_at (heap st) b = Some s) as Hback.
  { intros b s Hs. destruct (decide (a = b)) as [->|Hne].
    - rewrite status_at_alter_eq. unfold status_at.
      destruct (heap st !! b) as [it|]; simpl; [|done].
      intros [= Hit]. f_equal. destruct Hs as [->| ->]; auto.
    - by rewrite status_at_alter_ne. }
  constructor; simpl; try done.
  - intros b Hb. apply Hup, Hback; auto.
  - intros b Hb. rewrite length_alter. auto.
  - intros s Hs. rewrite length_alter. auto.
  - intros s b Hs Hb Hp. apply Hsp; [done..|]. apply Hback; auto.
  - by apply (alter_keeps_files (λ f, validateFile cfg f = true)).
Qed.

Lemma release_invariant cfg h q u a s :
  invariant cfg (State h q u (Some a) s) →
  status_at h a ≠ Some Uploading →
  invariant cfg (State h q false None s).
Proof.
  intros [Hflag Hup Hqs Hqb Hss Hsb Hsp Hv] Ha. simpl in *.
  constructor; simpl; try done.
  intros b Hb. pose proof (Hup b Hb) as [= ->]. done.
Qed.

Lemma settle_invariant cfg result st :
  invariant cfg st → invariant cfg (settle result st).
Proof.
  intros Hinv. unfold settle. destruct (running st) as [a|] eqn:Hrun; [|done].
  apply processQueue_invariant.
  destruct result as [message|].
  - apply (release_invariant cfg _ _ (uploading st) a).
    + rewrite <- Hrun.
      apply (alter_invariant cfg (set_error message) a
               (State _ (queue st) (uploading st) (running st) (started st))); try done.
      by apply (alter_invariant cfg (set_status Error) a st).
    + rewrite status_at_alter_eq, list_lookup_alter_eq.
      by destruct (heap st !! a).
  - apply (release_invariant cfg _ _ (uploading st) a).
    + rewrite <- Hrun.
      apply (alter_invariant cfg (set_progress 100) a
               (State _ (queue st) (uploading st) (running st) (started st))); try done.
      by apply (alter_invariant cfg (set_status Complete) a st).
    + rewrite status_at_alter_eq, list_lookup_alter_eq.
      by destruct (heap st !! a).
Qed.

Lemma step_invariant cfg generateId st e :
  invariant cfg st → invariant cfg (step cfg generateId st e).
Proof.
  intros Hinv. destruct e as [files|itemId|p| |result]; simpl.
  - apply processQueue_invariant, push_files_invariant. by destruct st.
  - by apply cancel_invariant.
  - destruct (running st) as [a|] eqn:Hrun; [|done]. rewrite <- Hrun.
    by apply (alter_invariant cfg (set_progress p) a st).
  - destruct (running st) as [a|] eqn:Hrun; [|done]. case_bool_decide; [|done].
    rewrite <- Hrun. by apply (alter_invariant cfg (set_status Processing) a st).
  - by apply settle_invariant.
Qed.

Lemma run_invariant cfg generateId evs st :
  invariant cfg st → invariant cfg (run cfg generateId evs st).
Proof.
  revert st. induction evs as [|e evs IH]; intros st Hinv; simpl; [done|].
  by apply IH, step_invariant.
Qed.

Lemma init_invariant cfg : invariant cfg init.
Proof.
  constructor; simpl; try done; try (by constructor);
    intros; match goal with H : _ ∈ [] |- _ => by apply elem_of_nil in H end.
Qed.

Lemma sorted_lt_NoDup (l : list nat) : StronglySorted lt l → NoDup l.
Proof.
  induction l as [|x l IH]; [constructor|].
  rewrite StronglySorted_cons, NoDup_cons. intros [Hx Hl]. split; [|auto].
  intros Hin. rewrite Forall_forall in Hx. specialize (Hx x Hin). lia.
Qed.

Lemma at_most_one {A} (l : list A) :
  NoDup l → (∀ x y, x ∈ l → y ∈ l → x = y) → (length l ≤ 1)%nat.
Proof.
  destruct l as [|x [|y l]]; simpl; [lia..|].
  intros Hnd Heq. exfalso. apply NoDup_cons in Hnd as [Hx _]. apply Hx.
  rewrite (Heq x y); [apply list_elem_of_here|apply list_elem_of_here|].
  apply list_elem_of_further, list_elem_of_here.
Qed.

Lemma processQueue_shape st :
  file <$> heap (processQueue st) = file <$> heap st ∧
  queue (processQueue st) = queue st.
Proof.
  unfold processQueue. destruct (uploading st); [done|].
  destruct (find _ _) as [a|]; [|done]. simpl. split; [|done].
  rewrite (list_fmap_alter file (set_status Uploading) (λ x, x))
    by (by apply Forall_forall).
  by apply list_alter_id.
Qed.

(** C7: in every state the page reaches, at most one queue item is
    'uploading' (indeed at most one item object at all); while the
    [uploading] flag is set [processQueue] changes nothing, and neither
    adding files nor cancelling starts an upload; when the flag is clear
    [processQueue] starts the first pending item of the queue and nothing
    else; the queue is in the order the items were added, and so is the
    sequence of uploads started. *)
Theorem one_upload_at_a_time cfg generateId evs :
  let st := run cfg generateId evs init in
  (length (uploading_items st) ≤ 1)%nat ∧
  (∀ a b, status_at (heap st) a = Some Uploading →
          status_at (heap st) b = Some Uploading → a = b) ∧
  (uploading st = true → processQueue st = st) ∧
  (uploading st = true → ∀ files itemId,
     started (step cfg generateId st (AddFiles files)) = started st ∧
     started (step cfg generateId st (Cancel itemId)) = started st) ∧
  (uploading st = false → ∀ a,
     find (is_pending (heap st)) (queue st) = Some a →
     started (processQueue st) = started st ++ [a] ∧
     running (processQueue st) = Some a ∧
     ∃ pre post, queue st = pre ++ a :: post ∧
                 ∀ b, b ∈ pre → status_at (heap st) b ≠ Some Pending) ∧
  StronglySorted lt (queue st) ∧
  StronglySorted lt (started st).
Proof.
  intros st.
  pose proof (run_invariant cfg generateId evs init (init_invariant cfg)) as Hinv.
  fold st in Hinv. destruct Hinv as [Hflag Hup Hqs Hqb Hss Hsb Hsp Hv].
  assert (∀ a b, status_at (heap st) a = Some Uploading →
                 status_at (heap st) b = Some Uploading → a = b) as Huniq.
  { intros a b Ha Hb. apply Hup in Ha, Hb. congruence. }
  split; [|split; [done|split; [|split; [|split; [|done]]]]].
  - apply at_most_one.
    + apply NoDup_filter. by apply sorted_lt_NoDup.
    + intros x y Hx Hy. unfold uploading_items in *.
      apply list_elem_of_filter in Hx as [Hx _].
      apply list_elem_of_filter in Hy as [Hy _]. by apply Huniq.
  - intros Hu. unfold processQueue. by rewrite Hu.
  - intros Hu files itemId. simpl. split; [|done].
    unfold addFiles, processQueue. simpl. by rewrite Hu.
  - intros Hu a Hfind. unfold processQueue. rewrite Hu, Hfind. simpl.
    split; [done|]. split; [done|].
    apply find_first in Hfind as (_ & pre & post & Hq & Hpre).
    exists pre, post. split; [done|]. intros b Hb.
    apply Hpre in Hb. by apply bool_decide_eq_false in Hb.
Qed.

Lemma split_on_two sep pre suf :
  ∃ x y l, split_on sep (pre +:+ String sep suf) = x :: y :: l.
Proof.
  induction pre as [|c pre IH]; simpl.
  - rewrite bool_decide_eq_true_2 by done.
    destruct suf as [|d suf]; simpl; [by eexists _, _, _|].
    case_bool_decide; [by eexists _, _, _|].
    destruct (split_on sep suf); by eexists _, _, _.
  - destruct IH as (x & y & l & ->). case_bool_decide; by eexists _, _, _.
Qed.

Lemma split_on_last_app sep pre suf :
  pop (split_on sep (pre +:+ String sep suf)) = pop (split_on sep suf).
Proof.
  unfold pop. induction pre as [|c pre IH]; simpl.
  - rewrite bool_decide_eq_true_2 by done.
    destruct suf as [|d suf]; simpl; [done|].
    case_bool_decide; [done|]. by destruct (split_on sep suf).
  - destruct (split_on_two sep pre suf) as (x & y & l & Hsplit).
    rewrite Hsplit in *. by case_bool_decide.
Qed.

Lemma split_on_no_sep sep s : has_char sep s = false → split_on sep s = [s].
Proof.
  induction s as [|c s IH]; simpl; [done|].
  intros H. apply orb_false_elim in H as [Hc Hs].
  rewrite Hc. by rewrite IH.
Qed.

(** The extension of a name with a dot is the lowercased text after the
    last dot; that of a name without a dot is the lowercased name. *)
Lemma extension_after_final_dot pre suf bytes :
  has_char "." suf = false →
  extension (MkFile (pre +:+ "." +:+ suf) bytes) = toLowerCase suf.
Proof.
  intros Hsuf. unfold extension. cbn [name].
  change (pre +:+ "." +:+ suf) with (pre +:+ String "."%char suf).
  rewrite split_on_last_app, split_on_no_sep by done. done.
Qed.

Lemma extension_without_dot n bytes :
  has_char "." n = false → extension (MkFile n bytes) = toLowerCase n.
Proof. intros H. unfold extension. simpl. by rewrite split_on_no_sep. Qed.

Lemma last_sep sep s :
  has_char sep s = true →
  ∃ pre suf, s = pre +:+ String sep suf ∧ has_char sep suf = false.
Proof.
  induction s as [|c s IH]; simpl; [done|].
  destruct (has_char sep s) eqn:Hs.
  - intros _. destruct (IH eq_refl) as (pre & suf & -> & Hsuf).
    by exists (String c pre), suf.
  - rewrite orb_false_r. intros Hc. apply bool_decide_eq_true in Hc as ->.
    by exists EmptyString, s.
Qed.

(** What [validateFile] lowercases: the text after the last dot of the
    name, or the whole name when it has no dot. *)
Lemma extension_segment f :
  ∃ seg, extension f = toLowerCase seg ∧ has_char "." seg = false ∧
         (name f = seg ∨ ∃ pre, name f = pre +:+ "." +:+ seg).
Proof.
  destruct f as [n bytes]. destruct (has_char "." n) eqn:Hn.
  - destruct (last_sep _ _ Hn) as (pre & suf & -> & Hsuf). exists suf.
    split; [by apply extension_after_final_dot|]. split; [done|].
    right. by exists pre.
  - exists n. split; [by apply extension_without_dot|]. split; [done|]. by left.
Qed.

(** C10: a file passes [validateFile] exactly when its size is at most
    [maxFileSize], if that is configured (a size equal to it passes), and
    its extension is in [allowedExtensions], if that is configured; the
    extension is [toLowerCase] of the text after the last dot of the
    name, and of the whole name when it has no dot; with neither option
    configured every file passes.  [addFiles] creates queue items for
    exactly the files that pass, in order; and in every state the page
    reaches every item, and so every upload started, is for a file that
    passed. *)
Theorem file_enqueued_iff_valid cfg generateId :
  (∀ f, validateFile cfg f = true ↔
        (∀ m, maxFileSize cfg = Some m → file_size f ≤ m) ∧
        (∀ exts, allowedExtensions cfg = Some exts → extension f ∈ exts)) ∧
  (∀ f, maxFileSize cfg = Some (file_size f) →
        (∀ exts, allowedExtensions cfg = Some exts → extension f ∈ exts) →
        validateFile cfg f = true) ∧
  (maxFileSize cfg = None → allowedExtensions cfg = None →
   ∀ f, validateFile cfg f = true) ∧
  (∀ f, ∃ seg, extension f = toLowerCase seg ∧ has_char "." seg = false ∧
               (name f = seg ∨ ∃ pre, name f = pre +:+ "." +:+ seg)) ∧
  (∀ st files,
     file <$> heap (addFiles cfg generateId files st)
       = (file <$> heap st) ++ filter (λ f, validateFile cfg f = true) files ∧
     queue (addFiles cfg generateId files st)
       = queue st ++ seq (length (heap st))
                         (length (filter (λ f, validateFile cfg f = true) files))) ∧
  (∀ evs it, it ∈ heap (run cfg generateId evs init) →
             validateFile cfg (file it) = true) ∧
  (∀ evs a, a ∈ started (run cfg generateId evs init) →
     ∃ it, heap (run cfg generateId evs init) !! a = Some it ∧
           validateFile cfg (file it) = true).
Proof.
  assert (∀ f, validateFile cfg f = true ↔
               (∀ m, maxFileSize cfg = Some m → file_size f ≤ m) ∧
               (∀ exts, allowedExtensions cfg = Some exts → extension f ∈ exts)) as Hiff.
  { intros f. unfold validateFile.
    assert ((if match allowedExtensions cfg with
                | Some exts => negb (bool_decide (extension f ∈ exts))
                | None => false
                end then false else true) = true ↔
            ∀ exts, allowedExtensions cfg = Some exts → extension f ∈ exts) as Hext.
    { destruct (allowedExtensions cfg) as [exts|].
      - case_bool_decide as Hin; simpl.
        + split; [|done]. by intros _ ? [= <-].
        + split; [done|]. intros Hall. destruct Hin. by apply Hall.
      - split; [|done]. by intros _ ? [=]. }
    destruct (maxFileSize cfg) as [m|].
    - rewrite Z.gtb_ltb. destruct (Z.ltb_spec m (file_size f)) as [Hgt|Hle].
      + split; [done|]. intros [Hsz _]. specialize (Hsz m eq_refl). lia.
      + rewrite Hext. split; [|tauto]. intros Hall. split; [|done].
        by intros ? [= <-].
    - rewrite Hext. split; [|tauto]. intros Hall. split; [|done]. by intros ? [=]. }
  split; [done|]. split; [|split; [|split; [|split; [|split]]]].
  - intros f Hsz Hext. apply Hiff. split; [|done]. intros m Hm.
    rewrite Hsz in Hm. injection Hm as <-. lia.
  - intros Hm Hexts f. apply Hiff. rewrite Hm, Hexts. by split; intros ? [=].
  - apply extension_segment.
  - intros st files. unfold addFiles.
    destruct (processQueue_shape
                (State (push_files cfg generateId files (heap st) (queue st)).1
                       (push_files cfg generateId files (heap st) (queue st)).2
                       (uploading st) (running st) (started st))) as [-> ->].
    simpl. apply push_files_shape.
  - intros evs.
    apply (inv_valid _ _ (run_invariant cfg generateId evs init (init_invariant cfg))).
  - intros evs a Ha.
    pose proof (run_invariant cfg generateId evs init (init_invariant cfg)) as Hinv.
    apply (inv_started_bound _ _ Hinv) in Ha.
    apply lookup_lt_is_Some in Ha as [it Hit]. exists it. split; [done|].
    apply (inv_valid _ _ Hinv). by eapply list_elem_of_lookup_2.
Qed.

End engine.

(* The examples run on [ascii_engine]; the names in them are ASCII. *)
#[local] Existing Instance ascii_engine.

Lemma one_upload_at_a_time_witness :
  uploading (run small_config numbered_id busy_session init) = true ∧
  uploading_items (run small_config numbered_id busy_session init) = [2%nat] ∧
  started (run small_config numbered_id busy_session init) = [0; 1; 2]%nat ∧
  processQueue (run small_config numbered_id busy_session init)
    = run small_config numbered_id busy_session init.
Proof.
  assert (uploading (run small_config numbered_id busy_session init) = true) as Hu
    by (vm_compute; reflexivity).
  split; [exact Hu|]. split; [vm_compute; reflexivity|]. split; [vm_compute; reflexivity|].
  exact (proj1 (proj2 (proj2 (one_upload_at_a_time small_config numbered_id busy_session))) Hu).
Defined.

Lemma file_enqueued_iff_valid_witness :
  validateFile small_config at_limit = true ∧
  file <$> heap (addFiles small_config numbered_id
                   [at_limit; bad_type; too_large; small_file] init)
    = [at_limit; small_file].
Proof.
  pose proof (file_enqueued_iff_valid small_config numbered_id)
    as (Hiff & Heq & _ & _ & Hadd & _).
  split.
  - apply Heq; [reflexivity|]. intros exts [= <-]. compute_done.
  - exact (proj1 (Hadd init [at_limit; bad_type; too_large; small_file])).
Defined.

(** C10, as stated, fails in two ways.  On a page without configuration
    no [maxFileSize] exists, so no file has a size at most [maxFileSize];
    yet every file passes, here one of four bytes, and is enqueued.  And
    the name README has no dot, hence no text after a final dot; yet the
    file passes when [allowedExtensions] lists the whole lowercased name,
    and is enqueued. *)
Lemma file_enqueued_without_limit_or_dot :
  (validateFile unconfigured too_large = true ∧
   file <$> heap (addFiles unconfigured numbered_id [too_large] init) = [too_large] ∧
   ¬ ∃ m, maxFileSize unconfigured = Some m ∧ file_size too_large ≤ m) ∧
  (has_char "." (name readme) = false ∧
   (¬ ∃ pre suf, name readme = pre +:+ "." +:+ suf) ∧
   allowedExtensions readme_config = Some ["readme"] ∧
   validateFile readme_config readme = true ∧
   file <$> heap (addFiles readme_config numbered_id [readme] init) = [readme]).
Proof.
  split.
  - split; [vm_compute; reflexivity|]. split; [vm_compute; reflexivity|].
    by intros (m & [=] & _).
  - split; [vm_compute; reflexivity|]. split; [|by vm_compute].
    intros (pre & suf & Hname).
    assert (has_char "." (pre +:+ "." +:+ suf) = true) as Hdot.
    { clear Hname. induction pre as [|c pre IH]; simpl; [done|].
      rewrite IH. apply orb_true_r. }
    rewrite <- Hname in Hdot. vm_compute in Hdot. done.
Qed.

End UploadQueueFacts.

Module FolderStatsMoreFacts.
Import FolderStats FolderStatsMore.

(** An [UPDATE] whose assignment keeps [folder_id] runs the trigger's
    no-op branch for every row. *)
Lemma update_rows_same_folder i set rows fs :
  (∀ r, folder_id (set r) = folder_id r) →
  update_rows i set rows fs
  = Some (map (λ r, if decide (id r = i) then set r else r) rows, fs).
Proof.
  intros Hset. induction rows as [|r rest IH]; simpl; [done|].
  destruct (decide (id r = i)) as [Hi|Hi]; [|by rewrite IH].
  rewrite decide_True by (by rewrite Hset). simpl. by rewrite IH.
Qed.

(** X1: an [UPDATE] of [media_items] that leaves [folder_id] as it is
    (a metadata edit, a soft delete or restore, a change of [size]) never
    raises in the trigger and leaves [media_folders] exactly as it was;
    the statements that soft-delete or restore therefore always succeed
    and change no folder row. *)
Theorem update_keeping_folder_leaves_folders i set dl d :
  (∀ r, folder_id (set r) = folder_id r) →
  update_rows i set (media_items d) (media_folders d)
  = Some (map (λ r, if decide (id r = i) then set r else r) (media_items d),
          media_folders d) ∧
  exec (SetDeletedAt i dl) d
  = Some (Db (map (λ r, if decide (id r = i) then set_deleted_at dl r else r)
                  (media_items d))
             (media_folders d)).
Proof.
  intros Hset. split; [by apply update_rows_same_folder|].
  simpl. by rewrite update_rows_same_folder.
Qed.

Lemma update_keeping_folder_leaves_folders_witness :
  update_rows 1 (set_size 7) (media_items one_item_db) (media_folders one_item_db)
  = Some ([MediaItem 1 7 (Some 1%positive) "h1" None], media_folders one_item_db).
Proof.
  exact (proj1 (update_keeping_folder_leaves_folders 1 (set_size 7) None one_item_db
                  (λ _, eq_refl))).
Defined.

Lemma size_where_resize F i s' rows r :
  NoDup (map id rows) → r ∈ rows → id r = i → folder_id r = Some F →
  size_where (in_folder F) (map (λ x, if decide (id x = i) then set_size s' x else x) rows)
  = size_where (in_folder F) rows + (s' - size r).
Proof.
  intros Hnd Hr Hi HF. induction rows as [|x rest IH]; [by apply elem_of_nil in Hr|].
  simpl in Hnd. apply NoDup_cons in Hnd as [Hx Hnd]. simpl.
  destruct (decide (id x = i)) as [Hxi|Hxi].
  - assert (x = r) as ->.
    { apply elem_of_cons in Hr as [->|Hr]; [done|]. exfalso. apply Hx.
      rewrite Hxi, <- Hi. apply list_elem_of_fmap. by exists r. }
    assert (map (λ x, if decide (id x = i) then set_size s' x else x) rest = rest) as ->.
    { clear IH Hr Hnd. induction rest as [|y rest IH]; simpl; [done|].
      rewrite decide_False.
      - f_equal. apply IH. intros Hin. apply Hx. by apply list_elem_of_further.
      - intros Hy. apply Hx. rewrite Hxi, <- Hy. apply list_elem_of_here. }
    unfold in_folder, set_size. simpl. rewrite HF.
    rewrite bool_decide_eq_true_2 by done. lia.
  - apply elem_of_cons in Hr as [->|Hr]; [done|]. rewrite IH by done. lia.
Qed.

(** X2: when the [size] of an item in folder [F] is changed by an
    [UPDATE] that keeps its [folder_id], the statement succeeds, the row
    of [F] is not touched, and the sum of the sizes of the items in [F]
    moves away from the recorded [total_size] by the change of size:
    the counter is stale until the item is moved or deleted. *)
Theorem resize_leaves_total_size_stale d i s' r F x :
  stats_match d →
  NoDup (map id (media_items d)) →
  r ∈ media_items d → id r = i → folder_id r = Some F →
  media_folders d !! F = Some x →
  ∃ rows', update_rows i (set_size s') (media_items d) (media_folders d)
           = Some (rows', media_folders d) ∧
           size_where (in_folder F) rows' = total_size x + (s' - size r) ∧
           count_where (in_folder F) rows' = item_count x.
Proof.
  intros Hm Hnd Hr Hi HF Hx. eexists. split.
  - by apply update_rows_same_folder.
  - destruct (Hm F x Hx) as [Hc Hs]. split.
    + rewrite (size_where_resize F i s' _ r) by done. lia.
    + rewrite Hc. clear. induction (media_items d) as [|y rest IH]; simpl; [done|].
      rewrite IH. by destruct (decide (id y = i)).
Qed.

Lemma resize_leaves_total_size_stale_witness :
  ∃ rows', update_rows 1 (set_size 7) (media_items one_item_db) (media_folders one_item_db)
           = Some (rows', media_folders one_item_db) ∧
           size_where (in_folder 1) rows' = total_size (MediaFolder None 1 10) + (7 - 10) ∧
           count_where (in_folder 1) rows' = item_count (MediaFolder None 1 10).
Proof.
  apply (resize_leaves_total_size_stale one_item_db 1 7
           (MediaItem 1 10 (Some 1%positive) "h1" None) 1 (MediaFolder None 1 10)).
  - apply (proj1 (FolderStatsFacts.run_preserves _ _ FolderStatsFacts.empty_db_ok)).
  - compute_done.
  - compute_done.
  - reflexivity.
  - reflexivity.
  - vm_compute. reflexivity.
Defined.

Lemma delete_rows_no_match i rows fs :
  pk_free i rows = true → delete_rows i rows fs = Some (rows, fs).
Proof.
  induction rows as [|x rest IH]; simpl; [done|].
  intros H. apply andb_prop in H as [Hx Hrest].
  apply negb_true_iff, bool_decide_eq_false in Hx.
  rewrite decide_False by done. by rewrite IH.
Qed.

Lemma delete_rows_app_no_match i l1 l2 fs :
  pk_free i l1 = true →
  delete_rows i (l1 ++ l2) fs = p ← delete_rows i l2 fs; Some (l1 ++ p.1, p.2).
Proof.
  induction l1 as [|x rest IH]; simpl.
  - intros _. destruct (delete_rows i l2 fs) as [[??]|]; done.
  - intros H. apply andb_prop in H as [Hx Hrest].
    apply negb_true_iff, bool_decide_eq_false in Hx.
    rewrite decide_False by done. rewrite IH by done.
    destruct (delete_rows i l2 fs) as [[??]|]; done.
Qed.

(** X3: in a database whose counters fit their column types, deleting an
    item right after inserting it succeeds and gives back the database as
    it was before the insertion, rows and folder counters alike. *)
Theorem insert_then_delete_restores d r d1 :
  ranges_ok d →
  exec (InsertItem r) d = Some d1 →
  exec (DeleteItem (id r)) d1 = Some d.
Proof.
  intros Hrange. destruct d as [rows fs]. simpl.
  destruct (_ && int8_ok _) eqn:Hc; [|done].
  intros H. apply bind_Some in H as (fs1 & Hins & [= <-]). simpl.
  apply andb_prop in Hc as [Hc _]. apply andb_prop in Hc as [Hc _].
  apply andb_prop in Hc as [Hpk _].
  rewrite delete_rows_app_no_match by done. simpl.
  rewrite decide_True by done.
  assert (adjust_folder (folder_id r) (-1) (- size r) fs1 = Some fs) as ->.
  { unfold adjust_folder in *. destruct (folder_id r) as [f|]; [|by injection Hins as <-].
    destruct (fs !! f) as [x|] eqn:Hf.
    - destruct (int4_ok _ && int8_ok _); [|done]. injection Hins as <-.
      rewrite lookup_insert_eq. destruct (Hrange f x Hf) as [H4 H8]. simpl.
      replace (item_count x + 1 + -1) with (item_count x) by lia.
      replace (total_size x + size r + - size r) with (total_size x) by lia.
      rewrite H4, H8. simpl. f_equal. rewrite insert_insert_eq.
      apply insert_id. rewrite Hf. f_equal. destruct x. unfold bump. simpl.
      f_equal; lia.
    - injection Hins as <-. by rewrite Hf. }
  simpl. by rewrite app_nil_r.
Qed.

Lemma insert_then_delete_restores_witness :
  exec (DeleteItem 1) one_item_db = Some (run [CreateFolder 1 None] empty_db).
Proof.
  apply (insert_then_delete_restores (run [CreateFolder 1 None] empty_db)
           (MediaItem 1 10 (Some 1%positive) "h1" None)).
  - intros F x.
    change (media_folders (run [CreateFolder 1 None] empty_db))
      with (<[1%positive := MediaFolder None 0 0]> (∅ : gmap positive media_folder)).
    destruct (decide (F = 1%positive)) as [->|Hne].
    + rewrite lookup_insert_eq. by intros [= <-].
    + rewrite lookup_insert_ne by done. by rewrite lookup_empty.
  - vm_compute. reflexivity.
Defined.

Lemma map_update_key {K} (key : media_item → K) i set rows :
  (∀ r, key (set r) = key r) →
  map key (map (λ r, if decide (id r = i) then set r else r) rows) = map key rows.
Proof.
  intros Hkey. induction rows as [|x rest IH]; simpl; [done|].
  rewrite IH. by destruct (decide (id x = i)); rewrite ?Hkey.
Qed.

Lemma pk_free_spec i rows : pk_free i rows = true ↔ i ∉ map id rows.
Proof.
  unfold pk_free. rewrite forallb_forall. split.
  - intros H Hin. apply list_elem_of_fmap in Hin as (r & -> & Hr).
    apply list_elem_of_In, H in Hr. apply negb_true_iff, bool_decide_eq_false in Hr. done.
  - intros H r Hr. apply negb_true_iff, bool_decide_eq_false. intros Heq.
    apply H. apply list_elem_of_fmap. exists r. split; [done|]. by apply list_elem_of_In.
Qed.

Lemma exec_keeps_keys s d d' :
  keys_unique d → exec s d = Some d' → keys_unique d'.
Proof.
  intros [Hid Hhash]. destruct d as [rows fs].
  destruct s as [f parent|r|i|i f|i dl]; simpl.
  - destruct (_ && _); [|done]. by intros [= <-].
  - destruct (_ && int8_ok _) eqn:Hc; [|done].
    intros H. apply bind_Some in H as (fs1 & _ & [= <-]).
    apply andb_prop in Hc as [Hc _]. apply andb_prop in Hc as [Hc _].
    apply andb_prop in Hc as [Hpk Hh].
    apply pk_free_spec in Hpk. apply DedupFacts.hash_free_spec in Hh.
    split; simpl in *; rewrite map_app; simpl; apply NoDup_app.
    + split; [done|]. split; [|apply NoDup_singleton].
      intros x Hx Hx'. by apply list_elem_of_singleton in Hx' as ->.
    + split; [done|]. split; [|apply NoDup_singleton].
      intros x Hx Hx'. by apply list_elem_of_singleton in Hx' as ->.
  - intros H. apply bind_Some in H as (p & Hp & [= <-]).
    rewrite (FolderStatsFacts.delete_rows_rows _ _ _ _ Hp).
    split; simpl in *.
    + eapply sublist_NoDup; [exact Hid|]. apply fmap_sublist, sublist_filter.
    + eapply sublist_NoDup; [exact Hhash|]. apply fmap_sublist, sublist_filter.
  - destruct (_ || _); [|done].
    intros H. apply bind_Some in H as (p & Hp & [= <-]).
    rewrite (FolderStatsFacts.update_rows_rows _ _ _ _ _ Hp).
    split; simpl in *; by rewrite map_update_key.
  - intros H. apply bind_Some in H as (p & Hp & [= <-]).
    rewrite (FolderStatsFacts.update_rows_rows _ _ _ _ _ Hp).
    split; simpl in *; by rewrite map_update_key.
Qed.

(** X4: whatever statements were run on the empty database, failed ones
    included, no two rows of [media_items] share an [id] and no two share
    a [content_hash]; an [INSERT] that would break either is the one that
    raises. *)
Theorem reachable_keys_unique ss :
  NoDup (map id (media_items (run ss empty_db))) ∧
  NoDup (map content_hash (media_items (run ss empty_db))) ∧
  ∀ r, content_hash r ∈ map content_hash (media_items (run ss empty_db)) ∨
       id r ∈ map id (media_items (run ss empty_db)) →
       exec (InsertItem r) (run ss empty_db) = None.
Proof.
  assert (keys_unique (run ss empty_db)) as [Hid Hhash].
  { assert (keys_unique empty_db) as H0 by (split; constructor).
    revert H0. generalize empty_db. induction ss as [|s ss IH]; intros d Hd; simpl; [done|].
    apply IH. unfold step. destruct (exec s d) as [d'|] eqn:He; simpl; [|done].
    by eapply exec_keeps_keys. }
  split; [done|]. split; [done|].
  intros r Hr. simpl.
  destruct (pk_free (id r) _) eqn:Hpk; simpl.
  - destruct (hash_free (content_hash r) _) eqn:Hh; simpl; [|done].
    apply pk_free_spec in Hpk. apply DedupFacts.hash_free_spec in Hh.
    by destruct Hr.
  - done.
Qed.

End FolderStatsMoreFacts.

Module UploadGCMoreFacts.
Import UploadGC.

Lemma expired_mono t1 t2 u : t1 ≤ t2 → expired t1 u = true → expired t2 u = true.
Proof.
  unfold expired. intros Ht H. apply andb_true_iff in H as [H1 H2].
  apply andb_true_iff. split; [|done]. apply Z.ltb_lt in H1. apply Z.ltb_lt. lia.
Qed.

Lemma survivors_twice t1 t2 (us : list chunked_upload) :
  t1 ≤ t2 →
  filter (λ u, expired t2 u = false) (filter (λ u, expired t1 u = false) us)
  = filter (λ u, expired t2 u = false) us.
Proof.
  intros Ht. induction us as [|u us IH]; [done|].
  rewrite !(filter_cons _ u).
  destruct (expired t1 u) eqn:H1.
  - rewrite (expired_mono t1 t2 u Ht H1). by rewrite !decide_False by done.
  - rewrite decide_True by done. rewrite filter_cons, IH. done.
Qed.

Lemma removed_twice t1 t2 (us : list chunked_upload) :
  t1 ≤ t2 →
  (length (filter (λ u, expired t1 u = true) us)
   + length (filter (λ u, expired t2 u = true)
                    (filter (λ u, expired t1 u = false) us))
   = length (filter (λ u, expired t2 u = true) us))%nat.
Proof.
  intros Ht. induction us as [|u us IH]; [done|].
  rewrite !(filter_cons _ u).
  destruct (expired t1 u) eqn:H1.
  - rewrite (expired_mono t1 t2 u Ht H1).
    rewrite !decide_True by done. rewrite decide_False by done. simpl. lia.
  - rewrite decide_False by done. rewrite decide_True by done.
    rewrite filter_cons. destruct (decide (expired t2 u = true)); simpl; lia.
Qed.

Lemma orphaned_twice t1 t2 us c :
  t1 ≤ t2 →
  orphaned t2 us c
  = orphaned t1 us c || orphaned t2 (filter (λ u, expired t1 u = false) us) c.
Proof.
  intros Ht. unfold orphaned. induction us as [|u us IH]; [done|].
  rewrite filter_cons. simpl. rewrite IH.
  destruct (expired t1 u) eqn:H1.
  - rewrite (expired_mono t1 t2 u Ht H1). rewrite decide_False by done.
    simpl. by destruct (bool_decide (id u = upload_id c)).
  - rewrite decide_True by done. simpl.
    destruct (expired t2 u && bool_decide (id u = upload_id c)); simpl; [|done].
    by rewrite orb_true_r.
Qed.

Lemma chunks_twice t1 t2 (us : list chunked_upload) (cs : list upload_chunk) :
  t1 ≤ t2 →
  filter (λ c, orphaned t2 (filter (λ u, expired t1 u = false) us) c = false)
         (filter (λ c, orphaned t1 us c = false) cs)
  = filter (λ c, orphaned t2 us c = false) cs.
Proof.
  intros Ht. induction cs as [|c cs IH]; [done|].
  rewrite !(filter_cons _ c). rewrite (orphaned_twice t1 t2 us c Ht).
  destruct (orphaned t1 us c) eqn:H1; simpl.
  - done.
  - by rewrite filter_cons, IH.
Qed.

(** X5: sweeps compose.  After a sweep at time [t1], a second sweep at
    the same time finds nothing and changes nothing; and a second sweep
    at a later time [t2] leaves what a single sweep at [t2] would have
    left, the two returned counts adding up to the count of that single
    sweep. *)
Theorem cleanup_sweeps_compose t1 t2 w n1 w1 :
  Z.of_nat (length (media_chunked_uploads w)) < 2 ^ 31 →
  t1 ≤ t2 →
  cleanup_expired_uploads t1 w = Some (n1, w1) →
  cleanup_expired_uploads t1 w1 = Some (0, w1) ∧
  ∃ n2 w2, cleanup_expired_uploads t2 w1 = Some (n2, w2) ∧
           cleanup_expired_uploads t2 w = Some (n1 + n2, w2).
Proof.
  intros Hlen Ht. unfold cleanup_expired_uploads.
  set (us := media_chunked_uploads w) in *.
  assert (∀ t l, (length l ≤ length us)%nat →
                 int4_ok (Z.of_nat (length (filter (λ u, expired t u = true) l))) = true)
    as Hok.
  { intros t l Hl.
    pose proof (UploadGCFacts.length_filter_le (λ u, expired t u = true) l).
    unfold int4_ok. apply andb_true_iff. split; [apply Z.leb_le | apply Z.ltb_lt]; lia. }
  rewrite Hok by done. intros [= <- <-]. simpl.
  assert (length (filter (λ u, expired t1 u = false) us) ≤ length us)%nat as Hsurv
    by apply UploadGCFacts.length_filter_le.
  split.
  - rewrite Hok by done.
    pose proof (removed_twice t1 t1 us ltac:(lia)) as Hrem.
    replace (length (filter (λ u, expired t1 u = true)
                            (filter (λ u, expired t1 u = false) us))) with 0%nat by lia.
    rewrite (survivors_twice t1 t1) by lia. rewrite (chunks_twice t1 t1) by lia. done.
  - eexists _, _. rewrite !Hok by done. split; [reflexivity|].
    rewrite survivors_twice, chunks_twice by done.
    pose proof (removed_twice t1 t2 us Ht) as Hrem. f_equal. f_equal. lia.
Qed.

Lemma cleanup_sweeps_compose_witness :
  ∃ w1, cleanup_expired_uploads 3601 sweep_world = Some (1, w1) ∧
        cleanup_expired_uploads 3601 w1 = Some (0, w1) ∧
        ∃ n2 w2, cleanup_expired_uploads 8000 w1 = Some (n2, w2) ∧
                 cleanup_expired_uploads 8000 sweep_world = Some (1 + n2, w2).
Proof.
  eexists. split; [vm_compute; reflexivity|].
  apply (cleanup_sweeps_compose 3601 8000 sweep_world 1).
  - simpl. lia.
  - lia.
  - vm_compute. reflexivity.
Defined.

End UploadGCMoreFacts.

Module SettingsFacts.
Import Settings.

Lemma insert_do_nothing_union rows (t : gmap string jsonb) :
  insert_do_nothing rows t = t ∪ list_to_map rows.
Proof.
  unfold insert_do_nothing. revert t.
  induction rows as [|[k v] rows IH]; intros t; simpl.
  - by rewrite (right_id_L ∅ (∪)).
  - rewrite IH. destruct (t !! k) as [x|] eqn:Hk.
    + apply map_eq. intros j. rewrite !lookup_union.
      destruct (decide (k = j)) as [<-|Hne].
      * rewrite Hk, lookup_insert_eq. by destruct (list_to_map rows !! k).
      * by rewrite lookup_insert_ne.
    + rewrite <- insert_union_l. by rewrite insert_union_r.
Qed.

(** X6: running the settings migration on any existing table keeps every
    value already stored, gives each of the eleven default keys that was
    missing its default value, adds nothing else, and is idempotent. *)
Theorem seed_defaults_keeps_existing (t : gmap string jsonb) :
  (∀ k v, t !! k = Some v → seed_defaults t !! k = Some v) ∧
  (∀ k v, t !! k = None → (k, v) ∈ default_settings → seed_defaults t !! k = Some v) ∧
  (∀ k, t !! k = None → k ∉ default_settings.*1 → seed_defaults t !! k = None) ∧
  seed_defaults (seed_defaults t) = seed_defaults t.
Proof.
  unfold seed_defaults. rewrite !insert_do_nothing_union.
  assert (NoDup default_settings.*1) as Hnd by compute_done.
  split; [|split; [|split]].
  - intros k v Hk. by apply lookup_union_Some_l.
  - intros k v Hk Hin. rewrite lookup_union_r by done.
    by apply elem_of_list_to_map_1.
  - intros k Hk Hin. apply lookup_union_None. split; [done|].
    by apply not_elem_of_list_to_map_1.
  - rewrite <- (assoc_L (∪)). by rewrite (idemp_L (∪)).
Qed.

Lemma seed_defaults_keeps_existing_witness :
  seed_defaults customised !! "max_file_size" = Some (JNumber 524288000) ∧
  seed_defaults customised !! "deduplicate" = Some (JBool true).
Proof.
  destruct (seed_defaults_keeps_existing customised) as (Hkeep & Hnew & _).
  split.
  - apply Hkeep. apply lookup_singleton_eq.
  - apply Hnew; [by apply lookup_singleton_ne | compute_done].
Defined.

End SettingsFacts.

Module FolderCascadeFacts.
Import FolderStats FolderCascade.

Lemma elem_of_children_of g S (fs : gmap positive media_folder) :
  g ∈ children_of S fs ↔ ∃ r p, fs !! g = Some r ∧ parent_id r = Some p ∧ p ∈ S.
Proof.
  unfold children_of. rewrite elem_of_dom. unfold is_Some.
  setoid_rewrite map_lookup_filter_Some. unfold parent_in. simpl. split.
  - intros (r & Hr & Hp). destruct (parent_id r) as [p|] eqn:Hpar; [|done].
    apply bool_decide_eq_true in Hp. by exists r, p.
  - intros (r & p & Hr & Hpar & Hp). exists r. split; [done|].
    rewrite Hpar. by apply bool_decide_eq_true.
Qed.

Lemma closed_children S (fs : gmap positive media_folder) :
  closed S fs ↔ children_of S fs ⊆ S.
Proof.
  split.
  - intros Hc g Hg. apply elem_of_children_of in Hg as (r & p & Hr & Hpar & Hp). eauto.
  - intros Hsub g r p Hr Hpar Hp. apply Hsub, elem_of_children_of. eauto.
Qed.

Lemma union_absorb (S T : gset positive) : T ⊆ S → S ∪ T = S.
Proof.
  intros H. apply set_eq. intros x. rewrite elem_of_union. split; [|auto].
  intros [?|?]; auto.
Qed.

Lemma cascade_grows n S (fs : gmap positive media_folder) : S ⊆ cascade n S fs.
Proof.
  revert S. induction n as [|n IH]; intros S; simpl; [done|].
  etrans; [|apply IH]. apply union_subseteq_l.
Qed.

Lemma cascade_closed_stable n S (fs : gmap positive media_folder) :
  closed S fs → cascade n S fs = S.
Proof.
  intros Hc. induction n as [|n IH]; simpl; [done|].
  apply closed_children in Hc. by rewrite union_absorb.
Qed.

Lemma cascade_comes_to_rest n S B (fs : gmap positive media_folder) :
  S ⊆ B → dom fs ⊆ B → (base.size B ≤ base.size S + n)%nat → closed (cascade n S fs) fs.
Proof.
  revert S. induction n as [|n IH]; intros S HS HB Hsize; simpl.
  - assert (S = B) as -> by (apply set_subseteq_size_eq; [done|lia]).
    apply closed_children. intros g Hg. apply HB.
    apply elem_of_children_of in Hg as (r & p & Hr & _). by apply elem_of_dom.
  - destruct (decide (children_of S fs ⊆ S)) as [Hc|Hc].
    + rewrite union_absorb by done.
      apply closed_children in Hc. by rewrite cascade_closed_stable.
    + apply IH; [|done|].
      * intros g Hg. apply elem_of_union in Hg as [Hg|Hg]; [by apply HS|].
        apply HB. apply elem_of_children_of in Hg as (r & p & Hr & _).
        by apply elem_of_dom.
      * assert (S ⊂ S ∪ children_of S fs) as Hlt.
        { split; [apply union_subseteq_l|]. intros Hsub. apply Hc.
          intros g Hg. apply Hsub. apply elem_of_union. by right. }
        apply subset_size in Hlt. lia.
Qed.

Lemma cascade_least n S C (fs : gmap positive media_folder) :
  S ⊆ C → closed C fs → cascade n S fs ⊆ C.
Proof.
  revert S. induction n as [|n IH]; intros S HS HC; simpl; [done|].
  apply IH; [|done]. intros g Hg. apply elem_of_union in Hg as [Hg|Hg]; [by apply HS|].
  apply elem_of_children_of in Hg as (r & p & Hr & Hpar & Hp).
  eapply HC; [done..|]. by apply HS.
Qed.

Lemma doomed_closed f (fs : gmap positive media_folder) :
  is_Some (fs !! f) → closed (doomed f fs) fs.
Proof.
  intros Hf. apply (cascade_comes_to_rest _ _ (dom fs)).
  - apply singleton_subseteq_l. by apply elem_of_dom.
  - done.
  - rewrite size_dom, size_singleton. lia.
Qed.

(** X7: the set of folders removed with [f] is exactly the subtree of
    [f]: it contains [f], it contains every folder whose parent it
    contains, and it is included in every set with these two
    properties. *)
Theorem doomed_is_subtree f (fs : gmap positive media_folder) :
  is_Some (fs !! f) →
  f ∈ doomed f fs ∧
  closed (doomed f fs) fs ∧
  ∀ C, f ∈ C → closed C fs → doomed f fs ⊆ C.
Proof.
  intros Hf. unfold doomed. split; [|split].
  - apply cascade_grows. by apply elem_of_singleton.
  - by apply doomed_closed.
  - intros C HfC HC. apply cascade_least; [|done]. by apply singleton_subseteq_l.
Qed.

Lemma doomed_is_subtree_witness :
  2%positive ∈ doomed 2 (media_folders two_folder_db) ∧
  closed (doomed 2 (media_folders two_folder_db)) (media_folders two_folder_db) ∧
  ∀ C, 2%positive ∈ C → closed C (media_folders two_folder_db) →
       doomed 2 (media_folders two_folder_db) ⊆ C.
Proof.
  apply (doomed_is_subtree 2 (media_folders two_folder_db)).
  vm_compute. eauto.
Defined.

Lemma update_where_doomed D rows (fs : gmap positive media_folder) :
  (∀ g, g ∈ D → fs !! g = None) →
  update_rows_where (in_doomed D) (set_folder_id None) rows fs
  = Some (map (λ r, if in_doomed D r then set_folder_id None r else r) rows, fs).
Proof.
  intros HD. induction rows as [|r rest IH]; simpl; [done|].
  destruct (in_doomed D r) eqn:Hr; [|by rewrite IH].
  unfold in_doomed in Hr. destruct (folder_id r) as [g|] eqn:Hg; [|done].
  apply bool_decide_eq_true in Hr. rewrite decide_False by done.
  unfold adjust_folder. rewrite (HD g Hr). simpl. by rewrite IH.
Qed.

Lemma aggregates_after_orphaning D F rows :
  F ∉ D →
  count_where (in_folder F)
              (map (λ r, if in_doomed D r then set_folder_id None r else r) rows)
  = count_where (in_folder F) rows ∧
  size_where (in_folder F)
             (map (λ r, if in_doomed D r then set_folder_id None r else r) rows)
  = size_where (in_folder F) rows.
Proof.
  intros HF. induction rows as [|r rest [IHc IHs]]; simpl; [done|].
  rewrite IHc, IHs. destruct (in_doomed D r) eqn:Hr; [|done].
  unfold in_doomed in Hr. destruct (folder_id r) as [g|] eqn:Hg; [|done].
  apply bool_decide_eq_true in Hr.
  unfold in_folder. simpl. rewrite Hg.
  rewrite (bool_decide_eq_false_2 (Some g = Some F)); [done|].
  intros [= ->]. done.
Qed.

(** X8: deleting an existing folder always succeeds.  It removes exactly
    the rows of the folder's subtree from [media_folders] and leaves the
    other folder rows as they are; it deletes no media item: the items
    of the removed folders stay, with [folder_id] set to [NULL]; and the
    counters of the remaining folders still match their items, and both
    foreign keys still hold, if they did before. *)
Theorem delete_folder_orphans_items f d :
  is_Some (media_folders d !! f) →
  ∃ d', delete_folder f d = Some d' ∧
    media_folders d'
      = filter (λ kv, kv.1 ∉ doomed f (media_folders d)) (media_folders d) ∧
    media_items d'
      = map (λ r, if in_doomed (doomed f (media_folders d)) r
                  then set_folder_id None r else r) (media_items d) ∧
    (stats_match d → stats_match d') ∧
    (fk_ok d → fk_ok d') ∧
    (parents_ok (media_folders d) → parents_ok (media_folders d')).
Proof.
  intros [x Hx]. destruct d as [rows fs]. unfold delete_folder. simpl in *.
  rewrite Hx. set (D := doomed f fs).
  rewrite update_where_doomed.
  2:{ intros g Hg. apply map_lookup_filter_None. right. intros y _ Hy. by apply Hy. }
  eexists. split; [reflexivity|]. simpl. split; [done|]. split; [done|].
  split; [|split].
  - intros Hm F r Hr. simpl in *.
    apply map_lookup_filter_Some in Hr as [Hr HF]. simpl in HF.
    destruct (aggregates_after_orphaning D F rows HF) as [-> ->]. by apply Hm.
  - intros Hfk r Hr. simpl in *.
    apply list_elem_of_fmap in Hr as (y & -> & Hy).
    destruct (in_doomed D y) eqn:Hd; [done|].
    specialize (Hfk y Hy). simpl in Hfk. unfold in_doomed in Hd.
    destruct (folder_id y) as [g|]; [|done]. simpl in *.
    apply bool_decide_eq_false in Hd. apply bool_decide_eq_true in Hfk as [z Hz].
    apply bool_decide_eq_true. exists z. by apply map_lookup_filter_Some.
  - intros Hp g r p Hr Hpar.
    apply map_lookup_filter_Some in Hr as [Hr Hg]. simpl in Hg.
    destruct (Hp g r p Hr Hpar) as [z Hz]. exists z.
    apply map_lookup_filter_Some. split; [done|]. simpl. intros HpD. apply Hg.
    eapply (doomed_closed f fs); eauto.
Qed.

Lemma delete_folder_orphans_items_witness :
  ∃ d', delete_folder 2 two_folder_db = Some d' ∧
    media_folders d'
      = filter (λ kv, kv.1 ∉ doomed 2 (media_folders two_folder_db))
               (media_folders two_folder_db) ∧
    media_items d'
      = map (λ r, if in_doomed (doomed 2 (media_folders two_folder_db)) r
                  then set_folder_id None r else r) (media_items two_folder_db) ∧
    (stats_match two_folder_db → stats_match d') ∧
    (fk_ok two_folder_db → fk_ok d') ∧
    (parents_ok (media_folders two_folder_db) → parents_ok (media_folders d')).
Proof.
  apply (delete_folder_orphans_items 2 two_folder_db). vm_compute. eauto.
Defined.

(** Deleting folder 2 of [two_folder_db] takes folder 3 with it and
    leaves items 7 and 8 in the root, folder 1 untouched. *)
Lemma delete_folder_example :
  delete_folder 2 two_folder_db
  = Some (Db [ MediaItem 7 2000000 None "h7" None; MediaItem 8 500 None "h8" None ]
             {[ 1%positive := MediaFolder None 0 0 ]}).
Proof. vm_compute. reflexivity. Qed.

End FolderCascadeFacts.

Module QueueLifecycleFacts.
Import Chunked UploadQueue QueueLifecycle UploadQueueFacts.

Section engine.
Context {js : Engine}.

Lemma lookup_alter_inv (f : item → item) (h : list item) (a b : nat) it :
  alter f a h !! b = Some it →
  ∃ it0, h !! b = Some it0 ∧ ((b = a ∧ it = f it0) ∨ (b ≠ a ∧ it = it0)).
Proof.
  destruct (decide (a = b)) as [->|Hne].
  - rewrite list_lookup_alter_eq. destruct (h !! b) as [it0|]; simpl; [|done].
    intros [= <-]. exists it0. auto.
  - rewrite list_lookup_alter_ne by done. intros H. exists it. auto.
Qed.

Lemma lookup_snoc_inv (h : list item) x b it :
  (h ++ [x]) !! b = Some it →
  h !! b = Some it ∨ (b = length h ∧ it = x).
Proof.
  destruct (decide (b < length h)%nat) as [Hlt|Hge].
  - rewrite lookup_app_l by done. auto.
  - rewrite lookup_app_r by lia.
    destruct (b - length h)%nat as [|n] eqn:Hd; simpl; [|done].
    intros [= <-]. right. split; [lia|done].
Qed.

Lemma status_at_Some (h : list item) (a : nat) s :
  status_at h a = Some s ↔ ∃ it, h !! a = Some it ∧ item_status it = s.
Proof.
  unfold status_at. destruct (h !! a) as [it|]; simpl.
  - split; [intros [= <-]; eauto | intros (it' & [= <-] & <-); done].
  - split; [done | intros (it' & ? & _); done].
Qed.

(** [processQueue] leaves nothing pending behind unless it has an upload
    in flight. *)
Lemma processQueue_drains st : idle_means_drained (processQueue st).
Proof.
  unfold idle_means_drained, processQueue.
  destruct (uploading st) eqn:Hu; [by rewrite Hu|].
  destruct (find _ _) as [a|] eqn:Hfind; [done|].
  intros _ a Ha Hp. apply list_elem_of_In in Ha.
  pose proof (find_none _ _ Hfind a Ha) as Hn.
  by apply bool_decide_eq_false in Hn.
Qed.

Lemma processQueue_item_facts generateId st :
  item_facts generateId st → item_facts generateId (processQueue st).
Proof.
  intros Hfacts. unfold processQueue.
  destruct (uploading st); [done|].
  destruct (find _ _) as [a|] eqn:Hfind; [|done].
  apply find_first in Hfind as (Hpa & _). apply bool_decide_eq_true in Hpa.
  apply status_at_Some in Hpa as (it0 & Hit0 & Hst0).
  destruct Hfacts as [Hrun Hcomp Herr Hids].
  constructor; simpl.
  - intros b [= <-]. left. rewrite status_at_alter_eq, Hit0. done.
  - intros b it Hit Hc.
    apply lookup_alter_inv in Hit as (it1 & Hit1 & [[-> ->]|[_ ->]]); [done|eauto].
  - intros b it Hit.
    apply lookup_alter_inv in Hit as (it1 & Hit1 & [[-> ->]|[_ ->]]); [|eauto].
    rewrite Hit0 in Hit1. injection Hit1 as <-. simpl.
    rewrite <- (Herr a it0 Hit0). rewrite Hst0. split; done.
  - intros b it Hit.
    apply lookup_alter_inv in Hit as (it1 & Hit1 & [[-> ->]|[_ ->]]); simpl; eauto.
Qed.

Lemma push_files_item_facts cfg generateId files h q u r s :
  item_facts generateId (State h q u r s) →
  item_facts generateId (State (push_files cfg generateId files h q).1
                               (push_files cfg generateId files h q).2 u r s).
Proof.
  revert h q. induction files as [|f rest IH]; intros h q Hfacts; simpl; [done|].
  destruct (validateFile cfg f); [|by apply IH].
  apply IH. destruct Hfacts as [Hrun Hcomp Herr Hids]. simpl in *.
  constructor; simpl.
  - intros a Ha. destruct (Hrun a Ha) as [H|H];
      apply status_at_Some in H as (it & Hit & Hs);
      [left|right]; apply status_at_Some; exists it;
      (split; [by apply lookup_app_l_Some|done]).
  - intros a it Hit Hc. apply lookup_snoc_inv in Hit as [Hit|[_ ->]]; [eauto|done].
  - intros a it Hit. apply lookup_snoc_inv in Hit as [Hit|[_ ->]]; [eauto|].
    simpl. split; [done|]. by intros [? ?].
  - intros a it Hit. apply lookup_snoc_inv in Hit as [Hit|[-> ->]]; [eauto|done].
Qed.

(** Updating the item in flight without leaving 'uploading' or
    'processing', and without touching its id or error. *)
Lemma alter_running_item_facts generateId f a st :
  running st = Some a →
  (∀ it, id (f it) = id it) →
  (∀ it, error (f it) = error it) →
  (∀ it, item_status it = Uploading ∨ item_status it = Processing →
         item_status (f it) = Uploading ∨ item_status (f it) = Processing) →
  item_facts generateId st →
  item_facts generateId (State (alter f a (heap st)) (queue st) (uploading st)
                               (running st) (started st)).
Proof.
  intros Ha Hid Herr' Hst [Hrun Hcomp Herr Hids].
  assert (∃ it0, heap st !! a = Some it0 ∧
                 (item_status it0 = Uploading ∨ item_status it0 = Processing))
    as (it0 & Hit0 & Hst0).
  { destruct (Hrun a Ha) as [H|H]; apply status_at_Some in H as (it & ? & ?); eauto. }
  constructor; simpl.
  - intros b Hb. rewrite Ha in Hb. injection Hb as <-.
    rewrite status_at_alter_eq, Hit0. simpl.
    destruct (Hst it0 Hst0) as [-> | ->]; auto.
  - intros b it Hit Hc.
    apply lookup_alter_inv in Hit as (it1 & Hit1 & [[-> ->]|[_ ->]]); [|eauto].
    rewrite Hit0 in Hit1. injection Hit1 as <-.
    destruct (Hst it0 Hst0) as [H|H]; congruence.
  - intros b it Hit.
    apply lookup_alter_inv in Hit as (it1 & Hit1 & [[-> ->]|[_ ->]]); [|eauto].
    rewrite Hit0 in Hit1. injection Hit1 as <-. rewrite Herr'.
    rewrite <- (Herr a it0 Hit0).
    destruct (Hst it0 Hst0) as [H|H]; destruct Hst0 as [H0|H0]; rewrite H, H0; done.
  - intros b it Hit.
    apply lookup_alter_inv in Hit as (it1 & Hit1 & [[-> ->]|[_ ->]]); [|eauto].
    rewrite Hid. eauto.
Qed.

Lemma settle_item_facts generateId result st :
  item_facts generateId st → item_facts generateId (settle result st).
Proof.
  intros Hfacts. unfold settle. destruct (running st) as [a|] eqn:Ha; [|done].
  apply processQueue_item_facts.
  destruct Hfacts as [Hrun Hcomp Herr Hids].
  assert (∃ it0, heap st !! a = Some it0 ∧
                 (item_status it0 = Uploading ∨ item_status it0 = Processing))
    as (it0 & Hit0 & Hst0).
  { destruct (Hrun a Ha) as [H|H]; apply status_at_Some in H as (it & ? & ?); eauto. }
  assert (¬ is_Some (error it0)) as Hnoerr.
  { rewrite <- (Herr a it0 Hit0). destruct Hst0 as [-> | ->]; done. }
  destruct result as [message|]; constructor; simpl; try done.
  - intros b it Hit Hc.
    apply lookup_alter_inv in Hit as (it2 & Hit & [[-> ->]|[_ ->]]).
    + apply lookup_alter_inv in Hit as (it1 & Hit1 & [[_ ->]|[? _]]); done.
    + apply lookup_alter_inv in Hit as (it1 & Hit1 & [[-> ->]|[_ ->]]); [done|eauto].
  - intros b it Hit.
    apply lookup_alter_inv in Hit as (it2 & Hit & [[-> ->]|[Hne ->]]).
    + apply lookup_alter_inv in Hit as (it1 & Hit1 & [[_ ->]|[? _]]); [|done].
      simpl. split; [eauto|done].
    + apply lookup_alter_inv in Hit as (it1 & Hit1 & [[-> _]|[_ ->]]); [done|eauto].
  - intros b it Hit.
    apply lookup_alter_inv in Hit as (it2 & Hit & [[-> ->]|[_ ->]]);
      apply lookup_alter_inv in Hit as (it1 & Hit1 & [[? ->]|[? ->]]); simpl; eauto.
  - intros b it Hit Hc.
    apply lookup_alter_inv in Hit as (it2 & Hit & [[-> ->]|[Hne ->]]); [done|].
    apply lookup_alter_inv in Hit as (it1 & Hit1 & [[-> _]|[_ ->]]); [done|eauto].
  - intros b it Hit.
    apply lookup_alter_inv in Hit as (it2 & Hit & [[-> ->]|[Hne ->]]).
    + apply lookup_alter_inv in Hit as (it1 & Hit1 & [[_ ->]|[? _]]); [|done].
      simpl. rewrite Hit0 in Hit1. injection Hit1 as <-. split; [done|]. intros ?. by destruct Hnoerr.
    + apply lookup_alter_inv in Hit as (it1 & Hit1 & [[-> _]|[_ ->]]); [done|eauto].
  - intros b it Hit.
    apply lookup_alter_inv in Hit as (it2 & Hit & [[-> ->]|[_ ->]]);
      apply lookup_alter_inv in Hit as (it1 & Hit1 & [[? ->]|[? ->]]); simpl; eauto.
Qed.

Lemma step_item_facts cfg generateId st e :
  invariant cfg st →
  item_facts generateId st ∧ idle_means_drained st →
  item_facts generateId (step cfg generateId st e) ∧
  idle_means_drained (step cfg generateId st e).
Proof.
  intros Hinv [Hfacts Hidle]. destruct e as [files|itemId|p| |result]; simpl.
  - split; [|apply processQueue_drains].
    apply processQueue_item_facts, push_files_item_facts. by destruct st.
  - split.
    + destruct Hfacts. by constructor.
    + intros Hu a Ha. apply remove_first_elem_of in Ha. by apply Hidle.
  - destruct (running st) as [a|] eqn:Ha; [|done]. split.
    + rewrite <- Ha. by apply alter_running_item_facts.
    + intros Hu. simpl in Hu. rewrite (inv_flag _ _ Hinv), Ha in Hu.
      by rewrite bool_decide_eq_true_2 in Hu.
  - destruct (running st) as [a|] eqn:Ha; [|done].
    case_bool_decide; [|done]. split.
    + rewrite <- Ha. apply alter_running_item_facts; try done. intros; by right.
    + intros Hu. simpl in Hu. rewrite (inv_flag _ _ Hinv), Ha in Hu.
      by rewrite bool_decide_eq_true_2 in Hu.
  - split; [by apply settle_item_facts|].
    unfold settle. destruct (running st); [apply processQueue_drains|done].
Qed.

Lemma run_item_facts cfg generateId evs st :
  invariant cfg st →
  item_facts generateId st ∧ idle_means_drained st →
  invariant cfg (run cfg generateId evs st) ∧
  item_facts generateId (run cfg generateId evs st) ∧
  idle_means_drained (run cfg generateId evs st).
Proof.
  revert st. induction evs as [|e evs IH]; intros st Hinv H; simpl; [done|].
  apply IH; [by apply step_invariant | by apply step_item_facts].
Qed.

Lemma init_item_facts generateId : item_facts generateId init ∧ idle_means_drained init.
Proof.
  split.
  - constructor; simpl; try done; intros a it; by rewrite lookup_nil.
  - intros _ a Ha. by apply elem_of_nil in Ha.
Qed.

Lemma reachable_facts cfg generateId evs :
  invariant cfg (run cfg generateId evs init) ∧
  item_facts generateId (run cfg generateId evs init) ∧
  idle_means_drained (run cfg generateId evs init).
Proof.
  apply run_item_facts; [apply init_invariant | apply init_item_facts].
Qed.

(** X9: the queue never rests with work left: in every state the page
    reaches, if some queue item is still 'pending' then the [uploading]
    flag is set and an upload is in flight whose item is 'uploading' or
    'processing'. *)
Theorem pending_implies_upload_in_flight cfg generateId evs a :
  a ∈ queue (run cfg generateId evs init) →
  status_at (heap (run cfg generateId evs init)) a = Some Pending →
  uploading (run cfg generateId evs init) = true ∧
  ∃ b, running (run cfg generateId evs init) = Some b ∧
       (status_at (heap (run cfg generateId evs init)) b = Some Uploading ∨
        status_at (heap (run cfg generateId evs init)) b = Some Processing).
Proof.
  intros Ha Hp.
  destruct (reachable_facts cfg generateId evs) as (Hinv & Hfacts & Hidle).
  destruct (uploading _) eqn:Hu; [|by destruct (Hidle Hu a Ha)].
  split; [done|]. rewrite (inv_flag _ _ Hinv) in Hu.
  apply bool_decide_eq_true in Hu as [b Hb]. exists b. split; [done|].
  by apply (if_running _ _ Hfacts).
Qed.

(** X10: in every state the page reaches, an item shown as 'complete'
    stands at 100% and carries no error message, and an item carries an
    error message exactly when its status is 'error'. *)
Theorem finished_items_are_consistent cfg generateId evs a it :
  heap (run cfg generateId evs init) !! a = Some it →
  (item_status it = Complete → progress it = 100 ∧ error it = None) ∧
  (item_status it = Error ↔ is_Some (error it)).
Proof.
  intros Hit.
  destruct (reachable_facts cfg generateId evs) as (_ & Hfacts & _).
  pose proof (if_error _ _ Hfacts a it Hit) as Herr.
  split; [|done]. intros Hc. split; [by apply (if_complete _ _ Hfacts a it)|].
  destruct (error it) eqn:He; [|done].
  assert (item_status it = Error) by (apply Herr; eauto). congruence.
Qed.

Lemma push_files_lookup cfg generateId files (h : list item) q a it :
  h !! a = Some it → (push_files cfg generateId files h q).1 !! a = Some it.
Proof.
  revert h q. induction files as [|f rest IH]; intros h q Hit; simpl; [done|].
  destruct (validateFile cfg f); [|by apply IH].
  apply IH. by apply lookup_app_l_Some.
Qed.

Lemma processQueue_lookup st a it :
  heap st !! a = Some it → item_status it ≠ Pending →
  heap (processQueue st) !! a = Some it.
Proof.
  intros Hit Hs. unfold processQueue. destruct (uploading st); [done|].
  destruct (find _ _) as [b|] eqn:Hfind; [|done]. simpl.
  apply find_first in Hfind as (Hpb & _). apply bool_decide_eq_true in Hpb.
  apply status_at_Some in Hpb as (it' & Hit' & Hs').
  rewrite list_lookup_alter_ne; [done|]. intros ->. congruence.
Qed.

(** X11: once an item is 'complete' or in 'error' nothing changes it
    again: whatever happens next on the page, the item object stays as it
    is (it is not uploaded again, its progress and message stay). *)
Theorem finished_items_never_change cfg generateId evs e a it :
  heap (run cfg generateId evs init) !! a = Some it →
  item_status it = Complete ∨ item_status it = Error →
  heap (step cfg generateId (run cfg generateId evs init) e) !! a = Some it.
Proof.
  intros Hit Hfin.
  destruct (reachable_facts cfg generateId evs) as (_ & Hfacts & _).
  set (st := run cfg generateId evs init) in *.
  assert (item_status it ≠ Pending) as Hnp by (destruct Hfin; congruence).
  assert (∀ b, running st = Some b → b ≠ a) as Hrun.
  { intros b Hb ->. destruct (if_running _ _ Hfacts a Hb) as [H|H];
      apply status_at_Some in H as (it' & Hit' & Hs');
      rewrite Hit in Hit'; injection Hit' as <-; destruct Hfin; congruence. }
  destruct e as [files|itemId|p| |result]; simpl.
  - apply processQueue_lookup; [|done]. simpl. by apply push_files_lookup.
  - done.
  - destruct (running st) as [b|] eqn:Hb; [|done]. simpl.
    rewrite list_lookup_alter_ne; [done|]. by apply Hrun.
  - destruct (running st) as [b|] eqn:Hb; [|done]. case_bool_decide; [|done]. simpl.
    rewrite list_lookup_alter_ne; [done|]. by apply Hrun.
  - unfold settle. destruct (running st) as [b|] eqn:Hb; [|done].
    apply processQueue_lookup; [|done]. simpl.
    destruct result; rewrite !list_lookup_alter_ne; try done; by apply Hrun.
Qed.

Lemma remove_first_split p q :
  (remove_first p q = q ∧ ∀ a, a ∈ q → p a = false) ∨
  ∃ pre a post, q = pre ++ a :: post ∧ p a = true ∧
                (∀ b, b ∈ pre → p b = false) ∧ remove_first p q = pre ++ post.
Proof.
  induction q as [|x q IH]; simpl.
  - left. split; [done|]. intros a Ha. by apply elem_of_nil in Ha.
  - destruct (p x) eqn:Hx.
    + right. exists [], x, q. split; [done|]. split; [done|]. split; [|done].
      intros b Hb. by apply elem_of_nil in Hb.
    + destruct IH as [[-> Hall]|(pre & a & post & -> & Ha & Hpre & ->)].
      * left. split; [done|]. intros a Ha. apply elem_of_cons in Ha as [->|Ha]; auto.
      * right. exists (x :: pre), a, post. split; [done|]. split; [done|].
        split; [|done]. intros b Hb. apply elem_of_cons in Hb as [->|Hb]; auto.
Qed.

Lemma unary_id_length n : String.length (unary_id n) = S n.
Proof. induction n as [|n IH]; simpl; [done|]. by rewrite IH. Qed.

Lemma unary_id_inj m n : unary_id m = unary_id n → m = n.
Proof.
  intros H. apply (f_equal String.length) in H. rewrite !unary_id_length in H. lia.
Qed.

(** X12: when [generateId] never repeats, [cancel(itemId)] takes the item
    with that id out of the queue and nothing else: afterwards no queue
    item has the id, every other queue item is still queued, and the item
    objects and the [uploading] flag are as before (so cancelling the
    item in flight does not let another upload start); with no such item
    in the queue nothing changes. *)
Theorem cancel_removes_exactly_the_item cfg generateId evs itemId :
  (∀ m n, generateId m = generateId n → m = n) →
  let st := run cfg generateId evs init in
  (∀ a, a ∈ queue (cancel itemId st) → id <$> heap st !! a ≠ Some itemId) ∧
  (∀ a, a ∈ queue st → id <$> heap st !! a ≠ Some itemId →
        a ∈ queue (cancel itemId st)) ∧
  heap (cancel itemId st) = heap st ∧
  uploading (cancel itemId st) = uploading st ∧
  running (cancel itemId st) = running st ∧
  ((∀ a, a ∈ queue st → id <$> heap st !! a ≠ Some itemId) → cancel itemId st = st).
Proof.
  intros Hinj st.
  destruct (reachable_facts cfg generateId evs) as (Hinv & Hfacts & _). fold st in Hinv, Hfacts.
  pose proof (sorted_lt_NoDup _ (inv_queue_sorted _ _ Hinv)) as Hnd.
  unfold cancel. simpl.
  set (p := λ a, bool_decide (id <$> heap st !! a = Some itemId)).
  assert (∀ a b, p a = true → p b = true → a = b) as Hone.
  { intros a b Ha Hb. apply bool_decide_eq_true in Ha, Hb.
    destruct (heap st !! a) as [ita|] eqn:Hita; [|done].
    destruct (heap st !! b) as [itb|] eqn:Hitb; [|done].
    simpl in *. apply Hinj.
    rewrite <- (if_ids _ _ Hfacts a ita Hita), <- (if_ids _ _ Hfacts b itb Hitb).
    congruence. }
  destruct (remove_first_split p (queue st))
    as [[Heq Hall]|(pre & a & post & Hq & Hpa & Hpre & Heq)]; rewrite Heq.
  - split; [|split; [done|split; [done|split; [done|split; [done|]]]]].
    + intros b Hb. specialize (Hall b Hb). by apply bool_decide_eq_false in Hall.
    + intros _. by destruct st.
  - rewrite Hq in Hnd. apply NoDup_app in Hnd as (_ & _ & Hnd).
    apply NoDup_cons in Hnd as [Hapost _].
    split; [|split; [|split; [done|split; [done|split; [done|]]]]].
    + intros b Hb Hid. assert (p b = true) as Hpb by (by apply bool_decide_eq_true).
      apply elem_of_app in Hb as [Hb|Hb].
      * apply Hpre in Hb. congruence.
      * rewrite (Hone a b Hpa Hpb) in Hapost. done.
    + intros b Hb Hid. rewrite Hq in Hb.
      apply elem_of_app in Hb as [Hb|Hb]; [apply elem_of_app; by left|].
      apply elem_of_cons in Hb as [->|Hb]; [|apply elem_of_app; by right].
      by apply bool_decide_eq_true in Hpa.
    + intros Hall. exfalso. apply (Hall a); [rewrite Hq|].
      * apply elem_of_app. right. apply list_elem_of_here.
      * by apply bool_decide_eq_true in Hpa.
Qed.

Lemma step_without_settle cfg generateId st e :
  uploading st = true → is_settle e = false →
  uploading (step cfg generateId st e) = true ∧
  started (step cfg generateId st e) = started st ∧
  running (step cfg generateId st e) = running st.
Proof.
  intros Hu He. destruct e as [files|itemId|p| |result]; simpl; try done.
  - unfold addFiles, processQueue. simpl. by rewrite Hu.
  - destruct (running st) eqn:Hr; simpl; by rewrite ?Hr.
  - destruct (running st) eqn:Hr; [|done]. case_bool_decide; simpl; by rewrite ?Hr.
Qed.

(** X13: only the settling of the upload in flight frees the queue.
    From a state with the [uploading] flag set, no sequence of dropping
    files, cancelling, progress reports or 'processing' transitions starts
    another upload or clears the flag; if the awaited upload never
    settles, the queue stays blocked. *)
Theorem queue_blocked_until_settle cfg generateId evs st :
  uploading st = true →
  forallb (λ e, negb (is_settle e)) evs = true →
  uploading (run cfg generateId evs st) = true ∧
  started (run cfg generateId evs st) = started st ∧
  running (run cfg generateId evs st) = running st.
Proof.
  revert st. induction evs as [|e evs IH]; intros st Hu Hevs; simpl; [done|].
  simpl in Hevs. apply andb_prop in Hevs as [He Hevs]. apply negb_true_iff in He.
  destruct (step_without_settle cfg generateId st e Hu He) as (Hu' & Hs' & Hr').
  destruct (IH _ Hu' Hevs) as (-> & -> & ->). done.
Qed.

End engine.

(* The examples run on [ascii_engine]; the names in them are ASCII. *)
#[local] Existing Instance ascii_engine.

Lemma pending_implies_upload_in_flight_witness :
  uploading (run small_config numbered_id cancel_session init) = true ∧
  ∃ b, running (run small_config numbered_id cancel_session init) = Some b ∧
       (status_at (heap (run small_config numbered_id cancel_session init)) b
          = Some Uploading ∨
        status_at (heap (run small_config numbered_id cancel_session init)) b
          = Some Processing).
Proof.
  apply (pending_implies_upload_in_flight small_config numbered_id cancel_session 1%nat).
  - compute_done.
  - vm_compute. reflexivity.
Defined.

Lemma finished_items_are_consistent_witness :
  (item_status (Item "upload_1" small_file Error 0 (Some "boom")) = Complete →
   progress (Item "upload_1" small_file Error 0 (Some "boom")) = 100 ∧
   error (Item "upload_1" small_file Error 0 (Some "boom")) = None) ∧
  (item_status (Item "upload_1" small_file Error 0 (Some "boom")) = Error ↔
   is_Some (error (Item "upload_1" small_file Error 0 (Some "boom")))).
Proof.
  apply (finished_items_are_consistent small_config numbered_id busy_session 1%nat).
  vm_compute. reflexivity.
Defined.

Lemma finished_items_never_change_witness :
  heap (step small_config numbered_id (run small_config numbered_id busy_session init)
             (Settle None)) !! 1%nat
  = Some (Item "upload_1" small_file Error 0 (Some "boom")).
Proof.
  apply (finished_items_never_change small_config numbered_id busy_session).
  - vm_compute. reflexivity.
  - by right.
Defined.

Lemma cancel_removes_exactly_the_item_witness :
  queue (cancel "u" (run small_config unary_id cancel_session init)) = [1%nat] ∧
  ∀ a, a ∈ queue (cancel "u" (run small_config unary_id cancel_session init)) →
       id <$> heap (run small_config unary_id cancel_session init) !! a ≠ Some "u".
Proof.
  split; [vm_compute; reflexivity|].
  exact (proj1 (cancel_removes_exactly_the_item small_config unary_id cancel_session "u"
                  unary_id_inj)).
Defined.

Lemma queue_blocked_until_settle_witness :
  uploading (run small_config numbered_id [AddFiles [small_file]; Cancel "upload_0"]
                 (run small_config numbered_id cancel_session init)) = true ∧
  started (run small_config numbered_id [AddFiles [small_file]; Cancel "upload_0"]
               (run small_config numbered_id cancel_session init))
  = started (run small_config numbered_id cancel_session init) ∧
  running (run small_config numbered_id [AddFiles [small_file]; Cancel "upload_0"]
               (run small_config numbered_id cancel_session init))
  = running (run small_config numbered_id cancel_session init).
Proof.
  apply queue_blocked_until_settle; reflexivity.
Defined.

End QueueLifecycleFacts.

Module ExtensionCheckFacts.
Import Chunked UploadQueue ExtensionCheck UploadQueueFacts.

Section engine.
Context {js : Engine}.

(** X14: on an engine whose [toLowerCase] gives back its own results
    unchanged and puts no dot into a text that has none, as
    [String.prototype.toLowerCase] does, the extension [validateFile]
    looks up is in lower case and contains no dot.  So an
    [allowedExtensions] entry that is not in lower case, or that contains
    a dot, matches no file, and a list made only of such entries rejects
    every file. *)
Theorem extension_is_lowercase_without_dot f :
  (∀ s, toLowerCase (toLowerCase s) = toLowerCase s) →
  (∀ s, has_char "." s = false → has_char "." (toLowerCase s) = false) →
  (toLowerCase (extension f) = extension f ∧ has_char "." (extension f) = false) ∧
  ∀ cfg exts,
    allowedExtensions cfg = Some exts →
    (∀ e, e ∈ exts → toLowerCase e ≠ e ∨ has_char "." e = true) →
    validateFile cfg f = false.
Proof.
  intros Hidem Hnodot.
  assert (toLowerCase (extension f) = extension f ∧ has_char "." (extension f) = false)
    as [Hlow Hdot].
  { destruct (extension_segment f) as (seg & -> & Hseg & _). auto. }
  split; [done|].
  intros cfg exts Hexts Hbad. unfold validateFile. rewrite Hexts.
  destruct (match maxFileSize cfg with Some m => file_size f >? m | None => false end);
    [done|].
  rewrite bool_decide_eq_false_2; [done|]. intros Hin.
  destruct (Hbad _ Hin) as [Hne|Hne]; congruence.
Qed.

End engine.

(* The examples run on [ascii_engine]; the names in them are ASCII. *)
#[local] Existing Instance ascii_engine.

Lemma lower_ascii_idem c : lower_ascii (lower_ascii c) = lower_ascii c.
Proof. destruct c as [[] [] [] [] [] [] [] []]; reflexivity. Qed.

Lemma lower_ascii_dot c : lower_ascii c = "."%char → c = "."%char.
Proof. destruct c as [[] [] [] [] [] [] [] []]; vm_compute; congruence. Qed.

Lemma ascii_toLowerCase_idem s :
  ascii_toLowerCase (ascii_toLowerCase s) = ascii_toLowerCase s.
Proof. induction s as [|c s IH]; simpl; [done|]. by rewrite lower_ascii_idem, IH. Qed.

Lemma ascii_toLowerCase_dot s :
  has_char "." (ascii_toLowerCase s) = has_char "." s.
Proof.
  induction s as [|c s IH]; simpl; [done|]. rewrite IH. f_equal.
  apply bool_decide_ext. split; [apply lower_ascii_dot | by intros ->].
Qed.

Lemma extension_is_lowercase_without_dot_witness :
  validateFile dotted_config (MkFile "photo.jpg" []) = false ∧
  validateFile dotted_config (MkFile "photo.PNG" []) = false.
Proof.
  assert (∀ s, toLowerCase (toLowerCase s) = toLowerCase s) as Hidem
    by apply ascii_toLowerCase_idem.
  assert (∀ s, has_char "." s = false → has_char "." (toLowerCase s) = false) as Hnodot.
  { intros s Hs. simpl. by rewrite ascii_toLowerCase_dot. }
  assert (∀ e, e ∈ [".jpg"; "PNG"] → toLowerCase e ≠ e ∨ has_char "." e = true) as Hbad.
  { intros e He. apply elem_of_cons in He as [->|He]; [by right|].
    apply list_elem_of_singleton in He as ->. by left. }
  split.
  - exact (proj2 (extension_is_lowercase_without_dot (MkFile "photo.jpg" []) Hidem Hnodot)
             dotted_config _ eq_refl Hbad).
  - exact (proj2 (extension_is_lowercase_without_dot (MkFile "photo.PNG" []) Hidem Hnodot)
             dotted_config _ eq_refl Hbad).
Defined.

End ExtensionCheckFacts.

Module ChunkedFailuresFacts.
Import Chunked ChunkedFailures.

Lemma upload_chunks_only_chunks indices C f uid srv x :
  x ∈ (upload_chunks indices C f uid srv).1 →
  ∃ i, i ∈ indices ∧ x = UploadChunk uid i (chunk_of C f i).
Proof.
  induction indices as [|i rest IH]; simpl; [by intros ?%elem_of_nil|].
  destruct (chunk_response srv i); simpl; intros Hx.
  - apply elem_of_cons in Hx as [->|Hx].
    + exists i. split; [apply list_elem_of_here|done].
    + destruct (IH Hx) as (j & Hj & ->). exists j. split; [|done].
      by apply list_elem_of_further.
  - apply list_elem_of_singleton in Hx as ->.
    exists i. split; [apply list_elem_of_here|done].
Qed.

Lemma upload_chunks_all_sent indices C f uid srv :
  (upload_chunks indices C f uid srv).2 = true →
  ∀ i, i ∈ indices → chunk_response srv i = true.
Proof.
  induction indices as [|i rest IH]; simpl; [by intros _ ? ?%elem_of_nil|].
  destruct (chunk_response srv i) eqn:Hi; simpl; [|done].
  intros H j Hj. apply elem_of_cons in Hj as [->|Hj]; auto.
Qed.

Lemma upload_chunks_first_refusal pre k post C f uid srv :
  (∀ i, i ∈ pre → chunk_response srv i = true) →
  chunk_response srv k = false →
  upload_chunks (pre ++ k :: post) C f uid srv
  = (map (λ i, UploadChunk uid i (chunk_of C f i)) (pre ++ [k]), false).
Proof.
  intros Hpre Hk. induction pre as [|i pre IH]; simpl.
  - by rewrite Hk.
  - rewrite (Hpre i) by apply list_elem_of_here.
    rewrite IH; [done|]. intros j Hj. apply Hpre. by apply list_elem_of_further.
Qed.

(** X15: [uploadChunked] asks the server to complete an upload only
    after the initialisation was answered with that upload id and every
    one of the announced chunks was accepted; in that case its result is
    the server's answer to the completion, and in every other case it
    has no result. *)
Theorem complete_only_after_all_chunks chunkSize f folderId srv :
  let N := Math_ceil_div (file_size f) (effective_chunk_size chunkSize) in
  (∀ u, CompleteChunkedUpload u ∈ (uploadChunked chunkSize f folderId srv).1 →
        init_response srv = Some u ∧
        (∀ i, 0 ≤ i < N → chunk_response srv i = true) ∧
        (uploadChunked chunkSize f folderId srv).2 = complete_response srv) ∧
  ((∀ u, CompleteChunkedUpload u ∉ (uploadChunked chunkSize f folderId srv).1) →
   (uploadChunked chunkSize f folderId srv).2 = None).
Proof.
  intros N. unfold uploadChunked. fold N.
  destruct (init_response srv) as [uid|]; simpl.
  2:{ split; [|done]. intros u Hu. apply list_elem_of_singleton in Hu. done. }
  destruct (upload_chunks (seqZ 0 N) _ f uid srv) as [tr ok] eqn:Hup. simpl.
  destruct ok; simpl.
  - split.
    + intros u Hu. apply elem_of_cons in Hu as [Hu|Hu]; [done|].
      apply elem_of_app in Hu as [Hu|Hu].
      * pose proof (upload_chunks_only_chunks (seqZ 0 N) (effective_chunk_size chunkSize) f uid srv
                      (CompleteChunkedUpload u)) as H.
        rewrite Hup in H. destruct (H Hu) as (i & _ & Hi). done.
      * apply list_elem_of_singleton in Hu as [= ->]. split; [done|]. split; [|done].
        intros i Hi.
        pose proof (upload_chunks_all_sent (seqZ 0 N) (effective_chunk_size chunkSize) f uid srv) as H.
        rewrite Hup in H. apply (H eq_refl). apply elem_of_seqZ. lia.
    + intros Hno. exfalso. apply (Hno uid).
      apply list_elem_of_further, elem_of_app. right. apply list_elem_of_here.
  - split; [|done]. intros u Hu. apply elem_of_cons in Hu as [Hu|Hu]; [done|].
    pose proof (upload_chunks_only_chunks (seqZ 0 N) (effective_chunk_size chunkSize) f uid srv
                  (CompleteChunkedUpload u)) as H.
    rewrite Hup in H. destruct (H Hu) as (i & _ & Hi). done.
Qed.

(** X16: when chunk [k] is the first one the server refuses,
    [uploadChunked] has sent the initialisation and the chunks [0] to
    [k], sends no later chunk and no completion, and has no result: the
    upload is left unfinished on the server, without a cancel request. *)
Theorem stops_at_first_refused_chunk C f folderId srv uploadId k :
  0 < C →
  init_response srv = Some uploadId →
  0 ≤ k < Math_ceil_div (file_size f) C →
  (∀ i, 0 ≤ i < k → chunk_response srv i = true) →
  chunk_response srv k = false →
  uploadChunked (Some C) f folderId srv
  = (InitChunkedUpload (name f) (file_size f) C (Math_ceil_div (file_size f) C) folderId
       :: map (λ i, UploadChunk uploadId i (chunk_of C f i)) (seqZ 0 (k + 1)),
     None).
Proof.
  intros HC Hinit Hk Hpre Hrej. unfold uploadChunked, effective_chunk_size.
  rewrite (proj2 (Z.eqb_neq C 0)) by lia. rewrite Hinit.
  set (N := Math_ceil_div (file_size f) C) in *.
  assert (∀ n, seqZ (0 + k) 1 = [k] ∧ (0 ≤ n → seqZ 0 (k + (1 + n)) = seqZ 0 k ++ k :: seqZ (0 + k + 1) n))
    as Hseq.
  { intros n. assert (seqZ (0 + k) 1 = [k]) as H1 by (unfold seqZ; simpl; f_equal; lia).
    split; [done|]. intros Hn. rewrite seqZ_app by lia. rewrite (seqZ_app _ 1) by lia.
    by rewrite H1. }
  replace (seqZ 0 N) with (seqZ 0 (k + (1 + (N - k - 1)))) by (f_equal; lia).
  rewrite (proj2 (Hseq (N - k - 1))) by lia.
  rewrite upload_chunks_first_refusal;
    [|by intros i Hi%elem_of_seqZ; apply Hpre; lia|done].
  simpl. rewrite seqZ_app by lia. by rewrite (proj1 (Hseq 0)).
Qed.

Lemma stops_at_first_refused_chunk_witness :
  uploadChunked (Some 2) five_bytes None refusing_server
  = ([ InitChunkedUpload "clip.bin" 5 2 3 None;
       UploadChunk "u1" 0 [Byte.x01; Byte.x02];
       UploadChunk "u1" 1 [Byte.x03; Byte.x04] ],
     None).
Proof.
  exact (stops_at_first_refused_chunk 2 five_bytes None refusing_server "u1" 1
           ltac:(lia) eq_refl ltac:(vm_compute; split; congruence)
           ltac:(intros i Hi; assert (i = 0) as -> by lia; reflexivity) eq_refl).
Defined.

End ChunkedFailuresFacts.

Module HttpFacts.
Import Chunked FolderDelete Http.

(** X17: [uploadChunk] does not look at the HTTP status.  When the
    initialisation succeeds and every chunk request is answered with a
    JSON body, be it with an error status, [uploadChunked] sends every
    chunk and then the completion, exactly as if each chunk had been
    stored. *)
Theorem chunk_errors_with_json_body_are_ignored C f folderId init chunks complete m u :
  0 < C →
  request init = Fulfilled (JsonValue m u) →
  (∀ i, ∃ resp, chunks i = Answered resp ∧ ∀ e, body resp ≠ NotJson e) →
  (uploadChunked (Some C) f folderId (server_of init chunks complete)).1
  = InitChunkedUpload (name f) (file_size f) C (Math_ceil_div (file_size f) C) folderId
      :: map (λ i, UploadChunk (template u) i (chunk_of C f i))
             (seqZ 0 (Math_ceil_div (file_size f) C))
      ++ [CompleteChunkedUpload (template u)].
Proof.
  intros HC Hinit Hchunks. unfold uploadChunked, effective_chunk_size.
  rewrite (proj2 (Z.eqb_neq C 0)) by lia.
  unfold server_of at 1. cbn [init_response]. rewrite Hinit.
  rewrite ChunkedFacts.upload_chunks_all_ok; [done|].
  intros i. simpl. destruct (Hchunks i) as (resp & -> & Hbody). simpl.
  destruct (body resp) as [e| |]; [by destruct (Hbody e)|done..].
Qed.

Lemma chunk_errors_with_json_body_are_ignored_witness :
  (uploadChunked (Some 2) five_bytes None
                 (server_of init_ok failing_chunks complete_ok)).1
  = [ InitChunkedUpload "clip.bin" 5 2 3 None;
      UploadChunk "u1" 0 [Byte.x01; Byte.x02];
      UploadChunk "u1" 1 [Byte.x03; Byte.x04];
      UploadChunk "u1" 2 [Byte.x05];
      CompleteChunkedUpload "u1" ].
Proof.
  apply (chunk_errors_with_json_body_are_ignored 2 five_bytes None init_ok failing_chunks
           complete_ok None (Some (js_string "u1"))).
  - lia.
  - reflexivity.
  - intros i. eexists. split; [reflexivity|]. intros e. discriminate.
Defined.

(** X18: over HTTP, [deleteFolder] sends the forced request exactly when
    the user confirms both prompts and the first request fails with a
    message containing "not empty"; an error answer whose JSON body has a
    non-empty string [message] fails with that very message, and a first
    request answered with a success status and a JSON body is never
    followed by a second request. *)
Theorem deleteFolder_http_forces_on_not_empty folderId c1 c2 r1 r2 :
  (ApiDeleteFolder folderId true ∈ deleteFolder_http folderId c1 c2 r1 r2 ↔
   c1 = true ∧ c2 = true ∧
   ∃ message, request r1 = Failed message ∧ includes "not empty" message = true) ∧
  (∀ st text u, text ≠ EmptyString →
     request (Answered (Response false st (JsonValue (Some (js_string text)) u)))
     = Failed text) ∧
  (∀ resp, r1 = Answered resp → ok resp = true → (∀ e, body resp ≠ NotJson e) →
     delete_requests (deleteFolder_http folderId c1 c2 r1 r2)
     = if c1 then [ApiDeleteFolder folderId false] else []).
Proof.
  unfold deleteFolder_http, deleteFolder. simpl. split; [|split].
  - split.
    + intros Hin. destruct c1; simpl in Hin; [|FolderDeleteFacts.elem_cases Hin].
      destruct (request r1) as [v|message]; simpl in Hin;
        [FolderDeleteFacts.elem_cases Hin|].
      destruct (includes "not empty" message) eqn:Hinc; simpl in Hin;
        [|FolderDeleteFacts.elem_cases Hin].
      destruct c2; simpl in Hin; [|FolderDeleteFacts.elem_cases Hin].
      split; [done|]. split; [done|]. by exists message.
    + intros (-> & -> & message & -> & Hinc). simpl. rewrite Hinc.
      do 3 apply list_elem_of_further. apply list_elem_of_here.
  - intros st text u Htext. simpl. unfold message_or, js_string. simpl.
    by rewrite bool_decide_eq_false_2.
  - intros resp -> Hok Hbody. simpl. rewrite Hok.
    destruct (body resp) as [e| |]; [by destruct (Hbody e)| |]; by destruct c1.
Qed.

Lemma deleteFolder_http_forces_on_not_empty_witness :
  ApiDeleteFolder "f7" true ∈ deleteFolder_http "f7" true true conflict_answer complete_ok.
Proof.
  apply (proj1 (deleteFolder_http_forces_on_not_empty "f7" true true conflict_answer
                  complete_ok)).
  split; [done|]. split; [done|]. exists "Folder is not empty". split; reflexivity.
Defined.

(** X19: the promise of [uploadSimple] is fulfilled exactly on a [load]
    with a status from 200 to 299 and a JSON body, and it stays pending
    for ever exactly on a [load] whose body is not JSON, on an error
    status with the body [null], and on an event without listener; in
    these cases [processQueue] never gets past its [await]. *)
Theorem uploadSimple_settles_on_json_only ev :
  ((∃ v, uploadSimple ev = Settled (Fulfilled v)) ↔
   ∃ status text, ev = XhrLoad status text ∧ 200 ≤ status < 300 ∧
                  ∀ e, text ≠ NotJson e) ∧
  (uploadSimple ev = NeverSettles ↔
   ev = XhrUnheard ∨
   ∃ status text, ev = XhrLoad status text ∧
     ((∃ e, text = NotJson e) ∨
      (¬ (200 ≤ status < 300) ∧ ∃ e, text = JsonNull e))).
Proof.
  destruct ev as [status text| |]; simpl.
  - assert ((200 <=? status) && (status <? 300) = true ↔ 200 ≤ status < 300) as Hr
      by (by rewrite andb_true_iff, Z.leb_le, Z.ltb_lt).
    destruct ((200 <=? status) && (status <? 300)) eqn:H2.
    + assert (200 ≤ status < 300) as Hin by (by apply Hr).
      destruct text as [e|e|m u]; (split; split).
      * intros [v Hv]. discriminate Hv.
      * intros (s0 & t & [= <- <-] & _ & Ht). by destruct (Ht e).
      * intros _. right. eexists _, _. split; [reflexivity|]. left. by exists e.
      * done.
      * intros _. eexists _, _. split; [reflexivity|]. split; [done|]. intros ?; discriminate.
      * intros _. by eexists.
      * discriminate.
      * intros [H|(s0 & t & [= <- <-] & [[e' He']|[Hn _]])]; [discriminate..|by destruct Hn].
      * intros _. eexists _, _. split; [reflexivity|]. split; [done|]. intros ?; discriminate.
      * intros _. by eexists.
      * discriminate.
      * intros [H|(s0 & t & [= <- <-] & [[e' He']|[Hn _]])]; [discriminate..|by destruct Hn].
    + assert (¬ (200 ≤ status < 300)) as Hout by (intros Hin; apply Hr in Hin; discriminate).
      destruct text as [e|e|m u]; (split; split).
      * intros [v Hv]. discriminate Hv.
      * intros (s0 & t & [= <- <-] & Hin & _). by destruct Hout.
      * intros _. right. eexists _, _. split; [reflexivity|]. left. by exists e.
      * done.
      * intros [v Hv]. discriminate Hv.
      * intros (s0 & t & [= <- <-] & Hin & _). by destruct Hout.
      * intros _. right. eexists _, _. split; [reflexivity|]. right. split; [done|]. by exists e.
      * done.
      * intros [v Hv]. discriminate Hv.
      * intros (s0 & t & [= <- <-] & Hin & _). by destruct Hout.
      * discriminate.
      * intros [H|(s0 & t & [= <- <-] & [[e' He']|[_ [e' He']]])]; discriminate.
  - split; split.
    + intros [v Hv]. discriminate Hv.
    + intros (s0 & t & H & _). discriminate H.
    + discriminate.
    + intros [H|(s0 & t & H & _)]; discriminate H.
  - split; split.
    + intros [v Hv]. discriminate Hv.
    + intros (s0 & t & H & _). discriminate H.
    + intros _. by left.
    + done.
Qed.

Lemma uploadSimple_settles_on_json_only_witness :
  uploadSimple (XhrLoad 502 (NotJson "Unexpected token")) = NeverSettles.
Proof.
  apply (proj2 (uploadSimple_settles_on_json_only (XhrLoad 502 (NotJson "Unexpected token")))).
  right. eexists _, _. split; [reflexivity|]. left. by eexists.
Defined.

End HttpFacts.

Module AdminActionsFacts.
Import Http AdminActions.

Lemma delete_each_all_ok ids permanent k answers :
  (∀ j, (j < length ids)%nat → is_fulfilled (request (answers (k + j)%nat)) = true) →
  delete_each ids permanent k answers
  = (map (λ id, ApiDeleteMedia id permanent) ids, None).
Proof.
  revert k. induction ids as [|id rest IH]; intros k Hok; simpl; [done|].
  pose proof (Hok 0%nat ltac:(simpl; lia)) as H0. rewrite Nat.add_0_r in H0.
  destruct (request (answers k)); [|done].
  rewrite IH; [done|]. intros j Hj.
  replace (S k + j)%nat with (k + S j)%nat by lia. apply Hok. simpl. lia.
Qed.

Lemma delete_each_first_failure ids permanent k answers n message :
  (n < length ids)%nat →
  (∀ j, (j < n)%nat → is_fulfilled (request (answers (k + j)%nat)) = true) →
  request (answers (k + n)%nat) = Failed message →
  delete_each ids permanent k answers
  = (map (λ id, ApiDeleteMedia id permanent) (take (S n) ids), Some message).
Proof.
  revert k n. induction ids as [|id rest IH]; intros k n Hn Hok Hfail; simpl in *; [lia|].
  destruct n as [|n].
  - rewrite Nat.add_0_r in Hfail. rewrite Hfail. by rewrite take_0.
  - pose proof (Hok 0%nat ltac:(lia)) as H0. rewrite Nat.add_0_r in H0.
    destruct (request (answers k)); [|done].
    rewrite (IH (S k) n); [done|lia| |].
    + intros j Hj. replace (S k + j)%nat with (k + S j)%nat by lia. apply Hok. lia.
    + by replace (S k + n)%nat with (k + S n)%nat by lia.
Qed.

(** X20: [Actions.delete] sends its requests one at a time in the order
    of [ids] and stops at the first one that fails.  If every request
    succeeds all items are requested and the page reloads; if the request
    of position [n] is the first to fail, the items before it have been
    deleted, it and the items after it have not, no further request is
    sent, and the page shows the error without reloading; without
    confirmation nothing is sent. *)
Theorem delete_stops_at_first_failure ids permanent answers :
  ((∀ j, (j < length ids)%nat → is_fulfilled (request (answers j)) = true) →
   delete ids permanent true answers
   = Confirm ("Delete " +:+ count_text (length ids) +:+ "?")
       :: map (λ id, ApiDeleteMedia id (default false permanent)) ids
       ++ [ToastSuccess ("Deleted " +:+ count_text (length ids)); Reload]) ∧
  (∀ n message,
     (n < length ids)%nat →
     (∀ j, (j < n)%nat → is_fulfilled (request (answers j)) = true) →
     request (answers n) = Failed message →
     delete ids permanent true answers
     = Confirm ("Delete " +:+ count_text (length ids) +:+ "?")
         :: map (λ id, ApiDeleteMedia id (default false permanent)) (take (S n) ids)
         ++ [ToastError message]) ∧
  delete ids permanent false answers
  = [Confirm ("Delete " +:+ count_text (length ids) +:+ "?")].
Proof.
  unfold delete. split; [|split; [|done]].
  - intros Hok. by rewrite delete_each_all_ok.
  - intros n message Hn Hok Hfail.
    by rewrite (delete_each_first_failure ids _ 0 answers n message).
Qed.

Lemma delete_stops_at_first_failure_witness :
  delete ["a"; "b"; "c"] None true second_refused
  = [ Confirm "Delete 3 item(s)?"; ApiDeleteMedia "a" false; ApiDeleteMedia "b" false;
      ToastError "Media not found" ].
Proof.
  apply (proj1 (proj2 (delete_stops_at_first_failure ["a"; "b"; "c"] None second_refused))
           1%nat "Media not found").
  - simpl. lia.
  - intros j Hj. assert (j = 0%nat) as -> by lia. reflexivity.
  - reflexivity.
Defined.

Lemma delete_each_flag ids permanent k answers x :
  x ∈ (delete_each ids permanent k answers).1 →
  ∃ id, id ∈ ids ∧ x = ApiDeleteMedia id permanent.
Proof.
  revert k. induction ids as [|id rest IH]; intros k; simpl; [by intros ?%elem_of_nil|].
  destruct (request (answers k)); simpl; intros Hx.
  - apply elem_of_cons in Hx as [->|Hx].
    + exists id. split; [apply list_elem_of_here|done].
    + destruct (IH _ Hx) as (i & Hi & ->). exists i. split; [|done].
      by apply list_elem_of_further.
  - apply list_elem_of_singleton in Hx as ->.
    exists id. split; [apply list_elem_of_here|done].
Qed.

(** X21: [bulkDelete] never asks for a permanent deletion and never
    touches an item that is not selected: every request it sends is a soft
    delete of a selected id; with an empty selection it only shows a
    warning, without prompt or request. *)
Theorem bulkDelete_only_soft_deletes_selected sel confirmed answers :
  (∀ id permanent, ApiDeleteMedia id permanent ∈ bulkDelete sel confirmed answers →
                   permanent = false ∧ id ∈ sel) ∧
  (sel = [] → bulkDelete sel confirmed answers = [ToastWarning "No items selected"]).
Proof.
  unfold bulkDelete, getSelected. split.
  - intros id permanent Hin. case_bool_decide as Hlen.
    { apply list_elem_of_singleton in Hin. done. }
    unfold delete in Hin. simpl in Hin.
    apply elem_of_cons in Hin as [Hin|Hin]; [done|].
    destruct confirmed; [|by apply elem_of_nil in Hin].
    apply elem_of_app in Hin as [Hin|Hin].
    + apply delete_each_flag in Hin as (i & Hi & [= -> ->]). done.
    + destruct (delete_each sel false 0 answers).2; simpl in Hin.
      * apply list_elem_of_singleton in Hin. done.
      * apply elem_of_cons in Hin as [Hin|Hin]; [done|].
        apply list_elem_of_singleton in Hin. done.
  - by intros ->.
Qed.

Lemma set_add_NoDup x sel : NoDup sel → NoDup (set_add x sel).
Proof.
  intros Hnd. unfold set_add. case_bool_decide as Hin; [done|].
  apply NoDup_app. split; [done|]. split; [|apply NoDup_singleton].
  intros y Hy Hy'. by apply list_elem_of_singleton in Hy' as ->.
Qed.

Lemma selectAll_elem_of page sel y :
  y ∈ selectAll page sel ↔ y ∈ sel ∨ y ∈ page.
Proof.
  unfold selectAll. revert sel. induction page as [|x page IH]; intros sel; simpl.
  - split; [auto|]. intros [?|H]; [done|]. by apply elem_of_nil in H.
  - rewrite IH. unfold set_add. rewrite elem_of_cons. case_bool_decide as Hin.
    + split; [intros [?|?]; auto|]. intros [?|[->|?]]; auto.
    + rewrite elem_of_app, list_elem_of_singleton.
      split; [intros [[?|?]|?]; auto|]. intros [?|[?|?]]; auto.
Qed.

(** X22: the selection never holds an id twice, whatever sequence of
    [toggle] and [selectAll] built it; [toggle] flips the membership of
    its id and of no other; toggling an id twice gives back the same set
    of ids; and after [selectAll] exactly the earlier selection and the
    items of the page are selected. *)
Theorem selection_behaves_as_a_set x sel page :
  NoDup sel →
  NoDup (toggle x sel) ∧ NoDup (selectAll page sel) ∧
  (x ∈ toggle x sel ↔ x ∉ sel) ∧
  (∀ y, y ≠ x → (y ∈ toggle x sel ↔ y ∈ sel)) ∧
  toggle x (toggle x sel) ≡ₚ sel ∧
  (∀ y, y ∈ selectAll page sel ↔ y ∈ sel ∨ y ∈ page).
Proof.
  intros Hnd.
  assert (∀ s, NoDup s → NoDup (toggle x s)) as Htog.
  { intros s Hs. unfold toggle. case_bool_decide.
    - unfold set_delete. by apply NoDup_filter.
    - by apply set_add_NoDup. }
  assert (∀ s, x ∈ toggle x s ↔ x ∉ s) as Hflip.
  { intros s. unfold toggle, set_add, set_delete. case_bool_decide as Hin.
    - rewrite list_elem_of_filter. split; [by intros [? _]|done].
    - rewrite elem_of_app, list_elem_of_singleton. split; [done|auto]. }
  assert (∀ s y, y ≠ x → (y ∈ toggle x s ↔ y ∈ s)) as Hother.
  { intros s y Hy. unfold toggle, set_add, set_delete. case_bool_decide as Hin.
    - rewrite list_elem_of_filter. split; [by intros [_ ?]|done].
    - rewrite elem_of_app, list_elem_of_singleton. split; [intros [?|?]; done|auto]. }
  split; [by apply Htog|]. split.
  { unfold selectAll. revert sel Hnd. induction page as [|y page IH]; intros sel Hnd;
      simpl; [done|]. by apply IH, set_add_NoDup. }
  split; [apply Hflip|]. split; [apply Hother|]. split; [|apply selectAll_elem_of].
  apply NoDup_Permutation; [by apply Htog, Htog|done|].
  intros y. destruct (decide (y = x)) as [->|Hne].
  - rewrite Hflip, Hflip. split; [|auto]. intros H. by apply dec_stable.
  - by rewrite !Hother.
Qed.

Lemma selection_behaves_as_a_set_witness :
  toggle "b" (toggle "b" ["a"; "b"; "c"]) = ["a"; "c"; "b"] ∧
  toggle "b" (toggle "b" ["a"; "b"; "c"]) ≡ₚ ["a"; "b"; "c"].
Proof.
  split; [vm_compute; reflexivity|].
  apply (selection_behaves_as_a_set "b" ["a"; "b"; "c"] []). compute_done.
Defined.

Lemma move_each_all_ok ids folderId k answers :
  (∀ j, (j < length ids)%nat → is_fulfilled (request (answers (k + j)%nat)) = true) →
  move_each ids folderId k answers
  = (map (λ id, ApiMoveMedia id folderId) ids, None).
Proof.
  revert k. induction ids as [|id rest IH]; intros k Hok; simpl; [done|].
  pose proof (Hok 0%nat ltac:(simpl; lia)) as H0. rewrite Nat.add_0_r in H0.
  destruct (request (answers k)); [|done].
  rewrite IH; [done|]. intros j Hj.
  replace (S k + j)%nat with (k + S j)%nat by lia. apply Hok. simpl. lia.
Qed.

Lemma move_each_first_failure ids folderId k answers n message :
  (n < length ids)%nat →
  (∀ j, (j < n)%nat → is_fulfilled (request (answers (k + j)%nat)) = true) →
  request (answers (k + n)%nat) = Failed message →
  move_each ids folderId k answers
  = (map (λ id, ApiMoveMedia id folderId) (take (S n) ids), Some message).
Proof.
  revert k n. induction ids as [|id rest IH]; intros k n Hn Hok Hfail; simpl in *; [lia|].
  destruct n as [|n].
  - rewrite Nat.add_0_r in Hfail. rewrite Hfail. by rewrite take_0.
  - pose proof (Hok 0%nat ltac:(lia)) as H0. rewrite Nat.add_0_r in H0.
    destruct (request (answers k)); [|done].
    rewrite (IH (S k) n); [done|lia| |].
    + intros j Hj. replace (S k + j)%nat with (k + S j)%nat by lia. apply Hok. lia.
    + by replace (S k + n)%nat with (k + S n)%nat by lia.
Qed.

(** X23: [Actions.move] moves the items one request at a time, in order,
    without asking for confirmation.  If the request of position [n] is
    the first to fail, the items before it are in the new folder, it and
    the items after it are where they were, and the page shows the error
    without reloading; if none fails every item is moved and the page
    reloads. *)
Theorem move_stops_at_first_failure ids folderId answers :
  ((∀ j, (j < length ids)%nat → is_fulfilled (request (answers j)) = true) →
   move ids folderId answers
   = map (λ id, ApiMoveMedia id folderId) ids
     ++ [ToastSuccess ("Moved " +:+ count_text (length ids)); Reload]) ∧
  (∀ n message,
     (n < length ids)%nat →
     (∀ j, (j < n)%nat → is_fulfilled (request (answers j)) = true) →
     request (answers n) = Failed message →
     move ids folderId answers
     = map (λ id, ApiMoveMedia id folderId) (take (S n) ids) ++ [ToastError message]).
Proof.
  unfold move. split.
  - intros Hok. by rewrite move_each_all_ok.
  - intros n message Hn Hok Hfail.
    by rewrite (move_each_first_failure ids _ 0 answers n message).
Qed.

Lemma move_stops_at_first_failure_witness :
  move ["a"; "b"; "c"] "f2" second_refused
  = [ ApiMoveMedia "a" "f2"; ApiMoveMedia "b" "f2"; ToastError "Media not found" ].
Proof.
  apply (proj2 (move_stops_at_first_failure ["a"; "b"; "c"] "f2" second_refused)
           1%nat "Media not found").
  - simpl. lia.
  - intros j Hj. assert (j = 0%nat) as -> by lia. reflexivity.
  - reflexivity.
Defined.

End AdminActionsFacts.

Module ViewsFacts.
Import FolderStats Views.

Lemma block_fst m thumbs p : p ∈ block m thumbs → p.1 = m.
Proof.
  unfold block. destruct (thumbs_of m thumbs) as [|t ts].
  - by intros ->%list_elem_of_singleton.
  - intros (t' & -> & _)%list_elem_of_fmap. done.
Qed.

Lemma block_nonempty m thumbs : ∃ t rest, block m thumbs = (m, t) :: rest.
Proof. unfold block. destruct (thumbs_of m thumbs); simpl; eauto. Qed.

Lemma block_agg m thumbs :
  coalesce_array (json_agg_filter (block m thumbs))
  = map json_build_object (thumbs_of m thumbs).
Proof.
  assert (∀ l : list media_thumbnail,
            omap (λ p : media_item * option media_thumbnail, json_build_object <$> p.2)
                 (map (λ t, (m, Some t)) l)
            = map json_build_object l) as Hall.
  { induction l as [|x l IH]; simpl; [done|]. f_equal. exact IH. }
  unfold block, json_agg_filter. destruct (thumbs_of m thumbs) as [|t ts]; [done|].
  cbv beta iota. by rewrite Hall.
Qed.

Lemma filter_all {A} (P : A → Prop) `{∀ x, Decision (P x)} (l : list A) :
  (∀ x, x ∈ l → P x) → filter P l = l.
Proof.
  induction l as [|x l IH]; intros Hl; [done|].
  rewrite filter_cons_True by (apply Hl, list_elem_of_here).
  rewrite IH; [done|]. intros y Hy. by apply Hl, list_elem_of_further.
Qed.

Lemma filter_none {A} (P : A → Prop) `{∀ x, Decision (P x)} (l : list A) :
  (∀ x, x ∈ l → ¬ P x) → filter P l = [].
Proof.
  induction l as [|x l IH]; intros Hl; [done|].
  rewrite filter_cons_False by (apply Hl, list_elem_of_here).
  apply IH. intros y Hy. by apply Hl, list_elem_of_further.
Qed.

Lemma left_join_cons m items thumbs :
  left_join (m :: items) thumbs = block m thumbs ++ left_join items thumbs.
Proof. reflexivity. Qed.

(** [WHERE] on a column of [m] commutes with the join. *)
Lemma where_live_join items thumbs :
  filter (λ p, deleted_at p.1 = None) (left_join items thumbs)
  = left_join (filter (λ m, deleted_at m = None) items) thumbs.
Proof.
  induction items as [|m items IH]; [done|].
  rewrite left_join_cons, filter_app, IH, filter_cons.
  destruct (decide (deleted_at m = None)) as [Hm|Hm].
  - rewrite left_join_cons. f_equal.
    apply filter_all. intros p Hp. by rewrite (block_fst _ _ _ Hp).
  - rewrite filter_none; [done|]. intros p Hp. by rewrite (block_fst _ _ _ Hp).
Qed.

Lemma left_join_fst items thumbs p : p ∈ left_join items thumbs → p.1 ∈ items.
Proof.
  induction items as [|m items IH]; [by intros ?%elem_of_nil|].
  rewrite left_join_cons. intros [Hp|Hp]%elem_of_app.
  - rewrite (block_fst _ _ _ Hp). apply list_elem_of_here.
  - by apply list_elem_of_further, IH.
Qed.

Lemma group_of items thumbs m :
  NoDup (map id items) → m ∈ items →
  filter (λ p, id p.1 = id m) (left_join items thumbs) = block m thumbs.
Proof.
  induction items as [|x items IH]; intros Hnd Hm;
    [by apply elem_of_nil in Hm|].
  rewrite left_join_cons. change (map id (x :: items)) with (id x :: map id items) in Hnd.
  apply NoDup_cons in Hnd as [Hx Hnd].
  rewrite filter_app. apply elem_of_cons in Hm as [->|Hm].
  - rewrite filter_all by (intros p Hp; by rewrite (block_fst _ _ _ Hp)).
    rewrite filter_none; [by rewrite app_nil_r|].
    intros p Hp Hid. apply Hx. rewrite <- Hid.
    apply list_elem_of_fmap. exists p.1. split; [done|]. by apply (left_join_fst _ thumbs).
  - rewrite (filter_none _ (block x thumbs)).
    + by rewrite IH.
    + intros p Hp Hid. rewrite (block_fst _ _ _ Hp) in Hid. apply Hx. rewrite Hid.
      apply list_elem_of_fmap. by exists m.
Qed.

Lemma remove_dups_cons_in (x : positive) l :
  x ∈ l → remove_dups (x :: l) = remove_dups l.
Proof. intros Hx. simpl. by destruct (decide_rel elem_of x l). Qed.

Lemma remove_dups_cons_notin (x : positive) l :
  x ∉ l → remove_dups (x :: l) = x :: remove_dups l.
Proof. intros Hx. simpl. by destruct (decide_rel elem_of x l). Qed.

Lemma remove_dups_block (k : positive) n rest :
  k ∉ rest → remove_dups (replicate (S n) k ++ rest) = k :: remove_dups rest.
Proof.
  intros Hk. induction n as [|n IH].
  - by apply remove_dups_cons_notin.
  - change (replicate (S (S n)) k ++ rest) with (k :: (replicate (S n) k ++ rest)).
    rewrite remove_dups_cons_in; [exact IH|]. apply list_elem_of_here.
Qed.

Lemma group_keys items thumbs :
  NoDup (map id items) →
  remove_dups (map (λ p, id p.1) (left_join items thumbs)) = map id items.
Proof.
  induction items as [|m items IH]; intros Hnd; [done|].
  rewrite left_join_cons. change (map id (m :: items)) with (id m :: map id items) in *.
  apply NoDup_cons in Hnd as [Hm Hnd].
  rewrite map_app.
  assert (map (λ p : media_item * option media_thumbnail, id p.1) (block m thumbs)
          = replicate (S (pred (length (block m thumbs)))) (id m)) as ->.
  { destruct (block_nonempty m thumbs) as (t & rest & Hb).
    assert (∀ l, (∀ p, p ∈ l → p.1 = m) →
                 map (λ p : media_item * option media_thumbnail, id p.1) l
                 = replicate (length l) (id m)) as Hrep.
    { induction l as [|p l IHl]; intros Hl; simpl; [done|].
      rewrite (Hl p) by apply list_elem_of_here.
      rewrite IHl; [done|]. intros q Hq. by apply Hl, list_elem_of_further. }
    rewrite Hrep by apply block_fst. by rewrite Hb. }
  rewrite remove_dups_block.
  - by rewrite IH.
  - intros Hin. apply Hm. apply list_elem_of_fmap in Hin as (p & -> & Hp).
    apply list_elem_of_fmap. exists p.1. split; [done|].
    by apply (left_join_fst _ thumbs).
Qed.

(** X24: with [id] a key of [media_items], the view [media_with_thumbnails]
    has exactly one row for every item that is not soft-deleted and none
    for a soft-deleted one, and the row of an item lists exactly the
    thumbnails of that item, as an empty array when it has none. *)
Theorem media_with_thumbnails_lists_live_items items thumbs :
  NoDup (map id items) →
  media_with_thumbnails items thumbs
  = map (λ m, (m, map json_build_object (thumbs_of m thumbs)))
        (filter (λ m, deleted_at m = None) items).
Proof.
  intros Hnd. unfold media_with_thumbnails. rewrite where_live_join.
  set (live := filter (λ m, deleted_at m = None) items).
  assert (NoDup (map id live)) as Hlive.
  { eapply sublist_NoDup; [exact Hnd|]. apply fmap_sublist, sublist_filter. }
  unfold group_by_id. rewrite group_keys by done.
  assert (∀ l, (∀ m, m ∈ l → m ∈ live) →
     omap (λ k, match filter (λ p, id p.1 = k) (left_join live thumbs) with
                | [] => None
                | (m, t) :: rest =>
                    Some (m, coalesce_array (json_agg_filter ((m, t) :: rest)))
                end) (map id l)
     = map (λ m, (m, map json_build_object (thumbs_of m thumbs))) l) as Hgroups.
  { induction l as [|m l IH]; intros Hl; [done|]. simpl.
    rewrite (group_of live thumbs m Hlive) by apply Hl, list_elem_of_here.
    destruct (block_nonempty m thumbs) as (t & rest & Hb). rewrite Hb.
    rewrite <- Hb, block_agg. simpl. f_equal.
    apply IH. intros x Hx. by apply Hl, list_elem_of_further. }
  by apply Hgroups.
Qed.

Lemma media_with_thumbnails_lists_live_items_witness :
  media_with_thumbnails sample_items sample_thumbs
  = [ (MediaItem 1 10 None "h1" None,
       [ThumbJson "small" "/t/1s" 150 150; ThumbJson "large" "/t/1l" 1024 768]);
      (MediaItem 3 30 None "h3" None, []) ].
Proof.
  apply (media_with_thumbnails_lists_live_items sample_items sample_thumbs).
  compute_done.
Defined.

End ViewsFacts.

Module FolderHierarchyFacts.
Import FolderStats FolderHierarchy.

Section hierarchy.
Variable fs : gmap positive media_folder.

Lemma elem_of_anchor r :
  r ∈ anchor fs ↔
  ∃ f, fs !! t_id r = Some f ∧ parent_id f = None ∧
       r = TreeRow (t_id r) None 1 [t_id r].
Proof.
  unfold anchor. rewrite list_elem_of_omap. split.
  - intros ([k f] & Hkf & Hr). apply elem_of_map_to_list in Hkf. simpl in Hr.
    destruct (parent_id f) eqn:Hp; [done|]. injection Hr as <-. simpl. eauto.
  - intros (f & Hf & Hp & Hr). exists (t_id r, f). split.
    + by apply elem_of_map_to_list.
    + simpl. rewrite Hp. by rewrite <- Hr.
Qed.

Lemma elem_of_recursive_term r W :
  r ∈ recursive_term fs W ↔
  ∃ f p, fs !! t_id r = Some f ∧ p ∈ W ∧ parent_id f = Some (t_id p) ∧
         r = TreeRow (t_id r) (parent_id f) (t_level p + 1)
                     (t_ancestors p ++ [t_id r]).
Proof.
  unfold recursive_term. rewrite list_elem_of_In, in_flat_map. split.
  - intros ([k f] & Hkf & Hr). apply list_elem_of_In in Hkf, Hr.
    apply elem_of_map_to_list in Hkf.
    apply list_elem_of_omap in Hr as (p & Hp & Hr). simpl in Hr.
    destruct (decide (parent_id f = Some (t_id p))) as [Hpar|]; [|done].
    injection Hr as <-. simpl. exists f, p. done.
  - intros (f & p & Hf & Hp & Hpar & Hr). exists (t_id r, f). split.
    + by apply list_elem_of_In, elem_of_map_to_list.
    + apply list_elem_of_In, list_elem_of_omap. exists p. split; [done|]. simpl.
      rewrite decide_True by done. by rewrite <- Hr.
Qed.

Lemma chain_from_app prev l1 l2 :
  chain_from fs prev (l1 ++ l2) ↔
  chain_from fs prev l1 ∧ chain_from fs (from_option Some prev (last l1)) l2.
Proof.
  revert prev. induction l1 as [|x l1 IH]; intros prev; simpl.
  - tauto.
  - rewrite IH. destruct l1 as [|y l1]; simpl; [tauto|].
    destruct (last (y :: l1)) eqn:Hl; simpl; [tauto|].
    by apply last_None in Hl.
Qed.

Lemma chain_from_elem prev l x :
  chain_from fs prev l → x ∈ l → is_Some (fs !! x).
Proof.
  revert prev. induction l as [|y l IH]; intros prev Hc Hx; [by apply elem_of_nil in Hx|].
  destruct Hc as [(f & Hf & _) Hc]. apply elem_of_cons in Hx as [->|Hx]; eauto.
Qed.

Lemma chain_from_lookup_0 prev l x :
  chain_from fs prev l → l !! 0%nat = Some x →
  ∃ f, fs !! x = Some f ∧ parent_id f = prev.
Proof. destruct l as [|y l]; [done|]. intros [Hf _] [= ->]. done. Qed.

Lemma chain_from_lookup_S prev l i x :
  chain_from fs prev l → l !! S i = Some x →
  ∃ y f, l !! i = Some y ∧ fs !! x = Some f ∧ parent_id f = Some y.
Proof.
  revert prev i. induction l as [|a l IH]; intros prev i Hc Hx; [done|].
  destruct Hc as [_ Hc]. simpl in Hx. destruct i as [|i].
  - destruct (chain_from_lookup_0 _ _ _ Hc Hx) as (f & Hf & Hp). exists a, f. done.
  - destruct (IH _ _ Hc Hx) as (y & f & Hy & Hf & Hp). exists y, f. done.
Qed.

(** A path from a root never visits a folder twice. *)
Lemma chain_NoDup l : chain_from fs None l → NoDup l.
Proof.
  intros Hc. apply NoDup_alt. intros i. induction i as [|i IH]; intros j x Hi Hj.
  - destruct (chain_from_lookup_0 _ _ _ Hc Hi) as (f & Hf & Hp).
    destruct j as [|j]; [done|].
    destruct (chain_from_lookup_S _ _ _ _ Hc Hj) as (y & f' & _ & Hf' & Hp').
    congruence.
  - destruct (chain_from_lookup_S _ _ _ _ Hc Hi) as (y & f & Hy & Hf & Hp).
    destruct j as [|j].
    + destruct (chain_from_lookup_0 _ _ _ Hc Hj) as (f' & Hf' & Hp'). congruence.
    + destruct (chain_from_lookup_S _ _ _ _ Hc Hj) as (y' & f' & Hy' & Hf' & Hp').
      assert (y' = y) as -> by congruence. f_equal. by apply (IH j y).
Qed.

Lemma chain_length l : chain_from fs None l → (length l ≤ base.size fs)%nat.
Proof.
  intros Hc. rewrite <- length_map_to_list, <- (length_fmap fst (map_to_list fs)).
  apply submseteq_length, NoDup_submseteq; [by apply chain_NoDup|].
  intros x Hx. destruct (chain_from_elem _ _ _ Hc Hx) as [f Hf].
  apply list_elem_of_fmap. exists (x, f). split; [done|]. by apply elem_of_map_to_list.
Qed.

Lemma root_chain_nonempty r : root_chain fs r → (0 < length (t_ancestors r))%nat.
Proof.
  intros (_ & Hl & _). destruct (t_ancestors r); [done|simpl; lia].
Qed.

Lemma anchor_level r : r ∈ anchor fs ↔ at_level fs 0 r.
Proof.
  rewrite elem_of_anchor. unfold at_level, root_chain. split.
  - intros (f & Hf & Hp & ->). simpl. repeat split; eauto.
  - intros ((Hc & Hl & Hlev & f & Hf & Hp) & Hlen). destruct r as [x p lev anc].
    simpl in *. destruct anc as [|a [|b anc]]; try done.
    injection Hl as ->. destruct Hc as [(f' & Hf' & Hp') _].
    exists f. rewrite Hf in Hf'. injection Hf' as <-.
    repeat split; [done..|]. by rewrite Hp, Hp', Hlev.
Qed.

Lemma recursive_term_level k W :
  (∀ r, r ∈ W ↔ at_level fs k r) →
  ∀ r, r ∈ recursive_term fs W ↔ at_level fs (S k) r.
Proof.
  intros HW r. rewrite elem_of_recursive_term. unfold at_level, root_chain. split.
  - intros (f & p & Hf & Hp & Hpar & ->). simpl in *.
    apply HW in Hp as ((Hc & Hl & Hlev & _) & Hlen).
    rewrite chain_from_app, last_snoc, length_app, Hl, Hlev, Hlen. simpl.
    repeat split; eauto; lia.
  - intros ((Hc & Hl & Hlev & f & Hf & Hp) & Hlen). destruct r as [x p lev anc].
    simpl in *.
    destruct (decide (anc = [])) as [->|Hne]; [done|].
    destruct (exists_last Hne) as (l & x' & ->).
    rewrite last_snoc in Hl. injection Hl as ->.
    rewrite length_app in Hlen, Hlev. simpl in Hlen.
    apply chain_from_app in Hc as [Hc [(f' & Hf' & Hp') _]].
    rewrite Hf in Hf'. injection Hf' as <-.
    destruct (last l) as [y|] eqn:Hy;
      [|apply last_None in Hy; subst l; simpl in Hlen; lia].
    simpl in Hp'.
    assert (y ∈ l) as Hyl.
    { apply last_Some in Hy as (l' & ->). apply elem_of_app. right. apply list_elem_of_here. }
    destruct (chain_from_elem _ _ _ Hc Hyl) as [g Hg].
    exists f, (TreeRow y (parent_id g) (Z.of_nat (length l)) l). simpl.
    repeat split; [done| |done|].
    + apply HW. unfold at_level, root_chain. simpl. repeat split; eauto. lia.
    + rewrite Hp, Hlev. f_equal. simpl. lia.
Qed.

(** A longer path from a root has a folder at every earlier level. *)
Lemma root_chain_prefix k r :
  root_chain fs r → (k < length (t_ancestors r))%nat → ∃ p, at_level fs k p.
Proof.
  intros (Hc & _) Hk.
  rewrite <- (take_drop (S k) (t_ancestors r)) in Hc.
  apply chain_from_app in Hc as [Hc _].
  assert (length (take (S k) (t_ancestors r)) = S k) as Hlen
    by (rewrite length_take; lia).
  destruct (last (take (S k) (t_ancestors r))) as [y|] eqn:Hy;
    [|apply last_None in Hy; rewrite Hy in Hlen; done].
  assert (y ∈ take (S k) (t_ancestors r)) as Hyl.
  { apply last_Some in Hy as (l' & ->). apply elem_of_app. right. apply list_elem_of_here. }
  destruct (chain_from_elem _ _ _ Hc Hyl) as [g Hg].
  exists (TreeRow y (parent_id g) (Z.of_nat (S k)) (take (S k) (t_ancestors r))).
  unfold at_level, root_chain. simpl. rewrite Hlen. repeat split; eauto.
Qed.

(** A row is fixed by its path. *)
Lemma root_chain_eq r1 r2 :
  root_chain fs r1 → root_chain fs r2 → t_ancestors r1 = t_ancestors r2 → r1 = r2.
Proof.
  intros (_ & Hl1 & Hlev1 & f1 & Hf1 & Hp1) (_ & Hl2 & Hlev2 & f2 & Hf2 & Hp2) Heq.
  destruct r1 as [x1 p1 lev1 anc1], r2 as [x2 p2 lev2 anc2]. simpl in *. subst anc2.
  assert (x1 = x2) as -> by congruence.
  assert (f1 = f2) as -> by congruence. congruence.
Qed.

Lemma NoDup_omap_inj {A B} (f : A → option B) (l : list A) :
  (∀ x y z, x ∈ l → y ∈ l → f x = Some z → f y = Some z → x = y) →
  NoDup l → NoDup (omap f l).
Proof.
  induction l as [|a l IH]; intros Hinj Hnd; [constructor|].
  apply NoDup_cons in Hnd as [Ha Hnd]. simpl.
  assert (NoDup (omap f l)) as Hrest.
  { apply IH; [|done]. intros x y z Hx Hy. apply Hinj; by apply list_elem_of_further. }
  destruct (f a) as [b|] eqn:Hfa; [|done].
  apply NoDup_cons. split; [|done].
  intros (x & Hx & Hfx)%list_elem_of_omap. apply Ha.
  rewrite (Hinj a x b); [done|apply list_elem_of_here|by apply list_elem_of_further|done..].
Qed.

Lemma NoDup_flat_map {A B} (f : A → list B) (l : list A) :
  (∀ x1 x2 y, x1 ∈ l → x2 ∈ l → y ∈ f x1 → y ∈ f x2 → x1 = x2) →
  (∀ x, x ∈ l → NoDup (f x)) → NoDup l → NoDup (flat_map f l).
Proof.
  induction l as [|a l IH]; intros Hdisj Hf Hnd; [constructor|].
  apply NoDup_cons in Hnd as [Ha Hnd]. simpl. apply NoDup_app. split; [|split].
  - apply Hf, list_elem_of_here.
  - intros y Hy Hin. apply list_elem_of_In, in_flat_map in Hin as (x & Hx & Hyx).
    apply list_elem_of_In in Hx, Hyx. apply Ha.
    rewrite (Hdisj a x y); [done|apply list_elem_of_here|by apply list_elem_of_further|done..].
  - apply IH; [|by intros x Hx; apply Hf, list_elem_of_further|done].
    intros x1 x2 y Hx1 Hx2. apply Hdisj; by apply list_elem_of_further.
Qed.

Lemma anchor_NoDup : NoDup (anchor fs).
Proof.
  unfold anchor. apply NoDup_omap_inj; [|apply NoDup_map_to_list].
  intros [k1 f1] [k2 f2] z H1 H2 Hz1 Hz2. simpl in *.
  apply elem_of_map_to_list in H1, H2.
  destruct (parent_id f1), (parent_id f2); try done.
  assert (k1 = k2) as -> by congruence. congruence.
Qed.

Lemma recursive_term_NoDup k W :
  (∀ r, r ∈ W ↔ at_level fs k r) → NoDup W → NoDup (recursive_term fs W).
Proof.
  intros HW Hnd. unfold recursive_term. apply NoDup_flat_map; [| |apply NoDup_map_to_list].
  - intros [k1 f1] [k2 f2] y H1 H2 Hy1 Hy2.
    apply elem_of_map_to_list in H1, H2.
    apply list_elem_of_omap in Hy1 as (p1 & _ & Hy1), Hy2 as (p2 & _ & Hy2).
    simpl in *.
    destruct (decide (parent_id f1 = Some (t_id p1))); [|done].
    destruct (decide (parent_id f2 = Some (t_id p2))); [|done].
    assert (k1 = k2) as -> by congruence. congruence.
  - intros [k1 f1] _. apply NoDup_omap_inj; [|done].
    intros p1 p2 z Hp1 Hp2 Hz1 Hz2. simpl in *.
    destruct (decide (parent_id f1 = Some (t_id p1))); [|done].
    destruct (decide (parent_id f1 = Some (t_id p2))); [|done].
    apply HW in Hp1 as [Hr1 _], Hp2 as [Hr2 _].
    apply root_chain_eq; [done..|].
    assert (t_ancestors p1 ++ [k1] = t_ancestors p2 ++ [k1]) as Happ by congruence.
    by apply app_inv_tail in Happ.
Qed.

Lemma folder_tree_rows fuel k W :
  (∀ r, r ∈ W ↔ at_level fs k r) →
  NoDup W →
  (base.size fs ≤ fuel + k)%nat →
  ∃ rows, folder_tree fuel fs W = Some rows ∧ NoDup rows ∧
          ∀ r, r ∈ rows ↔ root_chain fs r ∧ (k < length (t_ancestors r))%nat.
Proof.
  revert k W. induction fuel as [|fuel IH]; intros k W HW Hnd Hfuel.
  - destruct W as [|p W].
    + exists []. split; [done|]. split; [constructor|].
      intros r. split; [by intros ?%elem_of_nil|].
      intros [Hr Hk]. destruct (root_chain_prefix k r Hr Hk) as [q Hq].
      apply HW in Hq. by apply elem_of_nil in Hq.
    + assert (at_level fs k p) as [(Hc & _) Hlen] by apply HW, list_elem_of_here.
      apply chain_length in Hc. lia.
  - destruct W as [|p W].
    + exists []. split; [done|]. split; [constructor|].
      intros r. split; [by intros ?%elem_of_nil|].
      intros [Hr Hk]. destruct (root_chain_prefix k r Hr Hk) as [q Hq].
      apply HW in Hq. by apply elem_of_nil in Hq.
    + destruct (IH (S k) (recursive_term fs (p :: W)))
        as (rest & Hrest & Hndrest & Hrows).
      { by apply recursive_term_level. }
      { by apply (recursive_term_NoDup k). }
      { lia. }
      exists ((p :: W) ++ rest). split; [|split].
      { simpl. simpl in Hrest. by rewrite Hrest. }
      { apply NoDup_app. split; [done|]. split; [|done].
        intros r Hr Hin. apply HW in Hr as [_ Hlen]. apply Hrows in Hin as [_ Hlt]. lia. }
      intros r. rewrite elem_of_app, HW, Hrows. unfold at_level. split.
      * intros [[Hr Hlen]|[Hr Hlen]]; split; try done; lia.
      * intros [Hr Hlen].
        destruct (decide (length (t_ancestors r) = S k)); [left|right]; split;
          try done; lia.
Qed.

(** A folder has at most one path from a root. *)
Lemma root_path_unique l1 : ∀ l2 x,
  chain_from fs None l1 → chain_from fs None l2 →
  last l1 = Some x → last l2 = Some x → l1 = l2.
Proof.
  induction l1 as [|a l1 IH] using rev_ind; intros l2 x Hc1 Hc2 Hl1 Hl2; [done|].
  destruct (decide (l2 = [])) as [->|Hne]; [done|].
  destruct (exists_last Hne) as (l2' & b & ->).
  rewrite last_snoc in Hl1, Hl2. injection Hl1 as ->. injection Hl2 as ->.
  apply chain_from_app in Hc1 as [Hc1 [(f1 & Hf1 & Hp1) _]].
  apply chain_from_app in Hc2 as [Hc2 [(f2 & Hf2 & Hp2) _]].
  rewrite Hf1 in Hf2. injection Hf2 as <-. f_equal.
  destruct (last l1) as [y|] eqn:Hy1; destruct (last l2') as [y'|] eqn:Hy2;
    simpl in *; try congruence.
  - apply (IH l2' y); [done..|congruence].
  - apply last_None in Hy1, Hy2. congruence.
Qed.

Lemma folder_tree_ids rows :
  NoDup rows → (∀ r, r ∈ rows → root_chain fs r) → NoDup (t_id <$> rows).
Proof.
  intros Hnd Hrows. apply NoDup_fmap_2_strong; [|done].
  intros r1 r2 H1 H2 Hid. apply Hrows in H1, H2.
  apply root_chain_eq; [done..|].
  destruct H1 as (Hc1 & Hl1 & _), H2 as (Hc2 & Hl2 & _).
  apply (root_path_unique _ _ (t_id r1)); [done..|]. by rewrite Hid.
Qed.

End hierarchy.

(** X25: the recursive view [folder_hierarchy] always comes to an end,
    and its rows are exactly the folders reachable from a root folder by
    parent links: [ancestors] is the path from the root down to the
    folder itself and [level] is the length of that path.  A folder on a
    cycle of parent links has no row. *)
Theorem folder_hierarchy_rows_are_root_paths (fs : gmap positive media_folder) :
  ∃ rows, folder_hierarchy fs = Some rows ∧
          ∀ r, r ∈ rows ↔ root_chain fs r.
Proof.
  destruct (folder_tree_rows fs (base.size fs) 0 (anchor fs)) as (rows & Hrows & _ & Hin).
  - apply anchor_level.
  - apply anchor_NoDup.
  - lia.
  - exists rows. split; [done|]. intros r. rewrite Hin. split; [tauto|].
    intros Hr. split; [done|]. by apply root_chain_nonempty in Hr.
Qed.

(** X26: the view [folder_hierarchy] never lists a folder twice: the
    [id]s of its rows are pairwise different. *)
Theorem folder_hierarchy_one_row_per_folder (fs : gmap positive media_folder) rows :
  folder_hierarchy fs = Some rows → NoDup (t_id <$> rows).
Proof.
  intros Hrun.
  destruct (folder_tree_rows fs (base.size fs) 0 (anchor fs))
    as (rows' & Hrows & Hnd & Hin).
  - apply anchor_level.
  - apply anchor_NoDup.
  - lia.
  - unfold folder_hierarchy in Hrun. rewrite Hrows in Hrun. injection Hrun as <-.
    apply (folder_tree_ids fs); [done|]. intros r Hr. by apply Hin in Hr as [Hr _].
Qed.

Lemma folder_hierarchy_one_row_per_folder_witness :
  NoDup (t_id <$> [ TreeRow 1 None 1 [1%positive];
                    TreeRow 2 (Some 1%positive) 2 [1%positive; 2%positive] ]).
Proof.
  apply (folder_hierarchy_one_row_per_folder looped_folders).
  vm_compute. reflexivity.
Defined.

(** Two folders that are each other's parent are left out. *)
Lemma folder_hierarchy_skips_loops :
  folder_hierarchy looped_folders
  = Some [ TreeRow 1 None 1 [1%positive];
           TreeRow 2 (Some 1%positive) 2 [1%positive; 2%positive] ].
Proof. vm_compute. reflexivity. Qed.

End FolderHierarchyFacts.
